(** * Cards Against Humanity backend: game logic and game repository

    A shallow embedding of the Go packages [gameLogic] (cards, players,
    games) and [gameRepo] (the process-wide registry of games), with the
    properties of the design document stated and proved over it.

    Conventions of the embedding.
    - A Go method with a pointer receiver that mutates it becomes a
      function from the receiver's value to a pair of the returned value
      and the receiver's new value.  The new value is returned on the
      error paths as well: whatever the method wrote before it returned
      the error stays written.
    - A Go [error] is its message; [errors.New] and [fmt.Sprintf] are
      string constants and concatenation.
    - Everything the Go runtime chooses for the program is an explicit
      argument: the identifiers minted by [uuid.New], the clock read by
      [time.Now], the numbers drawn from [math/rand], and the order in
      which a [range] loop walks a map.
    - Each method of [Game] and [GameRepo] runs under the receiver's
      mutex from its first to its last statement, so a method is one
      atomic step and the locks do not appear. *)

From stdpp Require Import gmap strings list fin_maps sorting.
From Stdlib Require Import ZArith Lia.

Open Scope string_scope.
Open Scope Z_scope.
Open Scope list_scope.

(** ** Identifiers, clock and randomness *)

(** [uuid.UUID] is 16 bytes; the zero value [uuid.UUID{}] is 0. *)
Abbreviation UUID := N.

(** [time.Time], as nanoseconds. *)
Abbreviation Time := Z.

(** The values [math/rand] hands out, in the order they are asked for. *)
Definition Rand := nat → nat.

Definition rand_head (t : Rand) : nat := t 0%nat.
Definition rand_tail (t : Rand) : Rand := λ i, t (S i).
Definition rand_drop (n : nat) (t : Rand) : Rand := λ i, t (n + i)%nat.

(** [rand.Intn(n)] for [n > 0]: a number below [n]. *)
Definition Intn (r : nat) (n : nat) : nat := (r `mod` n)%nat.

(** ** Errors and results *)

Definition error := string.

(** The pair [(value, error)] a Go function returns: [Ok v] is [(v, nil)],
    [Err e] is [(zero value, e)]. *)
Inductive result (A : Type) : Type :=
| Ok (a : A)
| Err (e : error).
Arguments Ok {A} a.
Arguments Err {A} e.

Definition is_Err {A} (r : result A) : Prop := ∃ e, r = Err e.

(** Methods on a receiver of type [S]: the result and the receiver after
    the call, also when the call failed. *)
Definition M (S A : Type) : Type := S → result A * S.

Definition ret {S A} (a : A) : M S A := λ s, (Ok a, s).
Definition fail {S A} (e : error) : M S A := λ s, (Err e, s).
Definition bind {S A B} (m : M S A) (k : A → M S B) : M S B :=
  λ s, match m s with
       | (Ok a, s') => k a s'
       | (Err e, s') => (Err e, s')
       end.
Definition get {S} : M S S := λ s, (Ok s, s).
Definition modify {S} (f : S → S) : M S unit := λ s, (Ok tt, f s).

Declare Scope go_scope.
Delimit Scope go_scope with go.
Notation "x <- m ;; k" := (bind m (λ x, k))
  (at level 100, m at next level, right associativity) : go_scope.
Notation "m ;; k" := (bind m (λ _, k))
  (at level 100, right associativity) : go_scope.

(** * Package [gameLogic] *)

Module gameLogic.

(** ** The card catalog *)

(** Modelled from the spec: the declarations of [WhiteCard] and
    [BlackCard] are not among the sources.  The code reads [card.Id] as an
    [int] and builds cards with [NewWhiteCard(i, text)] and
    [NewBlackCard(i, text, pick)]; the spec gives a card an identifier (its
    catalog index), a text and, for a black card, a pick count. *)
Record WhiteCard := mkWhiteCard { wc_Id : Z; wc_Text : string }.
Record BlackCard := mkBlackCard { bc_Id : Z; bc_Text : string; bc_Pick : Z }.

#[global] Instance WhiteCard_eq_dec : EqDecision WhiteCard.
Proof. solve_decision. Defined.
#[global] Instance BlackCard_eq_dec : EqDecision BlackCard.
Proof. solve_decision. Defined.

(** ** Player *)

(** [Hand] is a Go map keyed by card identifier.  [CurrentPlay] is a slice:
    [None] is the nil slice, [Some []] an empty slice that is not nil.  The
    cards themselves are pointers into the read-only catalog, so a card is
    its value. *)
Record Player := mkPlayer {
  p_Id : UUID;
  p_Name : string;
  p_Hand : gmap Z WhiteCard;
  p_CurrentPlay : option (list WhiteCard);
  p_Connected : bool;
  p_Points : Z
}.

Definition set_Hand (h : gmap Z WhiteCard) (p : Player) : Player :=
  mkPlayer (p_Id p) (p_Name p) h (p_CurrentPlay p) (p_Connected p) (p_Points p).
Definition set_CurrentPlay (cp : option (list WhiteCard)) (p : Player) : Player :=
  mkPlayer (p_Id p) (p_Name p) (p_Hand p) cp (p_Connected p) (p_Points p).
Definition set_Connected (b : bool) (p : Player) : Player :=
  mkPlayer (p_Id p) (p_Name p) (p_Hand p) (p_CurrentPlay p) b (p_Points p).

Definition MaxPlayerNameLength : nat := 20.
Definition MinPlayerNameLength : nat := 3.

Definition ErrNameLength : error :=
  "Length of name must be between 3 and 20 (exclusive exclusive)".

(** [NewPlayer]; [id] is the value of [uuid.New()]. *)
Definition NewPlayer (id : UUID) (Name : string) : result Player :=
  if ((MaxPlayerNameLength <? String.length Name)%nat
      || (String.length Name <? MinPlayerNameLength)%nat)%bool
  then Err ErrNameLength
  else Ok (mkPlayer id Name ∅ None true 0).

Definition hasCard (p : Player) (card : WhiteCard) : bool :=
  bool_decide (is_Some (p_Hand p !! wc_Id card)).

Definition ErrNilCards : error := "Cannot play nil cards".
Definition ErrAlreadyPlayed : error := "Cards have already been played".
Definition ErrDuplicateInPlay : error := "Card is in your play more than once".
Definition ErrCardNotInHand : error := "Cannot find the card in the hand".

(** The validating loop of [PlayCard]: for each card, first the test
    against [cardsSeen], then the test against the hand.  [None] when the
    loop runs to its end. *)
Fixpoint PlayCard_check (p : Player) (cardsSeen : gmap Z bool)
    (cards : list WhiteCard) : option error :=
  match cards with
  | [] => None
  | card :: rest =>
      match cardsSeen !! wc_Id card with
      | Some _ => Some ErrDuplicateInPlay
      | None =>
          let cardsSeen := <[wc_Id card := true]> cardsSeen in
          if negb (hasCard p card) then Some ErrCardNotInHand
          else PlayCard_check p cardsSeen rest
      end
  end.

(** The closing loop of [PlayCard]: [delete(p.Hand, card.Id)] per card. *)
Definition PlayCard_remove (cards : list WhiteCard) (p : Player) : Player :=
  foldl (λ p card, set_Hand (delete (wc_Id card) (p_Hand p)) p) p cards.

(** [PlayCard].  The argument is [None] for a nil slice.  [cardsCopy] is a
    fresh slice with the elements of [cards]. *)
Definition PlayCard (cards : option (list WhiteCard)) : M Player unit :=
  (match cards with
   | None => fail ErrNilCards
   | Some cards =>
       p <- get;;
       match p_CurrentPlay p with
       | Some _ => fail ErrAlreadyPlayed
       | None =>
           match PlayCard_check p ∅ cards with
           | Some e => fail e
           | None =>
               let cardsCopy := cards in
               modify (set_CurrentPlay (Some cardsCopy));;
               modify (PlayCard_remove cards)
           end
       end
   end)%go.

Definition ErrDuplicateCard : error := "Cannot add duplicate cards to the hand".

Definition AddCardToHand (card : WhiteCard) : M Player unit :=
  (p <- get;;
   if hasCard p card then fail ErrDuplicateCard
   else modify (set_Hand (<[wc_Id card := card]> (p_Hand p))))%go.

Definition CardsInHand (p : Player) : nat := size (p_Hand p).

Definition FinaliseRound (p : Player) : Player := set_CurrentPlay None p.

(** *** Slices as references

    A Go slice refers to a backing array, and two slices can refer to the
    same array.  [PlayCard] above takes and records a slice by its
    elements.  [PlayCard_ref] is the same method with the arrays kept in a
    store and slices as addresses into it, which tells the slice of the
    caller from the slice the player records: [make] allocates the array
    of [cardsCopy] at an address not in use, [copy] fills it. *)
Definition loc := positive.

(** A player whose [CurrentPlay] is an address, nil being [None];
    [pr_base] holds the other fields. *)
Record PlayerRef := mkPlayerRef {
  pr_base : Player;
  pr_CurrentPlay : option loc
}.

(** The elements of a slice; a slice refers to an array of the store. *)
Definition elements_of (h : gmap loc (list WhiteCard)) (s : loc) : list WhiteCard :=
  default [] (h !! s).

(** The player by value. *)
Definition by_value (h : gmap loc (list WhiteCard)) (p : PlayerRef) : Player :=
  set_CurrentPlay (elements_of h <$> pr_CurrentPlay p) (pr_base p).

Definition PlayCard_ref (cards : option loc)
    : M (gmap loc (list WhiteCard) * PlayerRef) unit := λ '(h, p),
  match cards with
  | None => (Err ErrNilCards, (h, p))
  | Some cards =>
      match pr_CurrentPlay p with
      | Some _ => (Err ErrAlreadyPlayed, (h, p))
      | None =>
          match PlayCard_check (pr_base p) ∅ (elements_of h cards) with
          | Some e => (Err e, (h, p))
          | None =>
              let cardsCopy := fresh (dom h) in
              let h := <[cardsCopy := elements_of h cards]> h in
              let p := mkPlayerRef (pr_base p) (Some cardsCopy) in
              let p := mkPlayerRef (PlayCard_remove (elements_of h cards) (pr_base p))
                         (pr_CurrentPlay p) in
              (Ok tt, (h, p))
          end
      end
  end.

(** ** Decks *)

(** Modelled from the spec: the declaration of [CardDeck] and its
    functions [AccumalateDecks], [GetNewBlackCard] and [GetNewWhiteCards]
    are not among the sources; the sources only read the fields
    [WhiteCards] and [BlackCards] of a deck.  The spec: a deck owns two
    draw pools, a card index is in a pool at most once, drawing removes
    the card from the pool, an empty pool is an error. *)
Record CardDeck := mkCardDeck {
  cd_WhiteCards : list WhiteCard;
  cd_BlackCards : list BlackCard
}.

(** Modelled from the spec: the error of an empty pool, which the spec
    names [Exhausted]; the text of the message is not among the sources. *)
Definition ErrExhausted : error := "Exhausted".

(** Modelled from the spec: the merge that keeps a card index in a pool
    at most once.  The cards of [l] whose identifier is not in [seen],
    each identifier once, in the order of [l]. *)
Fixpoint merge_pool {A} (id : A → Z) (seen : gset Z) (l : list A) : list A :=
  match l with
  | [] => []
  | x :: l =>
      if decide (id x ∈ seen) then merge_pool id seen l
      else x :: merge_pool id ({[id x]} ∪ seen) l
  end.

(** Modelled from the spec: [AccumalateDecks] is the spec's [Build]
    after the test for an empty selection, which [AccumalateCardPacks]
    makes; it merges the white and black pools of the given decks, and a
    card that several decks contribute is in the merged pool once. *)
Definition AccumalateDecks (decks : list CardDeck) : result CardDeck :=
  Ok (mkCardDeck (merge_pool wc_Id ∅ (mjoin (cd_WhiteCards <$> decks)))
                 (merge_pool bc_Id ∅ (mjoin (cd_BlackCards <$> decks)))).

(** Modelled from the spec: one draw at random.  Removes and returns the
    card at position [Intn r (length pool)]. *)
Definition draw_one {A} (r : nat) (pool : list A) : option (A * list A) :=
  match pool with
  | [] => None
  | c0 :: _ =>
      let i := Intn r (length pool) in
      Some (default c0 (pool !! i), delete i pool)
  end.

(** Modelled from the spec: [GetNewBlackCard] is the spec's [DrawBlack];
    it removes and returns one black card chosen at random from the
    remaining pool and fails with [Exhausted] when the pool is empty. *)
Definition GetNewBlackCard (r : nat) : M CardDeck BlackCard := λ deck,
  match draw_one r (cd_BlackCards deck) with
  | None => (Err ErrExhausted, deck)
  | Some (card, pool) => (Ok card, mkCardDeck (cd_WhiteCards deck) pool)
  end.

(** Modelled from the spec: [n] draws at random, one after the other,
    from what the draws before left. *)
Fixpoint draw_many {A} (rnd : Rand) (n : nat) (pool : list A) : list A * list A :=
  match n with
  | O => ([], pool)
  | S n =>
      match draw_one (rand_head rnd) pool with
      | None => ([], pool)
      | Some (card, pool) =>
          let '(cards, pool) := draw_many (rand_tail rnd) n pool in
          (card :: cards, pool)
      end
  end.

(** Modelled from the spec: [GetNewWhiteCards] is the spec's
    [DrawWhite(n)]; it removes and returns [n] white cards, or fails with
    [Exhausted] and removes nothing when fewer than [n] remain. *)
Definition GetNewWhiteCards (rnd : Rand) (n : nat) : M CardDeck (list WhiteCard) :=
  λ deck,
  if (length (cd_WhiteCards deck) <? n)%nat then (Err ErrExhausted, deck)
  else
    let '(cards, pool) := draw_many rnd n (cd_WhiteCards deck) in
    (Ok cards, mkCardDeck pool (cd_BlackCards deck)).

(** ** Card packs *)

Record CardPack := mkCardPack {
  cp_Id : UUID;
  cp_Name : string;
  cp_WhiteCards : Z;
  cp_BlackCards : Z;
  cp_CardDeck : CardDeck
}.

Definition ErrNoCardPack : error := "At least one card pack must be selected".

Definition AccumalateCardPacks (packs : list CardPack) : result CardDeck :=
  if (length packs =? 0)%nat then Err ErrNoCardPack
  else
    let decks := cp_CardDeck <$> packs in
    AccumalateDecks decks.

(** ** Game settings *)

Definition MinRounds : Z := 1.
Definition MaxRounds : Z := 100.
Definition MinPlayingToPoints : Z := 2.
Definition MaxPlayingToPoints : Z := 50.
Definition MaxPasswordLength : nat := 50.
Definition MinPlayers : Z := 3.
Definition MaxPlayers : Z := 20.
Definition MinCardPacks : nat := 1.
Definition HandSize : nat := 7.

(** The [uint] fields are numbers in [0, 2^64). *)
Record GameSettings := mkGameSettings {
  gs_MaxRounds : Z;
  gs_PlayingToPoints : Z;
  gs_Password : string;
  gs_MaxPlayers : Z;
  gs_CardPacks : list CardPack
}.

(** The conversion [int(x)] of a [uint] and the increment [x++] of a
    [uint], on a 64-bit target. *)
Definition int_of_uint (x : Z) : Z := if x <? 2 ^ 63 then x else x - 2 ^ 64.
Definition uint_succ (x : Z) : Z := (x + 1) `mod` 2 ^ 64.

Definition Validate (gs : GameSettings) : bool :=
  if gs_MaxRounds gs <? MinRounds then false
  else if MaxRounds <? gs_MaxRounds gs then false
  else if gs_PlayingToPoints gs <? MinPlayingToPoints then false
  else if MaxPlayingToPoints <? gs_PlayingToPoints gs then false
  else if (MaxPasswordLength <? String.length (gs_Password gs))%nat then false
  else if gs_MaxPlayers gs <? MinPlayers then false
  else if MaxPlayers <? gs_MaxPlayers gs then false
  else if (length (gs_CardPacks gs) <? MinCardPacks)%nat then false
  else true.

(** ** Game *)

Inductive GameState :=
| GameStateInLobby
| GameStateWhiteCardsBeingSelected
| GameStateCzarJudgingCards
| GameStateDisplayingWinningCard.

#[global] Instance GameState_eq_dec : EqDecision GameState.
Proof. solve_decision. Defined.

(** [PlayersMap] holds pointers to players: a key that is absent reads as
    the nil pointer.  [CurrentBlackCard] and [CardDeck] are pointers too,
    [None] when nil.  The mutex is left out. *)
Record Game := mkGame {
  g_Id : UUID;
  g_Players : list UUID;
  g_PlayersMap : gmap UUID Player;
  g_CurrentCardCzarId : UUID;
  g_GameOwnerId : UUID;
  g_CurrentRound : Z;
  g_Settings : GameSettings;
  g_CurrentBlackCard : option BlackCard;
  g_CardDeck : option CardDeck;
  g_CreationTime : Time;
  g_GameState : GameState
}.

Definition set_Players (x : list UUID) (g : Game) : Game :=
  mkGame (g_Id g) x (g_PlayersMap g) (g_CurrentCardCzarId g) (g_GameOwnerId g)
    (g_CurrentRound g) (g_Settings g) (g_CurrentBlackCard g) (g_CardDeck g)
    (g_CreationTime g) (g_GameState g).
Definition set_PlayersMap (x : gmap UUID Player) (g : Game) : Game :=
  mkGame (g_Id g) (g_Players g) x (g_CurrentCardCzarId g) (g_GameOwnerId g)
    (g_CurrentRound g) (g_Settings g) (g_CurrentBlackCard g) (g_CardDeck g)
    (g_CreationTime g) (g_GameState g).
Definition set_GameOwnerId (x : UUID) (g : Game) : Game :=
  mkGame (g_Id g) (g_Players g) (g_PlayersMap g) (g_CurrentCardCzarId g) x
    (g_CurrentRound g) (g_Settings g) (g_CurrentBlackCard g) (g_CardDeck g)
    (g_CreationTime g) (g_GameState g).
Definition set_CurrentRound (x : Z) (g : Game) : Game :=
  mkGame (g_Id g) (g_Players g) (g_PlayersMap g) (g_CurrentCardCzarId g)
    (g_GameOwnerId g) x (g_Settings g) (g_CurrentBlackCard g) (g_CardDeck g)
    (g_CreationTime g) (g_GameState g).
Definition set_Settings (x : GameSettings) (g : Game) : Game :=
  mkGame (g_Id g) (g_Players g) (g_PlayersMap g) (g_CurrentCardCzarId g)
    (g_GameOwnerId g) (g_CurrentRound g) x (g_CurrentBlackCard g) (g_CardDeck g)
    (g_CreationTime g) (g_GameState g).
Definition set_CurrentBlackCard (x : option BlackCard) (g : Game) : Game :=
  mkGame (g_Id g) (g_Players g) (g_PlayersMap g) (g_CurrentCardCzarId g)
    (g_GameOwnerId g) (g_CurrentRound g) (g_Settings g) x (g_CardDeck g)
    (g_CreationTime g) (g_GameState g).
Definition set_CardDeck (x : option CardDeck) (g : Game) : Game :=
  mkGame (g_Id g) (g_Players g) (g_PlayersMap g) (g_CurrentCardCzarId g)
    (g_GameOwnerId g) (g_CurrentRound g) (g_Settings g) (g_CurrentBlackCard g) x
    (g_CreationTime g) (g_GameState g).
Definition set_GameState (x : GameState) (g : Game) : Game :=
  mkGame (g_Id g) (g_Players g) (g_PlayersMap g) (g_CurrentCardCzarId g)
    (g_GameOwnerId g) (g_CurrentRound g) (g_Settings g) (g_CurrentBlackCard g)
    (g_CardDeck g) (g_CreationTime g) x.

Definition ErrInvalidSettings : error := "Cannot validate the game settings".

(** [NewGame]; [hostId] and [gameId] are the two values of [uuid.New()],
    [now] the value of [time.Now()]. *)
Definition NewGame (hostId gameId : UUID) (now : Time)
    (gameSettings : GameSettings) (hostPlayerName : string) : result Game :=
  if negb (Validate gameSettings) then Err ErrInvalidSettings
  else
    match NewPlayer hostId hostPlayerName with
    | Err err => Err err
    | Ok hostPlayer =>
        let playersMap := <[p_Id hostPlayer := hostPlayer]> (∅ : gmap UUID Player) in
        let players := [p_Id hostPlayer] in
        Ok (mkGame gameId players playersMap 0%N (p_Id hostPlayer) 0 gameSettings
              None None now GameStateInLobby)
    end.

Record GameInfo := mkGameInfo {
  gi_Id : UUID;
  gi_PlayerCount : nat;
  gi_MaxPlayers : Z;
  gi_PlayingTo : Z;
  gi_HasPassword : bool
}.

Definition Info (g : Game) : GameInfo :=
  mkGameInfo (g_Id g) (length (g_Players g)) (gs_MaxPlayers (g_Settings g))
    (gs_PlayingToPoints (g_Settings g))
    (negb (bool_decide (gs_Password (g_Settings g) = ""))).

Record GameStateInfo := mkGameStateInfo {
  gsi_Id : UUID;
  gsi_Settings : GameSettings;
  gsi_CreationTime : Time;
  gsi_GameState : GameState;
  gsi_Players : list Player;
  gsi_GameOwnerId : UUID
}.

(** The body of the loop of [StateInfo].  Reading a field through
    [g.PlayersMap[playerId]] when the key is absent dereferences nil and
    panics: [None].  The fields [Hand] and [CurrentPlay] of the [Player]
    literal are not given, so they are nil. *)
Definition StateInfo_player (g : Game) (playerId : UUID) : option Player :=
  p ← g_PlayersMap g !! playerId;
  Some (mkPlayer playerId (p_Name p) ∅ None (p_Connected p) (p_Points p)).

(** [StateInfo]; [None] when it panics. *)
Definition StateInfo (g : Game) : option GameStateInfo :=
  players ← mapM (StateInfo_player g) (g_Players g);
  Some (mkGameStateInfo (g_Id g) (g_Settings g) (g_CreationTime g)
          (g_GameState g) players (g_GameOwnerId g)).

Definition ErrGameFull : error := "Cannot add more than max players".
Definition ErrPlayerMissing : error :=
  "Cannot find the player from the map within the map".
Definition ErrDuplicateName : error :=
  "Players cannot have the same name as each other".

(** The loop of [AddPlayer] over [g.Players]. *)
Fixpoint AddPlayer_check (playerName : string) (playersMap : gmap UUID Player)
    (players : list UUID) : option error :=
  match players with
  | [] => None
  | playerId :: rest =>
      match playersMap !! playerId with
      | None => Some ErrPlayerMissing
      | Some player =>
          if bool_decide (playerName = p_Name player) then Some ErrDuplicateName
          else AddPlayer_check playerName playersMap rest
      end
  end.

(** [AddPlayer]; [id] is the value of [uuid.New()] inside [NewPlayer]. *)
Definition AddPlayer (id : UUID) (playerName : string) : M Game UUID := λ g,
  if Z.of_nat (length (g_Players g)) >=? int_of_uint (gs_MaxPlayers (g_Settings g))
  then (Err ErrGameFull, g)
  else
    match NewPlayer id playerName with
    | Err err => (Err ("Cannot create player " +:+ err), g)
    | Ok player =>
        match AddPlayer_check playerName (g_PlayersMap g) (g_Players g) with
        | Some err => (Err err, g)
        | None =>
            let g := set_Players (g_Players g ++ [p_Id player]) g in
            let g := set_PlayersMap (<[p_Id player := player]> (g_PlayersMap g)) g in
            (Ok (p_Id player), g)
        end
    end.

Record PlayerRemovalResult := mkPlayerRemovalResult {
  prr_NewGameOwner : UUID;
  prr_PlayersLeft : nat
}.

Definition ErrPlayerNotInGame : error := "Player is not in the game".

(** [RemovePlayer]; [r] is what [rand.Intn] draws from. *)
Definition RemovePlayer (r : nat) (playerToRemoveId : UUID)
    : M Game PlayerRemovalResult := λ g,
  match g_PlayersMap g !! playerToRemoveId with
  | None => (Err ErrPlayerNotInGame, g)
  | Some _ =>
      let g := set_PlayersMap (delete playerToRemoveId (g_PlayersMap g)) g in
      let players := filter (λ pid, pid ≠ playerToRemoveId) (g_Players g) in
      let g := set_Players players g in
      let playersLeft := length (g_Players g) in
      if bool_decide (playerToRemoveId = g_GameOwnerId g) && (0 <? playersLeft)%nat
      then
        let i := Intn r playersLeft in
        let g := set_GameOwnerId (default 0%N (g_Players g !! i)) g in
        (Ok (mkPlayerRemovalResult (g_GameOwnerId g) playersLeft), g)
      else (Ok (mkPlayerRemovalResult 0%N playersLeft), g)
  end.

Record RoundInfo := mkRoundInfo {
  ri_PlayerHands : gmap UUID (list WhiteCard);
  ri_CurrentBlackCard : option BlackCard;
  ri_CurrentCardCzarId : UUID;
  ri_RoundNumber : Z
}.

Definition set_PlayerHands (x : gmap UUID (list WhiteCard)) (i : RoundInfo) : RoundInfo :=
  mkRoundInfo x (ri_CurrentBlackCard i) (ri_CurrentCardCzarId i) (ri_RoundNumber i).

(** The entries of [g.PlayersMap] in the order a [range] loop visits
    them.  Go leaves the order open; [prio] ranks the keys and stands for
    the choice the runtime makes, and every order is the order of some
    ranking. *)
Definition prio_le (prio : UUID → nat) (a b : UUID * Player) : Prop :=
  (prio a.1 ≤ prio b.1)%nat.

#[global] Instance prio_le_dec prio a b : Decision (prio_le prio a b).
Proof. unfold prio_le. apply _. Defined.

Definition range_players (prio : UUID → nat) (m : gmap UUID Player)
    : list (UUID * Player) :=
  merge_sort (prio_le prio) (map_to_list m).

Definition ErrNotInLobby : error :=
  "The game is not in the lobby so cannot be started".
Definition ErrNotEnoughPlayers : error :=
  "Cannot start game until the minimum amount of players 3 have joined the game".
Definition ErrNoBlackCard : error := "Cannot get a black card".

(** The map [cardIndexSlice] built from the dealt cards. *)
Definition cardIndexSlice (cards : list WhiteCard) : gmap Z WhiteCard :=
  foldl (λ m card, <[wc_Id card := card]> m) ∅ cards.

(** The dealing loop of [StartGame] over the entries still to visit.
    [deck] is the deck [g.CardDeck] points to and [rnd] what is left of the
    random numbers.  A failed draw returns from [StartGame] at once. *)
Fixpoint StartGame_deal (rnd : Rand) (deck : CardDeck)
    (entries : list (UUID * Player)) (info : RoundInfo) : M Game RoundInfo :=
  λ g,
  match entries with
  | [] => (Ok info, g)
  | (key, player) :: rest =>
      match GetNewWhiteCards rnd HandSize deck with
      | (Err err, deck) =>
          (Err ("Cannot create game: " +:+ err), set_CardDeck (Some deck) g)
      | (Ok cards, deck) =>
          let g := set_CardDeck (Some deck) g in
          let cardsCopy := cards in
          let info := set_PlayerHands (<[p_Id player := cardsCopy]> (ri_PlayerHands info)) info in
          let player := set_Hand (cardIndexSlice cards) player in
          let g := set_PlayersMap (<[key := player]> (g_PlayersMap g)) g in
          StartGame_deal (rand_drop HandSize rnd) deck rest info g
      end
  end.

(** [StartGame]. *)
Definition StartGame (rnd : Rand) (prio : UUID → nat) : M Game RoundInfo := λ g,
  if negb (bool_decide (g_GameState g = GameStateInLobby))
  then (Err ErrNotInLobby, g)
  else if Z.of_nat (length (g_Players g)) <? MinPlayers
  then (Err ErrNotEnoughPlayers, g)
  else
    match AccumalateCardPacks (gs_CardPacks (g_Settings g)) with
    | Err err => (Err ("Cannot create the game deck " +:+ err), g)
    | Ok deck =>
        let g := set_CardDeck (Some deck) g in
        match GetNewBlackCard (rand_head rnd) deck with
        | (Err _, deck) => (Err ErrNoBlackCard, set_CardDeck (Some deck) g)
        | (Ok blackCard, deck) =>
            let g := set_CardDeck (Some deck) g in
            let g := set_CurrentBlackCard (Some blackCard) g in
            let g := set_GameState GameStateWhiteCardsBeingSelected g in
            let g := set_CurrentRound (uint_succ (g_CurrentRound g)) g in
            let info := mkRoundInfo ∅ (g_CurrentBlackCard g)
                          (g_CurrentCardCzarId g) (g_CurrentRound g) in
            StartGame_deal (rand_tail rnd) deck
              (range_players prio (g_PlayersMap g)) info g
        end
    end.

Definition ErrSettingsNotInLobby : error :=
  "Settings can only be changed in the lobby".
Definition ErrInvalidNewSettings : error := "Cannot validate the new settings".

(** [Game.ChangeSettings]. *)
Definition ChangeSettings (newSettings : GameSettings) : M Game unit := λ g,
  if negb (bool_decide (g_GameState g = GameStateInLobby))
  then (Err ErrSettingsNotInLobby, g)
  else if negb (Validate newSettings) then (Err ErrInvalidNewSettings, g)
  else (Ok tt, set_Settings newSettings g).

(** *** The earlier revision of [StartGame]

    The sources hold an earlier revision of [game.go] as well.  Its
    [StartGame] makes the same tests and the same assignments in the same
    order; it returns only the error, builds no [RoundInfo], and words the
    error of the dealing loop without the colon. *)
Fixpoint StartGame_deal_v0 (rnd : Rand) (deck : CardDeck)
    (entries : list (UUID * Player)) : M Game unit :=
  λ g,
  match entries with
  | [] => (Ok tt, g)
  | (key, player) :: rest =>
      match GetNewWhiteCards rnd HandSize deck with
      | (Err err, deck) =>
          (Err ("Cannot create game " +:+ err), set_CardDeck (Some deck) g)
      | (Ok cards, deck) =>
          let g := set_CardDeck (Some deck) g in
          let player := set_Hand (cardIndexSlice cards) player in
          let g := set_PlayersMap (<[key := player]> (g_PlayersMap g)) g in
          StartGame_deal_v0 (rand_drop HandSize rnd) deck rest g
      end
  end.

Definition StartGame_v0 (rnd : Rand) (prio : UUID → nat) : M Game unit := λ g,
  if negb (bool_decide (g_GameState g = GameStateInLobby))
  then (Err ErrNotInLobby, g)
  else if Z.of_nat (length (g_Players g)) <? MinPlayers
  then (Err ErrNotEnoughPlayers, g)
  else
    match AccumalateCardPacks (gs_CardPacks (g_Settings g)) with
    | Err err => (Err ("Cannot create the game deck " +:+ err), g)
    | Ok deck =>
        let g := set_CardDeck (Some deck) g in
        match GetNewBlackCard (rand_head rnd) deck with
        | (Err _, deck) => (Err ErrNoBlackCard, set_CardDeck (Some deck) g)
        | (Ok blackCard, deck) =>
            let g := set_CardDeck (Some deck) g in
            let g := set_CurrentBlackCard (Some blackCard) g in
            let g := set_GameState GameStateWhiteCardsBeingSelected g in
            let g := set_CurrentRound (uint_succ (g_CurrentRound g)) g in
            StartGame_deal_v0 (rand_tail rnd) deck
              (range_players prio (g_PlayersMap g)) g
        end
    end.

(** ** Loops over maps *)

(** The entries of a Go map in the order a [range] loop visits them.  Go
    leaves the order open; [prio] ranks the keys and stands for the choice
    the runtime makes. *)
Definition key_le {K V} (prio : K → nat) (a b : K * V) : Prop :=
  (prio a.1 ≤ prio b.1)%nat.

#[global] Instance key_le_dec {K V} (prio : K → nat) (a b : K * V) :
  Decision (key_le prio a b).
Proof. unfold key_le. apply _. Defined.

Definition range_map `{Countable K} {V} (prio : K → nat) (m : gmap K V)
    : list (K * V) :=
  merge_sort (key_le prio) (map_to_list m).

(** ** The other methods of [Game] *)

Definition ErrNotSelecting : error :=
  "The game is not in the white card selection phase".

(** [Game.RoundInfo].  [prio] orders the loop over the player map and
    [cprio key] the loop over the hand of the player found under [key].
    The method changes nothing of the game. *)
Definition Game_RoundInfo (prio : UUID → nat) (cprio : UUID → Z → nat) (g : Game)
    : result RoundInfo :=
  if negb (bool_decide (g_GameState g = GameStateWhiteCardsBeingSelected))
  then Err ErrNotSelecting
  else
    let info := mkRoundInfo ∅ (g_CurrentBlackCard g) (g_CurrentCardCzarId g)
                  (g_CurrentRound g) in
    Ok (foldl (λ info entry,
                 let player := entry.2 in
                 let cards := (range_map (cprio entry.1) (p_Hand player)).*2 in
                 set_PlayerHands (<[p_Id player := cards]> (ri_PlayerHands info)) info)
          info (range_map prio (g_PlayersMap g))).

(** The two counters are Go [int]s; they count entries of a map and stay
    far below the point where an [int] wraps. *)
Record GameMetrics := mkGameMetrics {
  gm_PlayersConnected : Z;
  gm_Players : Z
}.

(** [Game.Metrics]. *)
Definition Metrics (prio : UUID → nat) (g : Game) : GameMetrics :=
  foldl (λ metrics entry,
           let player : Player := entry.2 in
           let metrics := mkGameMetrics (gm_PlayersConnected metrics)
                            (gm_Players metrics + 1) in
           if p_Connected player
           then mkGameMetrics (gm_PlayersConnected metrics + 1) (gm_Players metrics)
           else metrics)
    (mkGameMetrics 0 0) (range_map prio (g_PlayersMap g)).

(** ** The card catalog and the packs *)

Section catalog.
(** The text [%s] prints for a [uuid.UUID]. *)
Variable uuid_String : UUID → string.
(** The constructors of cards, which are not among the sources. *)
Variable NewWhiteCard : Z → string → WhiteCard.
Variable NewBlackCard : Z → string → Z → BlackCard.

(** [GetCardPacks]; [AllPacks] is the package variable of that name. *)
Fixpoint GetCardPacks (AllPacks : gmap UUID CardPack) (ids : list UUID)
    : result (list CardPack) :=
  match ids with
  | [] => Ok []
  | id :: ids =>
      match AllPacks !! id with
      | None => Err ("Cannot find card pack with ID " +:+ uuid_String id)
      | Some pack =>
          match GetCardPacks AllPacks ids with
          | Ok ret => Ok (pack :: ret)
          | Err err => Err err
          end
      end
  end.

Definition ErrWhiteCardNotExist : error := "White card does not exist".
Definition ErrBlackCardNotExist : error := "Black card does not exist".

(** [GetWhiteCard]; [AllWhiteCards] is the package variable of that name.
    The last case is not reached: the index is in range. *)
Definition GetWhiteCard (AllWhiteCards : list WhiteCard) (id : Z) : result WhiteCard :=
  if (id <? 0) || (id >=? Z.of_nat (length AllWhiteCards)) then Err ErrWhiteCardNotExist
  else match AllWhiteCards !! Z.to_nat id with
       | Some card => Ok card
       | None => Err ErrWhiteCardNotExist
       end.

(** [GetBlackCard]. *)
Definition GetBlackCard (AllBlackCards : list BlackCard) (id : Z) : result BlackCard :=
  if (id <? 0) || (id >=? Z.of_nat (length AllBlackCards)) then Err ErrBlackCardNotExist
  else match AllBlackCards !! Z.to_nat id with
       | Some card => Ok card
       | None => Err ErrBlackCardNotExist
       end.

(** The loop of [DefaultCardPack] over the entries of [AllPacks]. *)
Fixpoint DefaultCardPack_loop (entries : list (UUID * CardPack)) : option CardPack :=
  match entries with
  | [] => None
  | (_, packValue) :: rest =>
      if (5 <? cp_BlackCards packValue) && (50 <? cp_WhiteCards packValue)
      then Some packValue
      else DefaultCardPack_loop rest
  end.

(** [DefaultCardPack]; [None] is the nil it returns when no pack will do. *)
Definition DefaultCardPack (prio : UUID → nat) (AllPacks : gmap UUID CardPack)
    : option CardPack :=
  DefaultCardPack_loop (range_map prio AllPacks).

(** [DefaultGameSettings].  When [DefaultCardPack] returns nil the Go
    settings hold a nil pack, which [GameSettings] here cannot hold:
    [None] stands for these settings. *)
Definition DefaultGameSettings (prio : UUID → nat) (AllPacks : gmap UUID CardPack)
    : option GameSettings :=
  pack ← DefaultCardPack prio AllPacks;
  Some (mkGameSettings MaxRounds 10 "" 10 [pack]).

Record cahJsonBlackCard := mkCahJsonBlackCard {
  cbc_Text : string;
  cbc_Pick : Z
}.

Record cahJsonPack := mkCahJsonPack {
  cjp_Name : string;
  cjp_WhiteCardIndexes : list Z;
  cjp_BlackCardIndexes : list Z
}.

Record cahJson := mkCahJson {
  cj_WhiteCards : list string;
  cj_BlackCards : list cahJsonBlackCard;
  cj_Packs : list cahJsonPack
}.

(** The conversion [uint(x)] of an [int], on a 64-bit target. *)
Definition uint_of_int (x : Z) : Z := x `mod` 2 ^ 64.

(** [translateCahCards]: the values it leaves in [AllWhiteCards] and
    [AllBlackCards].  One loop runs in a goroutine of its own and the
    function waits for it; each loop writes one of the two variables only.
    The error it returns is always nil. *)
Definition translateCahCards (data : cahJson) : list WhiteCard * list BlackCard :=
  (imap (λ i cardText, NewWhiteCard (Z.of_nat i) cardText) (cj_WhiteCards data),
   imap (λ i blackCard,
           NewBlackCard (Z.of_nat i) (cbc_Text blackCard)
             (uint_of_int (cbc_Pick blackCard)))
     (cj_BlackCards data)).

End catalog.

End gameLogic.

(** * Package [gameRepo] *)

Module gameRepo.
Import gameLogic.

(** ** The game repository *)

(** [GameMap] holds pointers to games and a game is reached through the
    map only, so a method that mutates a game it looked up under [gameId]
    leaves the new value of the game under [gameId]. *)
Record GameRepo := mkGameRepo {
  gr_GameMap : gmap UUID Game;
  gr_GameAgeMap : gmap UUID Time
}.

Definition New : GameRepo := mkGameRepo ∅ ∅.

Definition ErrGameNotFound : error := "Cannot find game".
Definition ErrPlayerNotFound : error := "Cannot find player".
Definition ErrIncorrectPassword : error := "Incorrect password".
Definition ErrRepoInvalidSettings : error := "Invalid settings".

(** Runs a method of [Game] on the game stored under [gameId]. *)
Definition on_game {A} (gameId : UUID) (game : Game) (m : M Game A)
    : M GameRepo A := λ gr,
  let '(res, game) := m game in
  (res, mkGameRepo (<[gameId := game]> (gr_GameMap gr)) (gr_GameAgeMap gr)).

(** [GameRepo.CreateGame]; returns the game identifier and the owner's
    player identifier. *)
Definition CreateGame (hostId gameId : UUID) (now : Time)
    (gameSettings : GameSettings) (playerName : string)
    : M GameRepo (UUID * UUID) := λ gr,
  match NewGame hostId gameId now gameSettings playerName with
  | Err err => (Err err, gr)
  | Ok game =>
      let gid := g_Id game in
      let gr := mkGameRepo (<[gid := game]> (gr_GameMap gr)) (gr_GameAgeMap gr) in
      let gr := mkGameRepo (gr_GameMap gr)
                  (<[gid := g_CreationTime game]> (gr_GameAgeMap gr)) in
      (Ok (gid, g_GameOwnerId game), gr)
  end.

(** [GameRepo.RemoveGame]. *)
Definition RemoveGame (gameID : UUID) : M GameRepo unit := λ gr,
  match gr_GameMap gr !! gameID with
  | None => (Err ErrGameNotFound, gr)
  | Some _ =>
      let gr := mkGameRepo (delete gameID (gr_GameMap gr)) (gr_GameAgeMap gr) in
      let gr := mkGameRepo (gr_GameMap gr) (delete gameID (gr_GameAgeMap gr)) in
      (Ok tt, gr)
  end.

(** [GameRepo.PlayerLeaveGame]; [r] is what [rand.Intn] draws from. *)
Definition PlayerLeaveGame (r : nat) (gameId playerId : UUID)
    : M GameRepo PlayerRemovalResult := λ gr,
  match gr_GameMap gr !! gameId with
  | None => (Err ErrGameNotFound, gr)
  | Some game =>
      match on_game gameId game (RemovePlayer r playerId) gr with
      | (Err err, gr) => (Err err, gr)
      | (Ok res, gr) =>
          if (prr_PlayersLeft res =? 0)%nat then
            let gr := mkGameRepo (delete gameId (gr_GameMap gr)) (gr_GameAgeMap gr) in
            let gr := mkGameRepo (gr_GameMap gr) (delete gameId (gr_GameAgeMap gr)) in
            (Ok res, gr)
          else (Ok res, gr)
      end
  end.

(** The shared body of [DisconnectPlayer] and [ConnectPlayer]. *)
Definition set_player_connected (connected : bool) (playerId : UUID)
    : M Game unit := λ game,
  match g_PlayersMap game !! playerId with
  | None => (Err ErrPlayerNotFound, game)
  | Some player =>
      (Ok tt, set_PlayersMap (<[playerId := set_Connected connected player]>
                                (g_PlayersMap game)) game)
  end.

Definition DisconnectPlayer (gameId playerId : UUID) : M GameRepo unit := λ gr,
  match gr_GameMap gr !! gameId with
  | None => (Err ErrGameNotFound, gr)
  | Some game => on_game gameId game (set_player_connected false playerId) gr
  end.

Definition ConnectPlayer (gameId playerId : UUID) : M GameRepo unit := λ gr,
  match gr_GameMap gr !! gameId with
  | None => (Err ErrGameNotFound, gr)
  | Some game => on_game gameId game (set_player_connected true playerId) gr
  end.

(** [GameRepo.CreatePlayer]; [id] is the value of [uuid.New()]. *)
Definition CreatePlayer (id : UUID) (gameId : UUID) (playerName password : string)
    : M GameRepo UUID := λ gr,
  match gr_GameMap gr !! gameId with
  | None => (Err ErrGameNotFound, gr)
  | Some game =>
      if negb (bool_decide (gs_Password (g_Settings game) = password))
      then (Err ErrIncorrectPassword, gr)
      else on_game gameId game (AddPlayer id playerName) gr
  end.

(** [GameRepo.ChangeSettings]: after the lookup it takes the game's lock
    and assigns [game.Settings] itself. *)
Definition ChangeSettings (gameId : UUID) (settings : GameSettings)
    : M GameRepo unit := λ gr,
  if negb (Validate settings) then (Err ErrRepoInvalidSettings, gr)
  else
    match gr_GameMap gr !! gameId with
    | None => (Err ErrGameNotFound, gr)
    | Some game => on_game gameId game (modify (set_Settings settings)) gr
    end.

(** ** The reading methods of the repository *)

(** [GameRepo.GetGames]; [prio] orders the loop over the game map. *)
Definition GetGames (prio : UUID → nat) (gr : GameRepo) : list Game :=
  (range_map prio (gr_GameMap gr)).*2.

(** [GameRepo.GetGame]. *)
Definition GetGame (gameId : UUID) (gr : GameRepo) : result Game :=
  match gr_GameMap gr !! gameId with
  | None => Err ErrGameNotFound
  | Some game => Ok game
  end.

(** [GameRepo.GetPlayerName]. *)
Definition GetPlayerName (gameId playerId : UUID) (gr : GameRepo) : result string :=
  match gr_GameMap gr !! gameId with
  | None => Err ErrGameNotFound
  | Some game =>
      match g_PlayersMap game !! playerId with
      | None => Err ErrPlayerNotFound
      | Some player => Ok (p_Name player)
      end
  end.

Section join.
(** The text [%s] prints for a [uuid.UUID]. *)
Variable uuid_String : UUID → string.

(** [GameRepo.JoinGame]. *)
Definition JoinGame (gameId playerId : UUID) (password : string) (gr : GameRepo)
    : result unit :=
  match gr_GameMap gr !! gameId with
  | None => Err ("Cannot find game with id " +:+ uuid_String gameId)
  | Some game =>
      if negb (bool_decide (gs_Password (g_Settings game) = password))
      then Err ErrIncorrectPassword
      else
        match g_PlayersMap game !! playerId with
        | None =>
            Err ("Cannot find player with id " +:+ uuid_String playerId
                 +:+ " in game with id " +:+ uuid_String gameId)
        | Some _ => Ok tt
        end
  end.

End join.

End gameRepo.

(** * Statements *)

Import gameLogic gameRepo.

(** ** Runs of the repository *)

(** A call of one of the mutating methods of the repository, with what
    the runtime chose for it. *)
Inductive RepoOp :=
| OpCreateGame (hostId gameId : UUID) (now : Time)
    (gameSettings : GameSettings) (playerName : string)
| OpRemoveGame (gameID : UUID)
| OpPlayerLeaveGame (r : nat) (gameId playerId : UUID)
| OpDisconnectPlayer (gameId playerId : UUID)
| OpConnectPlayer (gameId playerId : UUID)
| OpCreatePlayer (id gameId : UUID) (playerName password : string)
| OpChangeSettings (gameId : UUID) (settings : GameSettings).

(** The repository after the call; the returned value is dropped. *)
Definition run_op (op : RepoOp) (gr : GameRepo) : GameRepo :=
  match op with
  | OpCreateGame hostId gameId now gs name =>
      (CreateGame hostId gameId now gs name gr).2
  | OpRemoveGame gameID => (RemoveGame gameID gr).2
  | OpPlayerLeaveGame r gameId playerId => (PlayerLeaveGame r gameId playerId gr).2
  | OpDisconnectPlayer gameId playerId => (DisconnectPlayer gameId playerId gr).2
  | OpConnectPlayer gameId playerId => (ConnectPlayer gameId playerId gr).2
  | OpCreatePlayer id gameId name password =>
      (CreatePlayer id gameId name password gr).2
  | OpChangeSettings gameId settings => (gameRepo.ChangeSettings gameId settings gr).2
  end.

(** The repositories a sequence of calls passes through, the starting one
    first. *)
Fixpoint run_trace (ops : list RepoOp) (gr : GameRepo) : list GameRepo :=
  gr :: match ops with
        | [] => []
        | op :: ops => run_trace ops (run_op op gr)
        end.

(** The invariant of the repository: the game map and the age map have
    the same keys. *)
Definition RepoInv (gr : GameRepo) : Prop :=
  dom (gr_GameMap gr) = dom (gr_GameAgeMap gr).

(** ** Definitions used to state the properties *)

(** The hand without the cards of a play, said directly: the entries of
    the hand whose key is not the identifier of a played card. *)
Definition hand_without (cards : list WhiteCard) (hand : gmap Z WhiteCard)
    : gmap Z WhiteCard :=
  filter (λ kv, kv.1 ∉ wc_Id <$> cards) hand.

(** The number of white and of black cards a list of packs contributes,
    a card counted once for each pack it is in. *)
Definition total_white (packs : list CardPack) : nat :=
  sum_list ((λ pack, length (cd_WhiteCards (cp_CardDeck pack))) <$> packs).
Definition total_black (packs : list CardPack) : nat :=
  sum_list ((λ pack, length (cd_BlackCards (cp_CardDeck pack))) <$> packs).

(** A draw from a deck, with what [math/rand] hands out for it. *)
Inductive DrawOp :=
| DrawBlack (r : nat)
| DrawWhite (rnd : Rand) (n : nat).

(** The life of a deck: the draws of [ops] made one after the other.
    [drawn] collects the cards of the draws that succeeded, in the order
    they were handed out; a failed draw hands out nothing and the run goes
    on with the deck the failed draw left. *)
Fixpoint run_draws (ops : list DrawOp) (drawn : list WhiteCard * list BlackCard)
    (deck : CardDeck) : (list WhiteCard * list BlackCard) * CardDeck :=
  match ops with
  | [] => (drawn, deck)
  | DrawBlack r :: ops =>
      match GetNewBlackCard r deck with
      | (Ok card, deck) => run_draws ops (drawn.1, drawn.2 ++ [card]) deck
      | (Err _, deck) => run_draws ops drawn deck
      end
  | DrawWhite rnd n :: ops =>
      match GetNewWhiteCards rnd n deck with
      | (Ok cards, deck) => run_draws ops (drawn.1 ++ cards, drawn.2) deck
      | (Err _, deck) => run_draws ops drawn deck
      end
  end.

(** A player's name has a length [NewPlayer] accepts. *)
Definition name_ok (p : Player) : Prop :=
  (MinPlayerNameLength ≤ String.length (p_Name p) ≤ MaxPlayerNameLength)%nat.

(** What the constructors and methods of [Game] keep true of a game: the
    settings are valid, every identifier in the join order is a key of the
    player map, at a player with an accepted name, and every key of the
    player map is in the join order. *)
Definition GameWF (g : Game) : Prop :=
  Validate (g_Settings g) = true ∧
  (∀ id, id ∈ g_Players g → ∃ p, g_PlayersMap g !! id = Some p ∧ name_ok p) ∧
  (∀ id, is_Some (g_PlayersMap g !! id) → id ∈ g_Players g).

(** The fields of a game that the dealing loop does not assign. *)
Definition same_outside_deal (g g' : Game) : Prop :=
  g_Id g' = g_Id g ∧ g_Players g' = g_Players g ∧
  g_CurrentCardCzarId g' = g_CurrentCardCzarId g ∧
  g_GameOwnerId g' = g_GameOwnerId g ∧ g_CurrentRound g' = g_CurrentRound g ∧
  g_Settings g' = g_Settings g ∧ g_CurrentBlackCard g' = g_CurrentBlackCard g ∧
  g_CreationTime g' = g_CreationTime g ∧ g_GameState g' = g_GameState g.

(** A hand of [n] cards with [n] different identifiers, each stored under
    its identifier. *)
Definition distinct_hand (n : nat) (hand : gmap Z WhiteCard) : Prop :=
  size hand = n ∧ ∀ k card, hand !! k = Some card → wc_Id card = k.

(** A player, and a game, with the hands emptied and the current plays
    dropped: two games are the same apart from hands and current plays
    when this makes them equal. *)
Definition hide_cards_player (p : Player) : Player :=
  set_CurrentPlay None (set_Hand ∅ p).
Definition hide_cards (g : Game) : Game :=
  set_PlayersMap (hide_cards_player <$> g_PlayersMap g) g.
Definition same_apart_from_cards (g1 g2 : Game) : Prop :=
  hide_cards g1 = hide_cards g2.

(** The ranking of the keys that a given list of entries spells out: the
    rank of a key is the position of its entry. *)
Definition rank_in (l : list (UUID * Player)) (k : UUID) : nat :=
  from_option fst 0%nat (list_find (λ e, e.1 = k) l).

(** *** Sample data *)

Definition sample_white (i : Z) : WhiteCard := mkWhiteCard i "A white card".
Definition sample_black (i : Z) : BlackCard := mkBlackCard i "A black card" 1.

(** A pack with the white cards [0..w) and the black cards [0..b). *)
Definition sample_pack (w b : Z) : CardPack :=
  mkCardPack 77 "Sample pack" w b
    (mkCardDeck (sample_white <$> seqZ 0 w) (sample_black <$> seqZ 0 b)).

(** A player holding the white cards 0 to 6 who has not played yet. *)
Definition dave : Player :=
  mkPlayer 1 "Dave" (cardIndexSlice (sample_white <$> seqZ 0 7)) None true 0.

Definition sample_settings (packs : list CardPack) : GameSettings :=
  mkGameSettings 10 10 "" 10 packs.

Definition sample_player (id : UUID) (name : string) : Player :=
  mkPlayer id name ∅ None true 0.

(** A lobby of three players, Dave being the owner, created at time 0. *)
Definition sample_lobby (packs : list CardPack) : Game :=
  mkGame 100%N [1%N; 2%N; 3%N]
    (<[3%N := sample_player 3 "Bob"]>
       (<[2%N := sample_player 2 "Alice"]>
          (<[1%N := sample_player 1 "Dave"]> ∅)))
    0%N 1%N 0 (sample_settings packs) None None 0 GameStateInLobby.

(** The lobby with a pack of ten white cards and one black card: too few
    white cards for three hands. *)
Definition short_lobby : Game := sample_lobby [sample_pack 10 1].

(** The lobby with a pack of sixty white and ten black cards. *)
Definition full_lobby : Game := sample_lobby [sample_pack 60 10].

(** The same lobby, but Dave holds seven cards and has a play recorded. *)
Definition full_lobby_with_cards : Game :=
  set_PlayersMap
    (<[1%N := set_CurrentPlay (Some [sample_white 9]) dave]> (g_PlayersMap full_lobby))
    full_lobby.

(** The sample game once started, and a repository that holds it. *)
Definition started_game : Game := (StartGame (λ i, i) N.to_nat full_lobby).2.

Definition started_repo : GameRepo :=
  mkGameRepo {[100%N := started_game]} {[100%N := 0]}.

(** Valid settings that differ from the sample settings. *)
Definition other_settings : GameSettings :=
  mkGameSettings 3 5 "secret" 4 [sample_pack 60 10].

(** ** Definitions used to state the further properties *)

(** Every player is stored under its own identifier. *)
Definition GameIds (g : Game) : Prop :=
  ∀ k p, g_PlayersMap g !! k = Some p → p_Id p = k.

(** No two players of the game have the same name. *)
Definition names_unique (g : Game) : Prop :=
  ∀ k1 k2 p1 p2,
    g_PlayersMap g !! k1 = Some p1 → g_PlayersMap g !! k2 = Some p2 →
    p_Name p1 = p_Name p2 → k1 = k2.

(** A call of one of the mutating methods of a game, with what the
    runtime chose for it. *)
Inductive GameOp :=
| GAddPlayer (id : UUID) (playerName : string)
| GRemovePlayer (r : nat) (playerToRemoveId : UUID)
| GStartGame (rnd : Rand) (prio : UUID → nat)
| GChangeSettings (newSettings : GameSettings).

(** The game after the call; the returned value is dropped. *)
Definition run_game_op (g : Game) (op : GameOp) : Game :=
  match op with
  | GAddPlayer id playerName => (AddPlayer id playerName g).2
  | GRemovePlayer r playerToRemoveId => (RemovePlayer r playerToRemoveId g).2
  | GStartGame rnd prio => (StartGame rnd prio g).2
  | GChangeSettings newSettings => (gameLogic.ChangeSettings newSettings g).2
  end.

Definition run_game_ops (ops : list GameOp) (g : Game) : Game :=
  foldl run_game_op g ops.

Definition is_GChangeSettings (op : GameOp) : Prop :=
  match op with GChangeSettings _ => True | _ => False end.

(** The connected players of a player map. *)
Definition connected_players (m : gmap UUID Player) : gmap UUID Player :=
  filter (λ kv, p_Connected kv.2 = true) m.

(** The repository stores every game under the game's own identifier,
    with the game's creation time in the age map. *)
Definition RepoKeys (gr : GameRepo) : Prop :=
  ∀ gid game, gr_GameMap gr !! gid = Some game →
              g_Id game = gid ∧ gr_GameAgeMap gr !! gid = Some (g_CreationTime game).

(** Every game of the repository has a player, and its owner is one of
    its players. *)
Definition RepoOwners (gr : GameRepo) : Prop :=
  ∀ gid game, gr_GameMap gr !! gid = Some game →
              GameWF game ∧ g_GameOwnerId game ∈ g_Players game.

(** What a method keeps of a game of the repository, for the two
    properties above to stay true. *)
Definition keeps_identity (game game' : Game) : Prop :=
  g_Id game' = g_Id game ∧ g_CreationTime game' = g_CreationTime game ∧
  GameWF game' ∧ g_GameOwnerId game' ∈ g_Players game'.

(** The error a call returns, if it returns one. *)
Definition err_of {A} (r : result A) : option error :=
  match r with Ok _ => None | Err e => Some e end.

Definition op_error (op : RepoOp) (gr : GameRepo) : option error :=
  match op with
  | OpCreateGame hostId gameId now gs name =>
      err_of (CreateGame hostId gameId now gs name gr).1
  | OpRemoveGame gameID => err_of (RemoveGame gameID gr).1
  | OpPlayerLeaveGame r gameId playerId =>
      err_of (PlayerLeaveGame r gameId playerId gr).1
  | OpDisconnectPlayer gameId playerId => err_of (DisconnectPlayer gameId playerId gr).1
  | OpConnectPlayer gameId playerId => err_of (ConnectPlayer gameId playerId gr).1
  | OpCreatePlayer id gameId name password =>
      err_of (CreatePlayer id gameId name password gr).1
  | OpChangeSettings gameId settings =>
      err_of (gameRepo.ChangeSettings gameId settings gr).1
  end.

(** The game a call is about. *)
Definition op_target (op : RepoOp) : UUID :=
  match op with
  | OpCreateGame _ gameId _ _ _ => gameId
  | OpRemoveGame gameID => gameID
  | OpPlayerLeaveGame _ gameId _ => gameId
  | OpDisconnectPlayer gameId _ => gameId
  | OpConnectPlayer gameId _ => gameId
  | OpCreatePlayer _ gameId _ _ => gameId
  | OpChangeSettings gameId _ => gameId
  end.

(** Every method of the repository answers that it cannot find the game,
    and changes nothing. *)
Definition game_unknown (uuid_String : UUID → string) (gameId : UUID)
    (gr : GameRepo) : Prop :=
  GetGame gameId gr = Err ErrGameNotFound ∧
  (∀ playerId, GetPlayerName gameId playerId gr = Err ErrGameNotFound) ∧
  (∀ playerId password,
     JoinGame uuid_String gameId playerId password gr
     = Err ("Cannot find game with id " +:+ uuid_String gameId)) ∧
  RemoveGame gameId gr = (Err ErrGameNotFound, gr) ∧
  (∀ r playerId, PlayerLeaveGame r gameId playerId gr = (Err ErrGameNotFound, gr)) ∧
  (∀ playerId, DisconnectPlayer gameId playerId gr = (Err ErrGameNotFound, gr)) ∧
  (∀ playerId, ConnectPlayer gameId playerId gr = (Err ErrGameNotFound, gr)) ∧
  (∀ id name password,
     CreatePlayer id gameId name password gr = (Err ErrGameNotFound, gr)) ∧
  (∀ settings, Validate settings = true →
     gameRepo.ChangeSettings gameId settings gr = (Err ErrGameNotFound, gr)).

(** A repository with the game 100 that Dave created, then with Alice in
    it, then after Dave left. *)
Definition sample_repo : GameRepo :=
  run_op (OpCreateGame 1 100 0 (sample_settings [sample_pack 60 10]) "Dave") New.
Definition sample_repo_joined : GameRepo :=
  run_op (OpCreatePlayer 2 100 "Alice" "") sample_repo.
Definition sample_repo_left : GameRepo :=
  run_op (OpPlayerLeaveGame 0 100 1) sample_repo_joined.

(** The text of an identifier, for the examples. *)
Definition sample_uuid_String (id : UUID) : string := "uuid".

(** The identifiers of the white cards of a deck. *)
Abbreviation white_ids deck :=
  (list_to_set (wc_Id <$> cd_WhiteCards deck) : gset Z).

(** * Properties *)

(** ** Player: playing cards and finishing a round *)

Section player.
Implicit Types (p : Player) (cards : list WhiteCard) (card : WhiteCard).

Lemma hasCard_true p card :
  hasCard p card = true ↔ is_Some (p_Hand p !! wc_Id card).
Proof. unfold hasCard. by rewrite bool_decide_eq_true. Qed.

(** What the validating loop answers, for any set of identifiers already
    seen. *)
Lemma PlayCard_check_None p seen cards :
  PlayCard_check p seen cards = None ↔
  NoDup (wc_Id <$> cards) ∧
  ∀ card, card ∈ cards → seen !! wc_Id card = None ∧ hasCard p card = true.
Proof.
  revert seen. induction cards as [|c cards IH]; intros seen; simpl.
  - split; [intros _; split; [constructor | by intros ? ?%elem_of_nil] | done].
  - destruct (seen !! wc_Id c) eqn:Hseen.
    + split; [done | intros [_ H]].
      destruct (H c) as [H1 _]; [left | congruence].
    + destruct (hasCard p c) eqn:Hhas; simpl.
      * rewrite IH, NoDup_cons. split.
        -- intros [Hnd H]. split; [split; [|done] |].
           ++ intros [c' [Hid Hc']]%list_elem_of_fmap.
              destruct (H c' Hc') as [Hs _]. rewrite <- Hid in Hs.
              by rewrite lookup_insert_eq in Hs.
           ++ intros c' [->|Hc']%elem_of_cons; [done |].
              destruct (H c' Hc') as [Hs Hh]. split; [|done].
              rewrite lookup_insert in Hs. by case_decide.
        -- intros [[Hnin Hnd] H]. split; [done |].
           intros c' Hc'. destruct (H c') as [Hs Hh]; [by right |].
           split; [|done]. rewrite lookup_insert_ne; [done |].
           intros Heq. apply Hnin. rewrite Heq. by apply list_elem_of_fmap_2.
      * split; [done | intros [_ H]].
        destruct (H c) as [_ H2]; [left | congruence].
Qed.

Lemma PlayCard_check_errors p seen cards e :
  PlayCard_check p seen cards = Some e →
  e = ErrDuplicateInPlay ∨ e = ErrCardNotInHand.
Proof.
  revert seen. induction cards as [|c cards IH]; intros seen; simpl; [done |].
  destruct (seen !! wc_Id c); [intros [= <-]; by left |].
  destruct (hasCard p c); simpl; [apply IH | intros [= <-]; by right].
Qed.

Lemma PlayCard_check_all_in_hand p seen cards e :
  (∀ card, card ∈ cards → hasCard p card = true) →
  PlayCard_check p seen cards = Some e → e = ErrDuplicateInPlay.
Proof.
  revert seen. induction cards as [|c cards IH]; intros seen Hall; simpl; [done |].
  destruct (seen !! wc_Id c); [by intros [= <-] |].
  rewrite (Hall c) by left. simpl. apply IH. intros c' Hc'. apply Hall. by right.
Qed.

Lemma PlayCard_check_no_duplicate p seen cards e :
  NoDup (wc_Id <$> cards) →
  (∀ card, card ∈ cards → seen !! wc_Id card = None) →
  PlayCard_check p seen cards = Some e → e = ErrCardNotInHand.
Proof.
  revert seen. induction cards as [|c cards IH]; intros seen Hnd Hseen; simpl;
    [done |].
  rewrite (Hseen c) by left.
  destruct (hasCard p c); simpl; [| by intros [= <-]].
  apply NoDup_cons in Hnd as [Hnin Hnd]. apply IH; [done |].
  intros c' Hc'. rewrite lookup_insert_ne; [apply Hseen; by right |].
  intros Heq. apply Hnin. rewrite Heq. by apply list_elem_of_fmap_2.
Qed.

Lemma PlayCard_remove_Hand cards p :
  PlayCard_remove cards p =
  set_Hand (foldl (λ h card, delete (wc_Id card) h) (p_Hand p) cards) p.
Proof.
  unfold PlayCard_remove. revert p.
  induction cards as [|c cards IH]; intros p; simpl; [by destruct p |].
  by rewrite IH.
Qed.

Lemma lookup_foldl_delete cards (h : gmap Z WhiteCard) k :
  foldl (λ h card, delete (wc_Id card) h) h cards !! k =
  if decide (k ∈ wc_Id <$> cards) then None else h !! k.
Proof.
  revert h. induction cards as [|c cards IH]; intros h; cbn [foldl].
  - rewrite fmap_nil. case_decide; [set_solver | done].
  - rewrite IH, lookup_delete, fmap_cons.
    repeat case_decide; try done; set_solver.
Qed.

Lemma foldl_delete_hand_without cards (h : gmap Z WhiteCard) :
  foldl (λ h card, delete (wc_Id card) h) h cards = hand_without cards h.
Proof.
  apply map_eq. intros k. rewrite lookup_foldl_delete. unfold hand_without.
  apply option_eq. intros v. rewrite map_lookup_filter_Some. simpl.
  case_decide; naive_solver.
Qed.

(** The three ways [PlayCard] ends when it is given a slice that is not
    nil. *)
Lemma PlayCard_Some cards p :
  PlayCard (Some cards) p =
  match p_CurrentPlay p with
  | Some _ => (Err ErrAlreadyPlayed, p)
  | None =>
      match PlayCard_check p ∅ cards with
      | Some e => (Err e, p)
      | None =>
          (Ok tt, set_Hand (hand_without cards (p_Hand p))
                    (set_CurrentPlay (Some cards) p))
      end
  end.
Proof.
  unfold PlayCard, bind, get, fail, modify.
  destruct (p_CurrentPlay p); [done |].
  destruct (PlayCard_check p ∅ cards); [done |].
  by rewrite PlayCard_remove_Hand, <- foldl_delete_hand_without.
Qed.

Lemma PlayCard_Ok_inv cards p p' :
  PlayCard (Some cards) p = (Ok tt, p') →
  p_CurrentPlay p = None ∧
  PlayCard_check p ∅ cards = None ∧
  p' = set_Hand (hand_without cards (p_Hand p)) (set_CurrentPlay (Some cards) p).
Proof.
  rewrite PlayCard_Some.
  destruct (p_CurrentPlay p); [done |].
  destruct (PlayCard_check p ∅ cards); [done |]. by intros [= <-].
Qed.
Lemma PlayCard_check_Hand p q seen cards :
  p_Hand p = p_Hand q → PlayCard_check p seen cards = PlayCard_check q seen cards.
Proof.
  intros Hh. revert seen. induction cards as [|c cards IH]; intros seen; simpl;
    [done |].
  unfold hasCard. rewrite Hh. destruct (seen !! wc_Id c); [done |].
  by destruct (negb _).
Qed.

Lemma elements_of_alloc (h : gmap loc (list WhiteCard)) s :
  elements_of (<[fresh (dom h) := elements_of h s]> h) s = elements_of h s.
Proof.
  unfold elements_of. destruct (decide (fresh (dom h) = s)) as [<- | Hne].
  - by rewrite lookup_insert_eq.
  - by rewrite lookup_insert_ne.
Qed.

(** [PlayCard_ref] is [PlayCard] once the slices are read by value. *)
Lemma PlayCard_ref_by_value (h : gmap loc (list WhiteCard)) pr ocards r h' pr' :
  PlayCard_ref ocards (h, pr) = (r, (h', pr')) →
  PlayCard (elements_of h <$> ocards) (by_value h pr) = (r, by_value h' pr').
Proof.
  intros H. destruct ocards as [l|]; [| by injection H as <- <- <-].
  change (elements_of h <$> Some l) with (Some (elements_of h l)).
  rewrite PlayCard_Some. unfold by_value at 1 2 3. simpl in *.
  destruct (pr_CurrentPlay pr) as [cp|] eqn:Hcp; simpl.
  { injection H as <- <- <-. unfold by_value. by rewrite Hcp. }
  rewrite (PlayCard_check_Hand _ (pr_base pr)) by done.
  destruct (PlayCard_check (pr_base pr) ∅ (elements_of h l)) eqn:Hc.
  { injection H as <- <- <-. unfold by_value. by rewrite Hcp. }
  injection H as <- <- <-. f_equal. unfold by_value. simpl.
  rewrite elements_of_alloc, PlayCard_remove_Hand, foldl_delete_hand_without.
  unfold elements_of at 4. by rewrite lookup_insert_eq.
Qed.

(** The array the player records is not the array of the caller: what
    the caller stores in its own array after the call is not seen in the
    recorded play. *)
Lemma PlayCard_ref_copy (h : gmap loc (list WhiteCard)) pr l h' pr' :
  is_Some (h !! l) →
  PlayCard_ref (Some l) (h, pr) = (Ok tt, (h', pr')) →
  pr_CurrentPlay pr' ≠ Some l ∧
  ∀ v, by_value (<[l := v]> h') pr' = by_value h' pr'.
Proof.
  intros Hl. simpl. destruct (pr_CurrentPlay pr); [done |].
  destruct (PlayCard_check _ _ _); [done |]. intros [= <- <-]. simpl.
  assert (fresh (dom h) ≠ l) as Hne.
  { intros <-. apply (is_fresh (dom h)). by apply elem_of_dom. }
  split; [congruence |]. intros v. unfold by_value. simpl. f_equal. f_equal.
  unfold elements_of. by rewrite lookup_insert_ne.
Qed.
End player.

Section player_claims.
Implicit Types (p : Player) (cards : list WhiteCard) (card : WhiteCard).

Lemma AddCardToHand_CurrentPlay card p :
  p_CurrentPlay (AddCardToHand card p).2 = p_CurrentPlay p.
Proof.
  unfold AddCardToHand, bind, get, fail, modify. by destruct (hasCard p card).
Qed.

(** C3, as the code has it.  [PlayCard] fails with "Cannot play nil
    cards" when [cards] is nil, and with "Cards have already been played"
    when [cards] is not nil and a current play exists.  Otherwise the
    cards are checked one after the other, each first for an identifier
    that occurred before and then for membership of the hand: the call
    fails with "Card is in your play more than once" when an identifier
    occurs twice and all cards are in the hand, with "Cannot find the
    card in the hand" when no identifier occurs twice and some card is
    not in the hand, and with one of the two when both are the case.  In
    every failing case the player is as before.  When no identifier
    occurs twice and all cards are in the hand, an empty [cards]
    included, the call succeeds: the current play is the submitted
    cards, the hand is the old hand without them, the other fields are
    as before, and adding a card to the hand afterwards does not change
    the recorded play.  With slices as references into a store of
    arrays, the array of the recorded play is not the array of the
    caller, so a later store into the caller's array does not change the
    recorded play either. *)
Theorem PlayCard_outcomes p :
  PlayCard None p = (Err ErrNilCards, p) ∧
  (∀ cards,
    (is_Some (p_CurrentPlay p) →
     PlayCard (Some cards) p = (Err ErrAlreadyPlayed, p)) ∧
    (p_CurrentPlay p = None →
     ((∀ card, card ∈ cards → hasCard p card = true) →
      ¬ NoDup (wc_Id <$> cards) →
      PlayCard (Some cards) p = (Err ErrDuplicateInPlay, p)) ∧
     (NoDup (wc_Id <$> cards) →
      (∃ card, card ∈ cards ∧ hasCard p card = false) →
      PlayCard (Some cards) p = (Err ErrCardNotInHand, p)) ∧
     (¬ NoDup (wc_Id <$> cards) ∨
      (∃ card, card ∈ cards ∧ hasCard p card = false) →
      PlayCard (Some cards) p = (Err ErrDuplicateInPlay, p) ∨
      PlayCard (Some cards) p = (Err ErrCardNotInHand, p)) ∧
     (NoDup (wc_Id <$> cards) →
      (∀ card, card ∈ cards → hasCard p card = true) →
      ∃ p', PlayCard (Some cards) p = (Ok tt, p') ∧
            p_CurrentPlay p' = Some cards ∧
            p_Hand p' = hand_without cards (p_Hand p) ∧
            p_Id p' = p_Id p ∧ p_Name p' = p_Name p ∧
            p_Connected p' = p_Connected p ∧ p_Points p' = p_Points p ∧
            ∀ card, p_CurrentPlay (AddCardToHand card p').2 = Some cards))) ∧
  (∀ (h : gmap loc (list WhiteCard)) pr l h' pr',
     by_value h pr = p → is_Some (h !! l) →
     PlayCard_ref (Some l) (h, pr) = (Ok tt, (h', pr')) →
     PlayCard (Some (elements_of h l)) p = (Ok tt, by_value h' pr') ∧
     pr_CurrentPlay pr' ≠ Some l ∧
     ∀ v, by_value (<[l := v]> h') pr' = by_value h' pr').
Proof.
  split; [done |]. split; [| intros h pr l h' pr' <- Hl Hrun; split;
    [by apply (PlayCard_ref_by_value h pr (Some l)) | by apply (PlayCard_ref_copy h pr l h' pr')]].
  intros cards. rewrite PlayCard_Some. split.
  { by intros [? ->]. }
  intros ->.
  assert (Hfail : ¬ NoDup (wc_Id <$> cards) ∨
                  (∃ card, card ∈ cards ∧ hasCard p card = false) →
                  ∃ e, PlayCard_check p ∅ cards = Some e).
  { intros Hbad. destruct (PlayCard_check p ∅ cards) eqn:Hc; [by eexists |].
    apply PlayCard_check_None in Hc as [Hnd Hall].
    destruct Hbad as [? | (c & Hc & Hno)]; [done |].
    destruct (Hall c Hc) as [_ ?]; congruence. }
  repeat split.
  - intros Hall Hdup. destruct Hfail as [e He]; [by left |].
    rewrite He. by rewrite (PlayCard_check_all_in_hand _ _ _ _ Hall He).
  - intros Hnd Hmiss. destruct Hfail as [e He]; [by right |].
    rewrite He. by rewrite (PlayCard_check_no_duplicate _ _ _ _ Hnd (λ _ _, lookup_empty _) He).
  - intros Hbad. destruct (Hfail Hbad) as [e He]. rewrite He.
    destruct (PlayCard_check_errors _ _ _ _ He) as [-> | ->]; [by left | by right].
  - intros Hnd Hall.
    assert (PlayCard_check p ∅ cards = None) as ->.
    { apply PlayCard_check_None. split; [done |]. intros c Hc.
      split; [apply lookup_empty | by apply Hall]. }
    eexists. split; [done |]. repeat split.
    intros card. by rewrite AddCardToHand_CurrentPlay.
Qed.

Lemma PlayCard_outcomes_witness :
  ∃ p', PlayCard (Some [sample_white 2; sample_white 5]) dave = (Ok tt, p') ∧
        p_CurrentPlay p' = Some [sample_white 2; sample_white 5] ∧
        size (p_Hand p') = 5%nat.
Proof.
  destruct (PlayCard_outcomes dave) as (_ & H & _).
  destruct (H [sample_white 2; sample_white 5]) as [_ H'].
  destruct (H' eq_refl) as (_ & _ & _ & Hok).
  destruct Hok as (p' & Hp' & Hplay & Hhand & _).
  - vm_compute. repeat constructor; set_solver.
  - intros c Hc. apply hasCard_true.
    apply elem_of_cons in Hc as [-> | Hc]; [by eexists |].
    apply elem_of_cons in Hc as [-> | Hc]; [by eexists |].
    by apply elem_of_nil in Hc.
  - exists p'. split; [done |]. split; [done |].
    rewrite Hhand. vm_compute. reflexivity.
Defined.

(** C3, as the claim has it, is not what the code does.  A submission
    that is empty but not nil is accepted, and the empty play is
    recorded.  And which of the two errors of the loop is returned
    depends on which card comes first: a card that is absent from the
    hand and occurs twice is reported as absent, while a repeated card of
    the hand followed by an absent card is reported as repeated. *)
Lemma PlayCard_counterexamples :
  PlayCard (Some []) dave = (Ok tt, set_CurrentPlay (Some []) dave) ∧
  ¬ (∀ p (ocards : option (list WhiteCard)),
       ocards = None ∨ ocards = Some [] → is_Err (PlayCard ocards p).1) ∧
  PlayCard (Some [sample_white 9; sample_white 9]) dave
    = (Err ErrCardNotInHand, dave) ∧
  PlayCard (Some [sample_white 2; sample_white 2; sample_white 9]) dave
    = (Err ErrDuplicateInPlay, dave).
Proof.
  assert (H : PlayCard (Some []) dave = (Ok tt, set_CurrentPlay (Some []) dave))
    by (vm_compute; reflexivity).
  split; [done |]. split; [| split; vm_compute; reflexivity].
  intros Hclaim.
  destruct (Hclaim dave (Some [])) as [e He]; [by right |].
  rewrite H in He. discriminate.
Qed.

(** C9.  When [PlayCard] returns an error, the player is what it was
    before the call: the same hand, the same current play (so a play
    that was absent is still absent), and the same other fields. *)
Theorem PlayCard_error_leaves_player (ocards : option (list WhiteCard)) p e p' :
  PlayCard ocards p = (Err e, p') →
  p' = p ∧ p_Hand p' = p_Hand p ∧ p_CurrentPlay p' = p_CurrentPlay p ∧
  (p_CurrentPlay p = None → p_CurrentPlay p' = None).
Proof.
  intros H. assert (p' = p) as ->; [| by repeat split].
  destruct ocards as [cards|]; [| by injection H].
  rewrite PlayCard_Some in H.
  destruct (p_CurrentPlay p); [by injection H |].
  destruct (PlayCard_check p ∅ cards); [by injection H | done].
Qed.

Lemma PlayCard_error_leaves_player_witness :
  ∃ e p', PlayCard (Some [sample_white 2; sample_white 9]) dave = (Err e, p') ∧
          p' = dave ∧ p_Hand p' = p_Hand dave.
Proof.
  exists ErrCardNotInHand, dave.
  assert (H : PlayCard (Some [sample_white 2; sample_white 9]) dave
              = (Err ErrCardNotInHand, dave)) by (vm_compute; reflexivity).
  split; [exact H |].
  destruct (PlayCard_error_leaves_player _ _ _ _ H) as (? & ? & _). by split.
Defined.

(** C8.  After a successful [PlayCard], [FinaliseRound] leaves the hand
    as the play left it, which is the hand before the play without the
    played cards, and sets the current play to nil; the points stay.  A
    second [FinaliseRound] changes nothing.  [FinaliseRound] has no
    error to return. *)
Theorem PlayCard_then_FinaliseRound (ocards : option (list WhiteCard)) p p1 :
  PlayCard ocards p = (Ok tt, p1) →
  ∃ cards, ocards = Some cards ∧
    p_Hand (FinaliseRound p1) = p_Hand p1 ∧
    p_Hand (FinaliseRound p1) = hand_without cards (p_Hand p) ∧
    p_CurrentPlay (FinaliseRound p1) = None ∧
    p_Points (FinaliseRound p1) = p_Points p ∧
    FinaliseRound (FinaliseRound p1) = FinaliseRound p1.
Proof.
  destruct ocards as [cards|]; [| discriminate].
  intros (_ & _ & ->)%PlayCard_Ok_inv. exists cards. by repeat split.
Qed.

Lemma PlayCard_then_FinaliseRound_witness :
  ∃ p1, PlayCard (Some [sample_white 2; sample_white 5]) dave = (Ok tt, p1) ∧
        p_CurrentPlay (FinaliseRound p1) = None ∧
        CardsInHand (FinaliseRound p1) = 5%nat ∧
        FinaliseRound (FinaliseRound p1) = FinaliseRound p1.
Proof.
  destruct (PlayCard (Some [sample_white 2; sample_white 5]) dave) as [r p1] eqn:H.
  assert (r = Ok tt) as -> by (by vm_compute in H; injection H as <- _).
  exists p1. split; [done |].
  destruct (PlayCard_then_FinaliseRound _ _ _ H) as (cs & [= <-] & _ & Hh & Hp & _ & Hi).
  split; [done |]. split; [| done].
  unfold CardsInHand. rewrite Hh. vm_compute. reflexivity.
Defined.
End player_claims.

(** ** Decks: drawing without repetition *)

Section deck.
Context {A : Type} (id : A → Z).
Implicit Types (pool cards : list A).

Lemma merge_pool_spec (seen : gset Z) pool :
  NoDup (id <$> merge_pool id seen pool) ∧
  (∀ x, x ∈ merge_pool id seen pool → x ∈ pool ∧ id x ∉ seen) ∧
  (length (merge_pool id seen pool) ≤ length pool)%nat.
Proof.
  revert seen. induction pool as [|x pool IH]; intros seen; simpl.
  - split; [constructor |]. split; [by intros ? ?%elem_of_nil | done].
  - destruct (IH seen) as (IH1 & IH2 & IH3).
    destruct (IH ({[id x]} ∪ seen)) as (IH1' & IH2' & IH3').
    case_decide as Hseen.
    + split; [done |]. split; [| lia].
      intros y Hy. destruct (IH2 y Hy). split; [by right | done].
    + rewrite fmap_cons, NoDup_cons. split; [split; [| done] |].
      * intros [y [Hid Hy]]%list_elem_of_fmap.
        destruct (IH2' y Hy) as [_ Hn]. set_solver.
      * split; [| simpl; lia].
        intros y [-> | Hy]%elem_of_cons; [split; [by left | done] |].
        destruct (IH2' y Hy) as [? Hn]. split; [by right | set_solver].
Qed.

Lemma draw_one_Some r pool card pool' :
  draw_one r pool = Some (card, pool') → pool ≡ₚ card :: pool'.
Proof.
  unfold draw_one. destruct pool as [|c0 pool0] eqn:Hpool; [done |].
  rewrite <- Hpool. intros [= <- <-].
  assert (Intn r (length pool) < length pool)%nat as Hlt.
  { unfold Intn. apply Nat.mod_upper_bound. by rewrite Hpool. }
  destruct (lookup_lt_is_Some_2 _ _ Hlt) as [c Hc].
  rewrite Hc. simpl. by apply delete_Permutation.
Qed.

Lemma draw_one_None r pool : draw_one r pool = None ↔ pool = [].
Proof. by destruct pool. Qed.

(** [draw_many] splits the pool into the cards drawn and the cards
    left, and draws [n] cards when the pool has that many. *)
Lemma draw_many_spec rnd n pool cards pool' :
  draw_many rnd n pool = (cards, pool') →
  pool ≡ₚ cards ++ pool' ∧ length cards = (n `min` length pool)%nat.
Proof.
  revert rnd pool cards pool'.
  induction n as [|n IH]; intros rnd pool cards pool'; simpl.
  - intros [= <- <-]. split; [done | done].
  - destruct (draw_one (rand_head rnd) pool) as [[c pool1]|] eqn:Hd.
    + destruct (draw_many (rand_tail rnd) n pool1) as [cs pool2] eqn:Hm.
      intros [= <- <-]. apply IH in Hm as [Hp Hl].
      apply draw_one_Some in Hd. split.
      * by rewrite Hd, Hp.
      * rewrite Hd. simpl. by rewrite Hl.
    + intros [= <- <-]. apply draw_one_None in Hd as ->. done.
Qed.
End deck.

Section deck_ops.
Implicit Types (deck : CardDeck).

Lemma GetNewWhiteCards_Exhausted rnd n deck :
  (length (cd_WhiteCards deck) < n)%nat →
  GetNewWhiteCards rnd n deck = (Err ErrExhausted, deck).
Proof.
  intros H. unfold GetNewWhiteCards.
  by rewrite (proj2 (Nat.ltb_lt _ _) H).
Qed.

Lemma GetNewWhiteCards_Ok rnd n deck :
  (n ≤ length (cd_WhiteCards deck))%nat →
  ∃ cards deck',
    GetNewWhiteCards rnd n deck = (Ok cards, deck') ∧
    length cards = n ∧
    cd_WhiteCards deck ≡ₚ cards ++ cd_WhiteCards deck' ∧
    cd_BlackCards deck' = cd_BlackCards deck.
Proof.
  intros H. unfold GetNewWhiteCards.
  rewrite (proj2 (Nat.ltb_ge _ _) H).
  destruct (draw_many rnd n (cd_WhiteCards deck)) as [cards pool] eqn:Hd.
  apply draw_many_spec in Hd as [Hp Hl].
  exists cards, (mkCardDeck pool (cd_BlackCards deck)).
  repeat split; [lia | done].
Qed.

Lemma GetNewWhiteCards_inv rnd n deck r deck' :
  GetNewWhiteCards rnd n deck = (r, deck') →
  (r = Err ErrExhausted ∧ deck' = deck ∧ (length (cd_WhiteCards deck) < n)%nat) ∨
  (∃ cards, r = Ok cards ∧ length cards = n ∧
            cd_WhiteCards deck ≡ₚ cards ++ cd_WhiteCards deck' ∧
            cd_BlackCards deck' = cd_BlackCards deck).
Proof.
  intros H. destruct (decide (length (cd_WhiteCards deck) < n)%nat) as [Hlt|Hge].
  - rewrite GetNewWhiteCards_Exhausted in H by done. injection H as <- <-. by left.
  - destruct (GetNewWhiteCards_Ok rnd n deck) as (cards & d & Heq & ?); [lia |].
    rewrite Heq in H. injection H as <- <-. right. by exists cards.
Qed.

Lemma GetNewBlackCard_inv r deck res deck' :
  GetNewBlackCard r deck = (res, deck') →
  (res = Err ErrExhausted ∧ deck' = deck ∧ cd_BlackCards deck = []) ∨
  (∃ card, res = Ok card ∧
           cd_BlackCards deck ≡ₚ card :: cd_BlackCards deck' ∧
           cd_WhiteCards deck' = cd_WhiteCards deck).
Proof.
  unfold GetNewBlackCard.
  destruct (draw_one r (cd_BlackCards deck)) as [[c pool]|] eqn:Hd.
  - intros [= <- <-]. right. exists c. split; [done |].
    split; [by apply draw_one_Some in Hd | done].
  - intros [= <- <-]. left. by apply draw_one_None in Hd.
Qed.

(** Along a run of draws, the cards handed out so far together with the
    cards left in the pools are the cards the run started with. *)
Lemma run_draws_split ops drawn deck drawn' deck' :
  run_draws ops drawn deck = (drawn', deck') →
  drawn.1 ++ cd_WhiteCards deck ≡ₚ drawn'.1 ++ cd_WhiteCards deck' ∧
  drawn.2 ++ cd_BlackCards deck ≡ₚ drawn'.2 ++ cd_BlackCards deck'.
Proof.
  revert drawn deck.
  induction ops as [|[r | rnd n] ops IH]; intros drawn deck; simpl.
  - by intros [= <- <-].
  - destruct (GetNewBlackCard r deck) as [res d] eqn:Hb.
    apply GetNewBlackCard_inv in Hb as [(-> & -> & _) | (c & -> & Hp & Hw)].
    + apply IH.
    + intros [H1 H2]%IH. simpl in *. rewrite <- H1, <- H2, Hw, Hp.
      split; [done |]. by rewrite <- (assoc_L (++)).
  - destruct (GetNewWhiteCards rnd n deck) as [res d] eqn:Hwd.
    apply GetNewWhiteCards_inv in Hwd as [(-> & -> & _) | (cs & -> & _ & Hp & Hb)].
    + apply IH.
    + intros [H1 H2]%IH. simpl in *. rewrite <- H1, <- H2, Hb, Hp.
      split; [| done]. by rewrite <- (assoc_L (++)).
Qed.

Lemma AccumalateCardPacks_inv packs deck :
  AccumalateCardPacks packs = Ok deck →
  packs ≠ [] ∧
  NoDup (wc_Id <$> cd_WhiteCards deck) ∧ NoDup (bc_Id <$> cd_BlackCards deck) ∧
  (length (cd_WhiteCards deck) ≤ total_white packs)%nat ∧
  (length (cd_BlackCards deck) ≤ total_black packs)%nat.
Proof.
  unfold AccumalateCardPacks, AccumalateDecks.
  destruct packs as [|pack packs]; [done |]. simpl Nat.eqb. cbv iota.
  intros [= <-]. split; [done |]. simpl cd_WhiteCards. simpl cd_BlackCards.
  set (ws := mjoin (cd_WhiteCards <$> (cp_CardDeck <$> pack :: packs))).
  set (bs := mjoin (cd_BlackCards <$> (cp_CardDeck <$> pack :: packs))).
  destruct (merge_pool_spec wc_Id ∅ ws) as (Hw1 & _ & Hw3).
  destruct (merge_pool_spec bc_Id ∅ bs) as (Hb1 & _ & Hb3).
  split; [done |]. split; [done |].
  assert (length ws = total_white (pack :: packs)) as <-.
  { unfold ws, total_white. by rewrite length_join, <- !list_fmap_compose. }
  assert (length bs = total_black (pack :: packs)) as <-.
  { unfold bs, total_black. by rewrite length_join, <- !list_fmap_compose. }
  done.
Qed.

End deck_ops.

Section deck_claims.

(** C7.  For a deck built from [packs], along any run of draws: the
    white cards handed out are at most as many as the packs contribute
    white cards, the black cards at most as many as they contribute black
    cards, and no card identifier is handed out twice.  A draw of [n]
    white cards from a pool with fewer than [n] cards fails with
    [Exhausted] and leaves the deck as it was; from a pool with at
    least [n] cards it hands out exactly [n] cards and takes exactly
    these from the pool.  A draw of a black card from an empty pool
    fails with [Exhausted]. *)
Theorem deck_draws_bounded_distinct packs deck :
  AccumalateCardPacks packs = Ok deck →
  (∀ ops drawn deck',
     run_draws ops ([], []) deck = (drawn, deck') →
     (length drawn.1 ≤ total_white packs)%nat ∧
     (length drawn.2 ≤ total_black packs)%nat ∧
     NoDup (wc_Id <$> drawn.1) ∧ NoDup (bc_Id <$> drawn.2)) ∧
  (∀ rnd n d,
     (length (cd_WhiteCards d) < n)%nat →
     GetNewWhiteCards rnd n d = (Err ErrExhausted, d)) ∧
  (∀ rnd n d,
     (n ≤ length (cd_WhiteCards d))%nat →
     ∃ cards d', GetNewWhiteCards rnd n d = (Ok cards, d') ∧
                 length cards = n ∧
                 cd_WhiteCards d ≡ₚ cards ++ cd_WhiteCards d') ∧
  (∀ r d, cd_BlackCards d = [] → GetNewBlackCard r d = (Err ErrExhausted, d)).
Proof.
  intros (_ & Hw & Hb & Hlw & Hlb)%AccumalateCardPacks_inv.
  split; [| split; [| split]].
  - intros ops drawn deck' [H1 H2]%run_draws_split. simpl in H1, H2.
    assert (length drawn.1 ≤ length (cd_WhiteCards deck))%nat.
    { rewrite H1, length_app. lia. }
    assert (length drawn.2 ≤ length (cd_BlackCards deck))%nat.
    { rewrite H2, length_app. lia. }
    rewrite H1, fmap_app in Hw. rewrite H2, fmap_app in Hb.
    apply NoDup_app in Hw as (? & _ & _). apply NoDup_app in Hb as (? & _ & _).
    repeat split; [lia | lia | done | done].
  - intros. by apply GetNewWhiteCards_Exhausted.
  - intros rnd n d Hn.
    destruct (GetNewWhiteCards_Ok rnd n d Hn) as (cards & d' & ? & ? & ? & _).
    by exists cards, d'.
  - intros r d Hd. unfold GetNewBlackCard. by rewrite Hd.
Qed.

Lemma deck_draws_bounded_distinct_witness :
  ∃ deck drawn deck',
    AccumalateCardPacks [sample_pack 10 2; sample_pack 12 1] = Ok deck ∧
    run_draws [DrawWhite (λ i, (3 * i)%nat) 7; DrawBlack 5; DrawWhite (λ _, 1%nat) 7;
               DrawBlack 4; DrawBlack 0; DrawWhite (λ i, i) 5]
      ([], []) deck = (drawn, deck') ∧
    length drawn.1 = 12%nat ∧ length drawn.2 = 2%nat ∧
    NoDup (wc_Id <$> drawn.1) ∧ NoDup (bc_Id <$> drawn.2).
Proof.
  destruct (AccumalateCardPacks [sample_pack 10 2; sample_pack 12 1])
    as [deck|] eqn:Hdeck; [| by vm_compute in Hdeck].
  destruct (run_draws [DrawWhite (λ i, (3 * i)%nat) 7; DrawBlack 5;
                       DrawWhite (λ _, 1%nat) 7; DrawBlack 4; DrawBlack 0;
                       DrawWhite (λ i, i) 5] ([], []) deck)
    as [drawn deck'] eqn:Hrun.
  exists deck, drawn, deck'. split; [done |]. split; [done |].
  destruct (deck_draws_bounded_distinct _ _ Hdeck) as [H _].
  destruct (H _ _ _ Hrun) as (_ & _ & Hw & Hb).
  vm_compute in Hdeck. injection Hdeck as <-.
  vm_compute in Hrun. injection Hrun as <- <-.
  repeat split; done.
Defined.
End deck_claims.

(** ** Game: settings, joining and the public view *)

Section game.
Implicit Types (g : Game) (p : Player) (name : string) (id pid : UUID).

Lemma Validate_true gs :
  Validate gs = true ↔
  MinRounds ≤ gs_MaxRounds gs ≤ MaxRounds ∧
  MinPlayingToPoints ≤ gs_PlayingToPoints gs ≤ MaxPlayingToPoints ∧
  (String.length (gs_Password gs) ≤ MaxPasswordLength)%nat ∧
  MinPlayers ≤ gs_MaxPlayers gs ≤ MaxPlayers ∧
  (MinCardPacks ≤ length (gs_CardPacks gs))%nat.
Proof.
  unfold Validate.
  repeat match goal with
         | |- context [Z.ltb ?a ?b] => destruct (Z.ltb_spec a b)
         | |- context [Nat.ltb ?a ?b] => destruct (Nat.ltb_spec a b)
         end; split; try done; try lia.
Qed.

Lemma int_of_uint_le x : int_of_uint x ≤ x.
Proof.
  unfold int_of_uint. assert (0 < 2 ^ 64) by done.
  destruct (x <? 2 ^ 63); lia.
Qed.

Lemma int_of_uint_small x : x < 2 ^ 63 → int_of_uint x = x.
Proof.
  intros H. unfold int_of_uint. by rewrite (proj2 (Z.ltb_lt _ _) H).
Qed.

Lemma Validate_MaxPlayers gs :
  Validate gs = true → int_of_uint (gs_MaxPlayers gs) = gs_MaxPlayers gs.
Proof.
  intros (_ & _ & _ & [_ H] & _)%Validate_true.
  apply int_of_uint_small. unfold MaxPlayers in H.
  assert (20 < 2 ^ 63) by done. lia.
Qed.

Lemma NewPlayer_Ok id name :
  (MinPlayerNameLength ≤ String.length name ≤ MaxPlayerNameLength)%nat →
  NewPlayer id name = Ok (mkPlayer id name ∅ None true 0).
Proof.
  intros [H1 H2]. unfold NewPlayer.
  rewrite (proj2 (Nat.ltb_ge _ _) H1), (proj2 (Nat.ltb_ge _ _) H2). done.
Qed.

Lemma NewPlayer_inv id name p :
  NewPlayer id name = Ok p →
  p = mkPlayer id name ∅ None true 0 ∧
  (MinPlayerNameLength ≤ String.length name ≤ MaxPlayerNameLength)%nat.
Proof.
  unfold NewPlayer.
  destruct (Nat.ltb_spec MaxPlayerNameLength (String.length name));
    destruct (Nat.ltb_spec (String.length name) MinPlayerNameLength);
    simpl; try done.
  intros [= <-]. split; [done | lia].
Qed.

(** The loop over the join order finds a listed player of the same name
    wherever in the order that player is. *)
Lemma AddPlayer_check_duplicate name (m : gmap UUID Player) ids :
  (∀ id, id ∈ ids → is_Some (m !! id)) →
  (∃ id p, id ∈ ids ∧ m !! id = Some p ∧ p_Name p = name) →
  AddPlayer_check name m ids = Some ErrDuplicateName.
Proof.
  induction ids as [|i ids IH]; intros Hin (id & p & Hid & Hp & Hname); simpl.
  - by apply elem_of_nil in Hid.
  - destruct (Hin i) as [q Hq]; [left |]. rewrite Hq.
    case_bool_decide as Hn; [done |]. apply IH.
    + intros j Hj. apply Hin. by right.
    + apply elem_of_cons in Hid as [-> | Hid]; [| by exists id, p].
      rewrite Hq in Hp. injection Hp as ->. by rewrite Hname in Hn.
Qed.

Lemma AddPlayer_check_None name (m : gmap UUID Player) ids :
  AddPlayer_check name m ids = None ↔
  ∀ id, id ∈ ids → ∃ p, m !! id = Some p ∧ p_Name p ≠ name.
Proof.
  induction ids as [|i ids IH]; simpl.
  - split; [by intros _ ? ?%elem_of_nil | done].
  - destruct (m !! i) as [q|] eqn:Hq.
    + case_bool_decide as Hn.
      * split; [done |]. intros H. destruct (H i) as (q' & Hq' & Hne); [left |].
        rewrite Hq in Hq'. injection Hq' as <-. by rewrite Hn in Hne.
      * rewrite IH. split.
        -- intros H j [-> | Hj]%elem_of_cons; [| by apply H].
           exists q. split; [done |]. by intros <-.
        -- intros H j Hj. apply H. by right.
    + split; [done |]. intros H. destruct (H i) as (q' & Hq' & _); [left |].
      by rewrite Hq in Hq'.
Qed.

Lemma AddPlayer_Ok_inv id name g pid g' :
  AddPlayer id name g = (Ok pid, g') →
  pid = id ∧
  Z.of_nat (length (g_Players g)) < int_of_uint (gs_MaxPlayers (g_Settings g)) ∧
  (MinPlayerNameLength ≤ String.length name ≤ MaxPlayerNameLength)%nat ∧
  AddPlayer_check name (g_PlayersMap g) (g_Players g) = None ∧
  g' = set_PlayersMap (<[id := mkPlayer id name ∅ None true 0]> (g_PlayersMap g))
         (set_Players (g_Players g ++ [id]) g).
Proof.
  unfold AddPlayer.
  destruct (Z.geb_spec (Z.of_nat (length (g_Players g)))
              (int_of_uint (gs_MaxPlayers (g_Settings g)))); [done |].
  destruct (NewPlayer id name) as [p|] eqn:Hp; [| done].
  apply NewPlayer_inv in Hp as [-> Hlen].
  destruct (AddPlayer_check name (g_PlayersMap g) (g_Players g)); [done |].
  simpl. intros [= <- <-]. done.
Qed.

(** The constructors and methods keep [GameWF]. *)
Lemma NewGame_WF hostId gameId now gs name g :
  NewGame hostId gameId now gs name = Ok g → GameWF g.
Proof.
  unfold NewGame. destruct (Validate gs) eqn:Hv; [simpl | done].
  destruct (NewPlayer hostId name) as [p|] eqn:Hp; [| done].
  apply NewPlayer_inv in Hp as [-> Hlen]. intros [= <-]. split; [done |].
  simpl. split.
  - intros id ->%list_elem_of_singleton. eexists. by rewrite lookup_insert_eq.
  - intros id [p [[<- _] | [_ Hp]]%lookup_insert_Some]; [by left |].
    by rewrite lookup_empty in Hp.
Qed.

Lemma AddPlayer_WF id name g r g' :
  GameWF g → AddPlayer id name g = (r, g') → GameWF g'.
Proof.
  intros (Hv & Hwf & Hdom) H. destruct r as [pid|e].
  - apply AddPlayer_Ok_inv in H as (-> & _ & Hlen & _ & ->).
    split; [done |]. simpl. split.
    + intros j Hj. destruct (decide (j = id)) as [-> | Hne].
      * eexists. by rewrite lookup_insert_eq.
      * rewrite lookup_insert_ne by done. apply Hwf.
        apply elem_of_app in Hj as [? | ?%list_elem_of_singleton]; done.
    + intros j [p [[<- _] | [_ Hp]]%lookup_insert_Some]; apply elem_of_app.
      * right. by left.
      * left. apply Hdom. by eexists.
  - assert (g' = g) as ->; [| done]. revert H. unfold AddPlayer.
    repeat match goal with
           | |- context [if ?b then _ else _] => destruct b
           | |- context [match ?x with _ => _ end] => destruct x
           end; by intros [= <-].
Qed.

Lemma RemovePlayer_WF rn id g r g' :
  GameWF g → RemovePlayer rn id g = (r, g') → GameWF g'.
Proof.
  intros (Hv & Hwf & Hdom). unfold RemovePlayer.
  destruct (g_PlayersMap g !! id); [| by intros [= <- <-]].
  assert (∀ j, is_Some (delete id (g_PlayersMap g) !! j) →
               j ∈ filter (λ pid, pid ≠ id) (g_Players g)) as Hdom'.
  { intros j [q [Hne Hq]%lookup_delete_Some]. apply list_elem_of_filter.
    split; [done |]. apply Hdom. by eexists. }
  assert (∀ j, j ∈ filter (λ pid, pid ≠ id) (g_Players g) →
               ∃ p, delete id (g_PlayersMap g) !! j = Some p ∧ name_ok p) as Hwf'.
  { intros j [Hne Hj]%list_elem_of_filter.
    rewrite lookup_delete_ne by done. by apply Hwf. }
  simpl. destruct (_ && _); intros [= <- <-]; by split.
Qed.

Lemma ChangeSettings_inv newSettings g r g' :
  gameLogic.ChangeSettings newSettings g = (r, g') →
  (g_GameState g ≠ GameStateInLobby ∧ r = Err ErrSettingsNotInLobby ∧ g' = g) ∨
  (g_GameState g = GameStateInLobby ∧ Validate newSettings = false ∧
   r = Err ErrInvalidNewSettings ∧ g' = g) ∨
  (g_GameState g = GameStateInLobby ∧ Validate newSettings = true ∧
   r = Ok tt ∧ g' = set_Settings newSettings g).
Proof.
  unfold gameLogic.ChangeSettings. case_bool_decide as Hs; simpl.
  - destruct (Validate newSettings); simpl; intros [= <- <-];
      [right; right | right; left]; done.
  - intros [= <- <-]. by left.
Qed.

Lemma ChangeSettings_WF newSettings g r g' :
  GameWF g → gameLogic.ChangeSettings newSettings g = (r, g') → GameWF g'.
Proof.
  intros (Hv & Hwf) [(_ & _ & ->) | [(_ & _ & _ & ->) | (_ & Hv' & _ & ->)]]%ChangeSettings_inv;
    by split.
Qed.

Lemma StateInfo_player_hide_cards g id :
  StateInfo_player (hide_cards g) id = StateInfo_player g id.
Proof.
  unfold StateInfo_player, hide_cards. simpl. rewrite lookup_fmap.
  by destruct (g_PlayersMap g !! id).
Qed.

Lemma StateInfo_hide_cards g : StateInfo (hide_cards g) = StateInfo g.
Proof.
  unfold StateInfo.
  rewrite (mapM_ext _ _ _ (StateInfo_player_hide_cards g)). done.
Qed.

Lemma StateInfo_no_cards g info :
  StateInfo g = Some info →
  Forall (λ p, p_Hand p = ∅ ∧ p_CurrentPlay p = None) (gsi_Players info).
Proof.
  unfold StateInfo.
  destruct (mapM (StateInfo_player g) (g_Players g)) as [ps|] eqn:Hps; [| done].
  simpl. intros [= <-]. simpl. apply mapM_Some_1 in Hps.
  induction Hps as [|id p ids ps Hp _ IH]; constructor; [| done].
  unfold StateInfo_player in Hp.
  destruct (g_PlayersMap g !! id); [| done]. by injection Hp as <-.
Qed.
End game.

Section game_claims.
Implicit Types (g : Game) (p : Player) (name : string) (id pid : UUID).

(** The sample lobby is what the program builds: a new game for Dave,
    then Alice and Bob join. *)
Lemma sample_lobby_built packs :
  Validate (sample_settings packs) = true →
  ∃ g0 g1,
    NewGame 1 100 0 (sample_settings packs) "Dave" = Ok g0 ∧
    AddPlayer 2 "Alice" g0 = (Ok 2%N, g1) ∧
    AddPlayer 3 "Bob" g1 = (Ok 3%N, sample_lobby packs).
Proof.
  intros Hv. unfold NewGame. rewrite Hv. simpl.
  eexists _, _. split; [reflexivity |]. split; reflexivity.
Qed.

Lemma sample_lobby_WF packs : packs ≠ [] → GameWF (sample_lobby packs).
Proof.
  intros Hp.
  assert (Validate (sample_settings packs) = true) as Hv.
  { destruct packs; [done | reflexivity]. }
  destruct (sample_lobby_built packs Hv) as (g0 & g1 & H0 & H1 & H2).
  eapply AddPlayer_WF; [| exact H2].
  eapply AddPlayer_WF; [| exact H1].
  by eapply NewGame_WF.
Qed.

(** C4.  The conditions are tested in the order of the claim.
    [AddPlayer] fails with "Cannot add more than max players" when the
    number of players is at or above [Settings.MaxPlayers].  Below that,
    in a game as the program builds them, it fails with "Players cannot
    have the same name as each other" when some player of the game,
    whenever that player joined, has exactly the given name.  When it
    succeeds, the identifier it returns is the new player's, appended to
    the join order and entered in the player map, and nothing else in
    the game changes.  It does succeed when the game is below capacity,
    the name has an accepted length and no player has the name. *)
Theorem AddPlayer_outcomes id name g :
  (gs_MaxPlayers (g_Settings g) ≤ Z.of_nat (length (g_Players g)) →
   AddPlayer id name g = (Err ErrGameFull, g)) ∧
  (GameWF g →
   Z.of_nat (length (g_Players g)) < gs_MaxPlayers (g_Settings g) →
   (∃ pid p, g_PlayersMap g !! pid = Some p ∧ p_Name p = name) →
   AddPlayer id name g = (Err ErrDuplicateName, g)) ∧
  (∀ pid g',
     AddPlayer id name g = (Ok pid, g') →
     pid = id ∧
     g_Players g' = g_Players g ++ [pid] ∧
     g_PlayersMap g' = <[pid := mkPlayer pid name ∅ None true 0]> (g_PlayersMap g) ∧
     g' = set_PlayersMap (g_PlayersMap g') (set_Players (g_Players g') g)) ∧
  (GameWF g →
   Z.of_nat (length (g_Players g)) < gs_MaxPlayers (g_Settings g) →
   (MinPlayerNameLength ≤ String.length name ≤ MaxPlayerNameLength)%nat →
   (∀ pid p, g_PlayersMap g !! pid = Some p → p_Name p ≠ name) →
   ∃ g', AddPlayer id name g = (Ok id, g')).
Proof.
  split; [| split; [| split]].
  - intros Hfull. unfold AddPlayer.
    pose proof (int_of_uint_le (gs_MaxPlayers (g_Settings g))).
    destruct (Z.geb_spec (Z.of_nat (length (g_Players g)))
                (int_of_uint (gs_MaxPlayers (g_Settings g)))); [done | lia].
  - intros (Hv & Hwf & Hdom) Hroom (pid & p & Hp & Hname). unfold AddPlayer.
    assert (pid ∈ g_Players g) as Hpid by (apply Hdom; by eexists).
    rewrite (Validate_MaxPlayers _ Hv).
    destruct (Z.geb_spec (Z.of_nat (length (g_Players g)))
                (gs_MaxPlayers (g_Settings g))); [lia |].
    destruct (Hwf pid Hpid) as (p' & Hp' & Hok).
    rewrite Hp in Hp'. injection Hp' as <-.
    rewrite NewPlayer_Ok by (by rewrite <- Hname).
    rewrite AddPlayer_check_duplicate; [done | | by exists pid, p].
    intros j Hj. destruct (Hwf j Hj) as (q & -> & _). done.
  - intros pid g' (-> & _ & _ & _ & ->)%AddPlayer_Ok_inv. done.
  - intros (Hv & Hwf & Hdom) Hroom Hlen Hfresh. unfold AddPlayer.
    rewrite (Validate_MaxPlayers _ Hv).
    destruct (Z.geb_spec (Z.of_nat (length (g_Players g)))
                (gs_MaxPlayers (g_Settings g))); [lia |].
    rewrite NewPlayer_Ok by done.
    assert (AddPlayer_check name (g_PlayersMap g) (g_Players g) = None) as ->.
    { apply AddPlayer_check_None. intros j Hj.
      destruct (Hwf j Hj) as (q & Hq & _). exists q. split; [done |]. eauto. }
    by eexists.
Qed.

Lemma AddPlayer_outcomes_witness :
  AddPlayer 4 "Alice" full_lobby = (Err ErrDuplicateName, full_lobby) ∧
  AddPlayer 4 "Dave" full_lobby = (Err ErrDuplicateName, full_lobby) ∧
  ∃ g', AddPlayer 4 "Carol" full_lobby = (Ok 4%N, g') ∧
        g_Players g' = [1; 2; 3; 4]%N ∧
        g_PlayersMap g' !! 4%N = Some (sample_player 4 "Carol").
Proof.
  assert (GameWF full_lobby) as Hwf by (by apply sample_lobby_WF).
  split; [| split].
  - destruct (AddPlayer_outcomes 4 "Alice" full_lobby) as (_ & Hdup & _).
    apply Hdup; [done | done |].
    by exists 2%N, (sample_player 2 "Alice").
  - destruct (AddPlayer_outcomes 4 "Dave" full_lobby) as (_ & Hdup & _).
    apply Hdup; [done | done |].
    by exists 1%N, (sample_player 1 "Dave").
  - destruct (AddPlayer_outcomes 4 "Carol" full_lobby) as (_ & _ & Hok & Hnew).
    destruct Hnew as [g' Hg']; [done | done | | |].
    + unfold MinPlayerNameLength, MaxPlayerNameLength. simpl. lia.
    + intros pid p Hp. simpl in Hp.
      repeat (apply lookup_insert_Some in Hp as [[_ <-] | [_ Hp]]; [done |]).
      by rewrite lookup_empty in Hp.
    + exists g'. split; [done |].
      destruct (Hok _ _ Hg') as (_ & -> & -> & _).
      split; [done |]. by rewrite lookup_insert_eq.
Defined.

(** C10.  Two games that are the same apart from the players' hands and
    current plays have the same [StateInfo] (or both calls panic), and
    the players in a [StateInfo] carry no hand and no current play. *)
Theorem StateInfo_independent_of_cards g1 g2 :
  same_apart_from_cards g1 g2 →
  StateInfo g1 = StateInfo g2 ∧
  ∀ info, StateInfo g1 = Some info →
          Forall (λ p, p_Hand p = ∅ ∧ p_CurrentPlay p = None) (gsi_Players info).
Proof.
  intros H. split; [| apply StateInfo_no_cards].
  rewrite <- (StateInfo_hide_cards g1), <- (StateInfo_hide_cards g2).
  by rewrite H.
Qed.

Lemma StateInfo_independent_of_cards_witness :
  p_Hand <$> g_PlayersMap full_lobby_with_cards !! 1%N ≠
  p_Hand <$> g_PlayersMap full_lobby !! 1%N ∧
  StateInfo full_lobby_with_cards = StateInfo full_lobby ∧
  is_Some (StateInfo full_lobby).
Proof.
  split; [by vm_compute |].
  split; [| by vm_compute; eexists].
  apply (StateInfo_independent_of_cards full_lobby_with_cards full_lobby).
  vm_compute. reflexivity.
Defined.
End game_claims.

(** ** Game: starting the game *)

Section start.
Implicit Types (g : Game) (p : Player) (deck : CardDeck)
  (cards : list WhiteCard) (entries : list (UUID * Player)).

Lemma foldl_insert_dom cards (m0 : gmap Z WhiteCard) :
  dom (foldl (λ m card, <[wc_Id card := card]> m) m0 cards) =
  dom m0 ∪ list_to_set (wc_Id <$> cards).
Proof.
  revert m0. induction cards as [|c cards IH]; intros m0; simpl.
  - set_solver.
  - rewrite IH, dom_insert_L. set_solver.
Qed.

Lemma foldl_insert_lookup cards (m0 : gmap Z WhiteCard) k card :
  foldl (λ m card, <[wc_Id card := card]> m) m0 cards !! k = Some card →
  (wc_Id card = k ∧ card ∈ cards) ∨ m0 !! k = Some card.
Proof.
  revert m0. induction cards as [|c cards IH]; intros m0; simpl; [by right |].
  intros [[? ?] | [[<- <-] | [_ ?]]%lookup_insert_Some]%IH.
  - left. split; [done | by right].
  - left. split; [done | by left].
  - by right.
Qed.

(** Seven cards with seven identifiers make a hand of seven. *)
Lemma cardIndexSlice_distinct cards :
  NoDup (wc_Id <$> cards) →
  distinct_hand (length cards) (cardIndexSlice cards).
Proof.
  intros Hnd. unfold cardIndexSlice. split.
  - rewrite <- size_dom, foldl_insert_dom, dom_empty_L, (left_id_L ∅ (∪)).
    by rewrite size_list_to_set, length_fmap.
  - intros k c [[? _] | ?]%foldl_insert_lookup; [done |].
    by rewrite lookup_empty in H.
Qed.

Lemma range_players_Permutation prio (m : gmap UUID Player) :
  range_players prio m ≡ₚ map_to_list m.
Proof. apply merge_sort_Permutation. Qed.

Lemma elem_of_range_players prio (m : gmap UUID Player) k p :
  (k, p) ∈ range_players prio m ↔ m !! k = Some p.
Proof. by rewrite range_players_Permutation, elem_of_map_to_list. Qed.

Lemma length_range_players prio (m : gmap UUID Player) :
  length (range_players prio m) = size m.
Proof. by rewrite range_players_Permutation, length_map_to_list. Qed.

#[local] Instance prio_le_transitive prio : Transitive (prio_le prio).
Proof. unfold prio_le. intros x y z. lia. Qed.

#[local] Instance prio_le_total prio : Total (prio_le prio).
Proof. unfold prio_le. intros x y. lia. Qed.

Lemma rank_in_lookup entries i k p :
  NoDup entries.*1 → entries !! i = Some (k, p) → rank_in entries k = i.
Proof.
  intros Hnd Hi. unfold rank_in.
  assert (list_find (λ e, e.1 = k) entries = Some (i, (k, p))) as ->; [| done].
  apply list_find_Some. split; [done |]. split; [done |].
  intros j [k' q] Hj Hlt Heq. simpl in Heq. subst k'.
  assert (j = i); [| lia].
  apply (NoDup_lookup entries.*1 j i k); [done | |];
    rewrite list_lookup_fmap; [by rewrite Hj | by rewrite Hi].
Qed.

Lemma StronglySorted_lookups {A} (R : relation A) (l : list A) :
  (∀ i j x y, l !! i = Some x → l !! j = Some y → (i < j)%nat → R x y) →
  StronglySorted R l.
Proof.
  induction l as [|x l IH]; intros H; constructor.
  - apply IH. intros i j a b Ha Hb Hlt. apply (H (S i) (S j)); [done | done | lia].
  - apply Forall_forall. intros y [j Hj]%list_elem_of_lookup.
    apply (H 0%nat (S j)); [done | done | lia].
Qed.

(** Every order of the entries of a map is the order of a [range] loop
    for some ranking of the keys: the results about [StartGame], which
    hold for all rankings, hold for all orders. *)
Lemma range_players_any_order (m : gmap UUID Player) entries :
  entries ≡ₚ map_to_list m → range_players (rank_in entries) m = entries.
Proof.
  intros Hperm.
  assert (NoDup entries.*1) as Hnd.
  { rewrite Hperm. apply NoDup_fst_map_to_list. }
  unfold range_players.
  apply (StronglySorted_unique_strong (prio_le (rank_in entries))).
  - intros [k1 p1] [k2 p2] H1 H2 Hle Hge.
    rewrite merge_sort_Permutation, <- Hperm in H1.
    apply list_elem_of_lookup in H1 as [i1 H1].
    apply list_elem_of_lookup in H2 as [i2 H2].
    unfold prio_le in *. simpl in *.
    rewrite (rank_in_lookup _ _ _ _ Hnd H1), (rank_in_lookup _ _ _ _ Hnd H2) in *.
    assert (i1 = i2) as -> by lia. congruence.
  - apply StronglySorted_merge_sort; apply _.
  - apply StronglySorted_lookups. intros i j [k1 p1] [k2 p2] Hi Hj Hlt.
    unfold prio_le. simpl.
    rewrite (rank_in_lookup _ _ _ _ Hnd Hi), (rank_in_lookup _ _ _ _ Hnd Hj). lia.
  - by rewrite merge_sort_Permutation.
Qed.

(** One round of the dealing loop. *)
Lemma StartGame_deal_cons rnd deck key player entries info g :
  StartGame_deal rnd deck ((key, player) :: entries) info g =
  match GetNewWhiteCards rnd HandSize deck with
  | (Err err, deck) =>
      (Err ("Cannot create game: " +:+ err), set_CardDeck (Some deck) g)
  | (Ok cards, deck) =>
      StartGame_deal (rand_drop HandSize rnd) deck entries
        (set_PlayerHands (<[p_Id player := cards]> (ri_PlayerHands info)) info)
        (set_PlayersMap
           (<[key := set_Hand (cardIndexSlice cards) player]> (g_PlayersMap g))
           (set_CardDeck (Some deck) g))
  end.
Proof. done. Qed.

(** The loop assigns the player map and the deck only, and the only
    error it returns is the exhausted deck. *)
Lemma StartGame_deal_frame entries rnd deck info g r g' :
  StartGame_deal rnd deck entries info g = (r, g') →
  same_outside_deal g g' ∧
  (∀ e, r = Err e → e = "Cannot create game: " +:+ ErrExhausted).
Proof.
  revert rnd deck info g.
  induction entries as [|[key player] entries IH]; intros rnd deck info g.
  - simpl. intros [= <- <-]. by repeat split.
  - rewrite StartGame_deal_cons.
    destruct (GetNewWhiteCards rnd HandSize deck) as [res deck1] eqn:Hd.
    apply GetNewWhiteCards_inv in Hd as [(-> & -> & _) | (cs & -> & _)].
    + intros [= <- <-]. split; [by repeat split |]. by intros e [= <-].
    + intros [Hf He]%IH. split; [| done].
      destruct Hf as (? & ? & ? & ? & ? & ? & ? & ? & ?). by repeat split.
Qed.

(** After a loop that ran to its end, every visited key holds a player
    with a hand of seven, who is the visited player apart from the hand;
    the other keys are untouched. *)
Lemma StartGame_deal_Ok entries rnd deck info g info' g' :
  NoDup (wc_Id <$> cd_WhiteCards deck) →
  StartGame_deal rnd deck entries info g = (Ok info', g') →
  (∀ k, k ∈ entries.*1 →
        ∃ p q, (k, q) ∈ entries ∧ g_PlayersMap g' !! k = Some p ∧
               distinct_hand HandSize (p_Hand p) ∧ p = set_Hand (p_Hand p) q) ∧
  (∀ k, k ∉ entries.*1 → g_PlayersMap g' !! k = g_PlayersMap g !! k).
Proof.
  revert rnd deck info g.
  induction entries as [|[key player] entries IH]; intros rnd deck info g Hnd.
  - simpl. intros [= <- <-]. split; [by intros k ?%elem_of_nil | done].
  - rewrite StartGame_deal_cons.
    destruct (GetNewWhiteCards rnd HandSize deck) as [res deck1] eqn:Hd.
    apply GetNewWhiteCards_inv in Hd as [(-> & -> & _) | (cs & -> & Hlen & Hp & _)];
      [done |].
    rewrite Hp, fmap_app in Hnd. apply NoDup_app in Hnd as (Hcs & _ & Hnd1).
    intros [Hin Hout]%IH; [| done]. simpl in Hout. split.
    + intros k Hk. destruct (decide (k ∈ entries.*1)) as [Hk' | Hk'].
      * destruct (Hin k Hk') as (p & q & ? & ? & ? & ?).
        exists p, q. split; [by right | done].
      * rewrite fmap_cons in Hk. apply elem_of_cons in Hk as [-> | ?]; [| done].
        simpl. exists (set_Hand (cardIndexSlice cs) player), player.
        split; [by left |]. split; [by rewrite Hout, lookup_insert_eq |].
        split; [| done]. simpl. rewrite <- Hlen.
        by apply cardIndexSlice_distinct.
    + intros k Hk. rewrite fmap_cons, not_elem_of_cons in Hk.
      destruct Hk as [Hne Hk]. simpl in Hne.
      by rewrite Hout, lookup_insert_ne.
Qed.

(** With seven cards for each entry, the loop runs to its end. *)
Lemma StartGame_deal_enough entries rnd deck info g :
  (HandSize * length entries ≤ length (cd_WhiteCards deck))%nat →
  ∃ info' g', StartGame_deal rnd deck entries info g = (Ok info', g').
Proof.
  revert rnd deck info g.
  induction entries as [|[key player] entries IH]; intros rnd deck info g Hlen.
  - by eexists _, _.
  - rewrite StartGame_deal_cons. cbn [length] in Hlen.
    destruct (GetNewWhiteCards_Ok rnd HandSize deck) as (cs & deck1 & -> & Hcs & Hp & _);
      [unfold HandSize in *; lia |].
    apply IH. rewrite Hp, length_app in Hlen. unfold HandSize in *. lia.
Qed.

(** With cards for one hand but not for two, the loop deals to the first
    entry and returns the error at the second. *)
Lemma StartGame_deal_short rnd deck k1 p1 k2 p2 entries info g :
  NoDup (wc_Id <$> cd_WhiteCards deck) →
  (HandSize ≤ length (cd_WhiteCards deck) < 2 * HandSize)%nat →
  ∃ cards deck',
    StartGame_deal rnd deck ((k1, p1) :: (k2, p2) :: entries) info g =
    (Err ("Cannot create game: " +:+ ErrExhausted),
     set_PlayersMap (<[k1 := set_Hand (cardIndexSlice cards) p1]> (g_PlayersMap g))
       (set_CardDeck (Some deck') g)) ∧
    distinct_hand HandSize (cardIndexSlice cards).
Proof.
  intros Hnd [Hge Hlt]. rewrite StartGame_deal_cons.
  destruct (GetNewWhiteCards_Ok rnd HandSize deck Hge) as (cs & deck1 & -> & Hcs & Hp & _).
  rewrite StartGame_deal_cons.
  rewrite GetNewWhiteCards_Exhausted.
  - exists cs, deck1. split; [done |]. rewrite <- Hcs.
    apply cardIndexSlice_distinct.
    rewrite Hp, fmap_app in Hnd. by apply NoDup_app in Hnd as (? & _).
  - rewrite Hp, length_app in Hlt. unfold HandSize in *. lia.
Qed.

(** The steps of [StartGame] before the dealing loop. *)
Lemma StartGame_unfold rnd prio g :
  StartGame rnd prio g =
  if decide (g_GameState g = GameStateInLobby) then
    if decide (Z.of_nat (length (g_Players g)) < MinPlayers)
    then (Err ErrNotEnoughPlayers, g)
    else
      match AccumalateCardPacks (gs_CardPacks (g_Settings g)) with
      | Err err => (Err ("Cannot create the game deck " +:+ err), g)
      | Ok deck =>
          match GetNewBlackCard (rand_head rnd) deck with
          | (Err _, deck) => (Err ErrNoBlackCard, set_CardDeck (Some deck) g)
          | (Ok blackCard, deck) =>
              let g1 :=
                set_CurrentRound (uint_succ (g_CurrentRound g))
                  (set_GameState GameStateWhiteCardsBeingSelected
                     (set_CurrentBlackCard (Some blackCard)
                        (set_CardDeck (Some deck) g))) in
              StartGame_deal (rand_tail rnd) deck
                (range_players prio (g_PlayersMap g))
                (mkRoundInfo ∅ (Some blackCard) (g_CurrentCardCzarId g)
                   (uint_succ (g_CurrentRound g))) g1
          end
      end
  else (Err ErrNotInLobby, g).
Proof.
  unfold StartGame. case_bool_decide; case_decide; try done; simpl.
  destruct (Z.ltb_spec (Z.of_nat (length (g_Players g))) MinPlayers);
    case_decide; try done; lia.
Qed.
(** Whether it runs to its end or not, the loop changes nothing of a
    player but the hand, and no key of the player map. *)
Lemma StartGame_deal_players entries rnd deck info g r g' :
  (∀ k q, (k, q) ∈ entries →
          set_Hand ∅ <$> g_PlayersMap g !! k = Some (set_Hand ∅ q)) →
  StartGame_deal rnd deck entries info g = (r, g') →
  ∀ k, set_Hand ∅ <$> g_PlayersMap g' !! k = set_Hand ∅ <$> g_PlayersMap g !! k.
Proof.
  revert rnd deck info g.
  induction entries as [|[key player] entries IH]; intros rnd deck info g Hent.
  - simpl. by intros [= <- <-].
  - rewrite StartGame_deal_cons.
    destruct (GetNewWhiteCards rnd HandSize deck) as [[cs|e] deck1].
    + pose proof (Hent key player (list_elem_of_here _ _)) as Hkey.
      intros H k. apply IH with (k := k) in H.
      * rewrite H. simpl. destruct (decide (key = k)) as [<- | Hne].
        -- by rewrite lookup_insert_eq, Hkey.
        -- by rewrite lookup_insert_ne.
      * intros k' q Hq. simpl. destruct (decide (key = k')) as [<- | Hne].
        -- rewrite lookup_insert_eq. simpl.
           rewrite <- (Hent key q) by (by right). by rewrite Hkey.
        -- rewrite lookup_insert_ne by done. apply Hent. by right.
    + by intros [= <- <-].
Qed.

(** [StartGame] keeps the join order, the settings and, apart from the
    hands, the players. *)
Lemma StartGame_players rnd prio g r g' :
  StartGame rnd prio g = (r, g') →
  g_Players g' = g_Players g ∧ g_Settings g' = g_Settings g ∧
  ∀ k, set_Hand ∅ <$> g_PlayersMap g' !! k = set_Hand ∅ <$> g_PlayersMap g !! k.
Proof.
  rewrite StartGame_unfold.
  case_decide; [| by intros [= <- <-]]. case_decide; [by intros [= <- <-] |].
  destruct (AccumalateCardPacks _) as [deck|]; [| by intros [= <- <-]].
  destruct (GetNewBlackCard (rand_head rnd) deck) as [[c|e] deck1];
    [| by intros [= <- <-]].
  cbv zeta. intros Hdeal.
  destruct (StartGame_deal_frame _ _ _ _ _ _ _ Hdeal)
    as [(_ & Hpl & _ & _ & _ & Hs & _) _].
  split; [done |]. split; [done |]. intros k.
  apply (StartGame_deal_players _ _ _ _ _ _ _) with (k := k) in Hdeal; [done |].
  intros k' q Hq%elem_of_range_players. simpl. by rewrite Hq.
Qed.

Lemma StartGame_WF rnd prio g r g' :
  GameWF g → StartGame rnd prio g = (r, g') → GameWF g'.
Proof.
  intros (Hv & Hwf & Hdom) (Hpl & Hs & Hmap)%StartGame_players.
  split; [by rewrite Hs |]. rewrite Hpl. split.
  - intros id Hid. destruct (Hwf id Hid) as (p & Hp & Hname).
    specialize (Hmap id). rewrite Hp in Hmap.
    destruct (g_PlayersMap g' !! id) as [p'|]; [| done].
    exists p'. split; [done |]. injection Hmap as _ Hn _ _ _.
    unfold name_ok. by rewrite Hn.
  - intros id [p' Hp']. apply Hdom. specialize (Hmap id). rewrite Hp' in Hmap.
    by destruct (g_PlayersMap g !! id).
Qed.
(** The earlier revision of [StartGame] leaves the game that the later one
    leaves, and fails when the later one fails. *)
Lemma StartGame_deal_v0_same entries rnd deck info g :
  (StartGame_deal_v0 rnd deck entries g).2 = (StartGame_deal rnd deck entries info g).2 ∧
  (is_Err (StartGame_deal_v0 rnd deck entries g).1 ↔
   is_Err (StartGame_deal rnd deck entries info g).1).
Proof.
  revert rnd deck info g.
  induction entries as [|[key player] entries IH]; intros rnd deck info g.
  - simpl. split; [done |]. split; intros [? [=]].
  - rewrite StartGame_deal_cons. simpl.
    destruct (GetNewWhiteCards rnd HandSize deck) as [[cs|e] deck1]; [apply IH |].
    simpl. split; [done |]. split; intros _; by eexists.
Qed.

Lemma StartGame_v0_same rnd prio g :
  (StartGame_v0 rnd prio g).2 = (StartGame rnd prio g).2 ∧
  (is_Err (StartGame_v0 rnd prio g).1 ↔ is_Err (StartGame rnd prio g).1).
Proof.
  unfold StartGame_v0, StartGame.
  destruct (negb _); [split; [done |]; split; intros _; by eexists |].
  destruct (_ <? _); [split; [done |]; split; intros _; by eexists |].
  destruct (AccumalateCardPacks _) as [deck|];
    [| split; [done |]; split; intros _; by eexists].
  destruct (GetNewBlackCard (rand_head rnd) deck) as [[c|e] deck1];
    [| split; [done |]; split; intros _; by eexists].
  apply StartGame_deal_v0_same.
Qed.
End start.

Section start_claims.
Implicit Types (g : Game) (p : Player) (deck : CardDeck).

(** A game that passes the tests of [StartGame] and has a deck with a
    black card and white cards for one hand but not for two, and at
    least two players: [StartGame] returns the error of the exhausted
    deck, and by then the game is in the state of a started game, the
    round is counted, and one player has been dealt a hand. *)
Lemma StartGame_deal_failure rnd prio g deck :
  g_GameState g = GameStateInLobby →
  MinPlayers ≤ Z.of_nat (length (g_Players g)) →
  AccumalateCardPacks (gs_CardPacks (g_Settings g)) = Ok deck →
  cd_BlackCards deck ≠ [] →
  (HandSize ≤ length (cd_WhiteCards deck) < 2 * HandSize)%nat →
  (2 ≤ size (g_PlayersMap g))%nat →
  ∃ g' k1 p1 cards,
    StartGame rnd prio g = (Err ("Cannot create game: " +:+ ErrExhausted), g') ∧
    g_GameState g' = GameStateWhiteCardsBeingSelected ∧
    g_CurrentRound g' = uint_succ (g_CurrentRound g) ∧
    g_PlayersMap g !! k1 = Some p1 ∧
    g_PlayersMap g' = <[k1 := set_Hand (cardIndexSlice cards) p1]> (g_PlayersMap g) ∧
    distinct_hand HandSize (cardIndexSlice cards).
Proof.
  intros Hstate Hplayers Hdeck Hblack Hwhite Hsize.
  rewrite StartGame_unfold, decide_True, decide_False, Hdeck by (done || lia).
  apply AccumalateCardPacks_inv in Hdeck as (_ & Hnd & _).
  destruct (GetNewBlackCard (rand_head rnd) deck) as [res deck1] eqn:Hb.
  apply GetNewBlackCard_inv in Hb as [(_ & _ & ?) | (c & -> & _ & Hw)]; [done |].
  rewrite <- Hw in Hnd, Hwhite.
  pose proof (length_range_players prio (g_PlayersMap g)) as Hlen.
  pose proof (elem_of_range_players prio (g_PlayersMap g)) as Helem.
  destruct (range_players prio (g_PlayersMap g)) as [|[k1 p1] [|[k2 p2] entries]];
    [simpl in Hlen; lia | simpl in Hlen; lia |].
  cbv zeta.
  edestruct (StartGame_deal_short (rand_tail rnd) deck1 k1 p1 k2 p2 entries)
    as (cards & deck' & -> & Hhand); [done | done |].
  eexists _, k1, p1, cards. split; [done |]. simpl.
  split; [done |]. split; [done |]. split; [| done].
  apply Helem. by left.
Qed.

(** C1, where the code departs from it.  The sample lobby has three
    players and a pack of one black and ten white cards.  Whatever the
    random numbers and the order of the loop over the player map,
    [StartGame] fails with the error of the exhausted deck, and the
    game it leaves is no longer in the lobby: the state is that of a
    started game, the round counter went from 0 to 1, one player holds
    a hand of seven cards and another still has none.  The earlier
    revision of [StartGame] fails on it too and leaves the same game. *)
Theorem StartGame_short_deck_half_started rnd prio :
  g_GameState short_lobby = GameStateInLobby ∧
  length (g_Players short_lobby) = 3%nat ∧
  g_CurrentRound short_lobby = 0 ∧
  map_Forall (λ _ p, p_Hand p = ∅) (g_PlayersMap short_lobby) ∧
  ∃ g',
    StartGame rnd prio short_lobby =
      (Err ("Cannot create game: " +:+ ErrExhausted), g') ∧
    g_GameState g' = GameStateWhiteCardsBeingSelected ∧
    g_CurrentRound g' = 1 ∧
    (∃ k p, g_PlayersMap g' !! k = Some p ∧ size (p_Hand p) = HandSize) ∧
    (∃ k p, g_PlayersMap g' !! k = Some p ∧ p_Hand p = ∅) ∧
    is_Err (StartGame_v0 rnd prio short_lobby).1 ∧
    (StartGame_v0 rnd prio short_lobby).2 = g'.
Proof.
  assert (map_Forall (λ _ p, p_Hand p = ∅) (g_PlayersMap short_lobby)) as Hempty.
  { intros k p Hp. simpl in Hp.
    repeat (apply lookup_insert_Some in Hp as [[_ <-] | [_ Hp]]; [done |]).
    by rewrite lookup_empty in Hp. }
  split; [done |]. split; [done |]. split; [done |]. split; [done |].
  destruct (AccumalateCardPacks (gs_CardPacks (g_Settings short_lobby)))
    as [deck|] eqn:Hdeck; [| by vm_compute in Hdeck].
  assert (cd_BlackCards deck ≠ [] ∧ length (cd_WhiteCards deck) = 10%nat)
    as [Hb Hw].
  { vm_compute in Hdeck. injection Hdeck as <-. done. }
  destruct (StartGame_deal_failure rnd prio short_lobby deck)
    as (g' & k1 & p1 & cards & Hrun & Hstate & Hround & Hp1 & Hmap & Hhand & _);
    [done | done | done | done | rewrite Hw; unfold HandSize; lia | |].
  { vm_compute. lia. }
  exists g'. split; [done |]. split; [done |]. split; [done |].
  rewrite Hmap. split; [| split].
  - exists k1, (set_Hand (cardIndexSlice cards) p1).
    by rewrite lookup_insert_eq.
  - destruct (decide (k1 = 1%N)) as [-> | Hne].
    + exists 2%N, (sample_player 2 "Alice"). by rewrite lookup_insert_ne.
    + exists 1%N, (sample_player 1 "Dave"). by rewrite lookup_insert_ne.
  - destruct (StartGame_v0_same rnd prio short_lobby) as [Hsame Herr].
    rewrite Hsame, Herr, Hrun. split; [by eexists | done].
Qed.

(** C6.  The tests are made in the order of the claim.  [StartGame]
    fails with "The game is not in the lobby so cannot be started"
    unless the game is in the lobby; in the lobby it fails with the
    message of the missing players when fewer than [MinPlayers] (3) have
    joined; with enough players it fails with "Cannot create the game
    deck" followed by the error of [AccumalateCardPacks] when no pack is
    selected.  When it succeeds the game is in the state of white cards
    being selected, the current black card is not nil, every player of
    the player map holds a hand of [HandSize] (7) cards with different
    identifiers, the players are who they were, and another [StartGame]
    fails for the state.  It does succeed for a lobby with enough
    players whose packs give a black card and seven white cards per
    player. *)
Theorem StartGame_outcomes rnd prio g :
  (g_GameState g ≠ GameStateInLobby →
   StartGame rnd prio g = (Err ErrNotInLobby, g)) ∧
  (g_GameState g = GameStateInLobby →
   Z.of_nat (length (g_Players g)) < MinPlayers →
   StartGame rnd prio g = (Err ErrNotEnoughPlayers, g)) ∧
  (g_GameState g = GameStateInLobby →
   MinPlayers ≤ Z.of_nat (length (g_Players g)) →
   gs_CardPacks (g_Settings g) = [] →
   StartGame rnd prio g =
     (Err ("Cannot create the game deck " +:+ ErrNoCardPack), g)) ∧
  (∀ info g',
     StartGame rnd prio g = (Ok info, g') →
     g_GameState g' = GameStateWhiteCardsBeingSelected ∧
     is_Some (g_CurrentBlackCard g') ∧
     (∀ k p, g_PlayersMap g' !! k = Some p → distinct_hand HandSize (p_Hand p)) ∧
     dom (g_PlayersMap g') = dom (g_PlayersMap g) ∧
     g_Players g' = g_Players g ∧
     ∀ rnd' prio', StartGame rnd' prio' g' = (Err ErrNotInLobby, g')) ∧
  (∀ deck,
     g_GameState g = GameStateInLobby →
     MinPlayers ≤ Z.of_nat (length (g_Players g)) →
     AccumalateCardPacks (gs_CardPacks (g_Settings g)) = Ok deck →
     cd_BlackCards deck ≠ [] →
     (HandSize * size (g_PlayersMap g) ≤ length (cd_WhiteCards deck))%nat →
     ∃ info g', StartGame rnd prio g = (Ok info, g')).
Proof.
  split; [| split; [| split; [| split]]].
  - intros H. by rewrite StartGame_unfold, decide_False.
  - intros H1 H2. by rewrite StartGame_unfold, decide_True, decide_True.
  - intros H1 H2 H3.
    rewrite StartGame_unfold, decide_True, decide_False, H3 by (done || lia).
    done.
  - intros info g'. rewrite StartGame_unfold.
    case_decide as Hstate; [| done]. case_decide; [done |].
    destruct (AccumalateCardPacks _) as [deck|] eqn:Hdeck; [| done].
    apply AccumalateCardPacks_inv in Hdeck as (_ & Hnd & _).
    destruct (GetNewBlackCard (rand_head rnd) deck) as [res deck1] eqn:Hb.
    apply GetNewBlackCard_inv in Hb as [(-> & _) | (c & -> & _ & Hw)]; [done |].
    rewrite <- Hw in Hnd. cbv zeta. intros Hdeal.
    destruct (StartGame_deal_frame _ _ _ _ _ _ _ Hdeal)
      as [(_ & Hpl & _ & _ & _ & _ & Hbc & _ & Hst) _].
    apply StartGame_deal_Ok in Hdeal as [Hin Hout]; [| done].
    simpl in Hst, Hbc, Hout, Hpl.
    assert (∀ k, k ∈ (range_players prio (g_PlayersMap g)).*1 ↔
                 is_Some (g_PlayersMap g !! k)) as Hkeys.
    { intros k. rewrite list_elem_of_fmap. split.
      - intros ([k' p] & -> & Hp). apply elem_of_range_players in Hp. by eexists.
      - intros [p Hp]. exists (k, p). split; [done |].
        by apply elem_of_range_players. }
    split; [done |]. split; [by rewrite Hbc |]. split; [| split; [| split]].
    + intros k p Hp.
      destruct (decide (k ∈ (range_players prio (g_PlayersMap g)).*1)) as [Hk | Hk].
      * destruct (Hin k Hk) as (p' & q & _ & Hp' & Hd & _).
        rewrite Hp in Hp'. by injection Hp' as <-.
      * rewrite (Hout k Hk) in Hp. destruct Hk. apply Hkeys. by eexists.
    + apply set_eq. intros k. rewrite !elem_of_dom.
      destruct (decide (k ∈ (range_players prio (g_PlayersMap g)).*1)) as [Hk | Hk].
      * destruct (Hin k Hk) as (p' & q & _ & Hp' & _).
        apply Hkeys in Hk. split; [done | by eexists].
      * by rewrite (Hout k Hk).
    + done.
    + intros rnd' prio'. rewrite StartGame_unfold, decide_False; [done |].
      by rewrite Hst.
  - intros deck Hstate Hplayers Hdeck Hblack Hwhite.
    rewrite StartGame_unfold, decide_True, decide_False, Hdeck by (done || lia).
    destruct (GetNewBlackCard (rand_head rnd) deck) as [res deck1] eqn:Hb.
    apply GetNewBlackCard_inv in Hb as [(_ & _ & ?) | (c & -> & _ & Hw)]; [done |].
    cbv zeta. apply StartGame_deal_enough.
    by rewrite length_range_players, Hw.
Qed.

Lemma StartGame_outcomes_witness :
  ∃ info g',
    StartGame (λ i, (5 * i + 3)%nat) N.to_nat full_lobby = (Ok info, g') ∧
    g_GameState g' = GameStateWhiteCardsBeingSelected ∧
    is_Some (g_CurrentBlackCard g') ∧
    (∀ k p, g_PlayersMap g' !! k = Some p → distinct_hand HandSize (p_Hand p)) ∧
    StartGame (λ i, i) N.to_nat g' = (Err ErrNotInLobby, g').
Proof.
  destruct (StartGame_outcomes (λ i, (5 * i + 3)%nat) N.to_nat full_lobby)
    as (_ & _ & _ & Hok & Hrun).
  destruct (AccumalateCardPacks (gs_CardPacks (g_Settings full_lobby)))
    as [deck|] eqn:Hdeck; [| by vm_compute in Hdeck].
  destruct (Hrun deck) as (info & g' & Hg'); [done | done | done | | |].
  - vm_compute in Hdeck. injection Hdeck as <-. done.
  - vm_compute in Hdeck. injection Hdeck as <-. vm_compute. lia.
  - exists info, g'. split; [done |].
    destruct (Hok info g' Hg') as (? & ? & ? & _ & _ & Hagain).
    split; [done |]. split; [done |]. split; [done |]. apply Hagain.
Defined.
End start_claims.

(** ** The repository *)

Section repo.
Implicit Types (gr : GameRepo) (g game : Game) (op : RepoOp).

Lemma New_RepoInv : RepoInv New.
Proof. unfold RepoInv, New. simpl. by rewrite !dom_empty_L. Qed.

(** A method of the game stored under [gameId] changes no key. *)
Lemma on_game_RepoInv {A} gameId game (m : M Game A) gr r gr' :
  gr_GameMap gr !! gameId = Some game →
  on_game gameId game m gr = (r, gr') →
  RepoInv gr → RepoInv gr'.
Proof.
  unfold on_game, RepoInv. intros Hg. destruct (m game) as [res game'].
  intros [= <- <-] Hinv. simpl. by rewrite dom_insert_lookup_L.
Qed.

Lemma CreateGame_Err hostId gameId now gs name gr e gr' :
  CreateGame hostId gameId now gs name gr = (Err e, gr') → gr' = gr.
Proof.
  unfold CreateGame. destruct (NewGame hostId gameId now gs name); [done |].
  by intros [= _ <-].
Qed.

Lemma CreateGame_RepoInv hostId gameId now gs name gr r gr' :
  CreateGame hostId gameId now gs name gr = (r, gr') →
  RepoInv gr → RepoInv gr'.
Proof.
  unfold CreateGame, RepoInv.
  destruct (NewGame hostId gameId now gs name) as [game|];
    intros [= <- <-] Hinv; [| done].
  simpl. by rewrite !dom_insert_L, Hinv.
Qed.

Lemma RemoveGame_RepoInv gameID gr r gr' :
  RemoveGame gameID gr = (r, gr') → RepoInv gr → RepoInv gr'.
Proof.
  unfold RemoveGame, RepoInv.
  destruct (gr_GameMap gr !! gameID); intros [= <- <-] Hinv; [| done].
  simpl. by rewrite !dom_delete_L, Hinv.
Qed.

Lemma PlayerLeaveGame_RepoInv rn gameId playerId gr r gr' :
  PlayerLeaveGame rn gameId playerId gr = (r, gr') → RepoInv gr → RepoInv gr'.
Proof.
  unfold PlayerLeaveGame.
  destruct (gr_GameMap gr !! gameId) as [game|] eqn:Hg; [| by intros [= <- <-]].
  destruct (on_game gameId game (RemovePlayer rn playerId) gr) as [res gr1] eqn:Hon.
  intros H Hinv. pose proof (on_game_RepoInv _ _ _ _ _ _ Hg Hon Hinv) as Hinv1.
  destruct res as [res|e]; [| by injection H as <- <-].
  destruct (prr_PlayersLeft res =? 0)%nat; injection H as <- <-; [| done].
  unfold RepoInv in *. simpl. by rewrite !dom_delete_L, Hinv1.
Qed.

(** Every mutating method keeps the invariant. *)
Lemma run_op_RepoInv op gr : RepoInv gr → RepoInv (run_op op gr).
Proof.
  intros Hinv. destruct op; simpl.
  - by eapply CreateGame_RepoInv; [apply surjective_pairing |].
  - by eapply RemoveGame_RepoInv; [apply surjective_pairing |].
  - by eapply PlayerLeaveGame_RepoInv; [apply surjective_pairing |].
  - unfold DisconnectPlayer.
    destruct (gr_GameMap gr !! gameId) as [game|] eqn:Hg; [| done].
    by eapply on_game_RepoInv; [| apply surjective_pairing |].
  - unfold ConnectPlayer.
    destruct (gr_GameMap gr !! gameId) as [game|] eqn:Hg; [| done].
    by eapply on_game_RepoInv; [| apply surjective_pairing |].
  - unfold CreatePlayer.
    destruct (gr_GameMap gr !! gameId) as [game|] eqn:Hg; [| done].
    destruct (negb _); [done |].
    by eapply on_game_RepoInv; [| apply surjective_pairing |].
  - unfold gameRepo.ChangeSettings. destruct (negb _); [done |].
    destruct (gr_GameMap gr !! gameId) as [game|] eqn:Hg; [| done].
    by eapply on_game_RepoInv; [| apply surjective_pairing |].
Qed.

Lemma run_trace_RepoInv ops gr : RepoInv gr → Forall RepoInv (run_trace ops gr).
Proof.
  revert gr. induction ops as [|op ops IH]; intros gr Hinv; simpl.
  - by repeat constructor.
  - constructor; [done |]. by apply IH, run_op_RepoInv.
Qed.

(** [GameRepo.ChangeSettings] replaces the settings of any game it
    finds, whatever the state of the game. *)
Lemma Repo_ChangeSettings_any_state gameId settings gr game :
  Validate settings = true →
  gr_GameMap gr !! gameId = Some game →
  gameRepo.ChangeSettings gameId settings gr =
  (Ok tt, mkGameRepo (<[gameId := set_Settings settings game]> (gr_GameMap gr))
            (gr_GameAgeMap gr)).
Proof.
  intros Hv Hg. unfold gameRepo.ChangeSettings. by rewrite Hv, Hg.
Qed.

(** [Game.ChangeSettings] does what C2 asks of it. *)
Lemma ChangeSettings_outcomes newSettings g :
  (g_GameState g ≠ GameStateInLobby →
   gameLogic.ChangeSettings newSettings g = (Err ErrSettingsNotInLobby, g)) ∧
  (∀ g', gameLogic.ChangeSettings newSettings g = (Ok tt, g') →
         g_GameState g = GameStateInLobby ∧ Validate newSettings = true ∧
         g' = set_Settings newSettings g).
Proof.
  split.
  - intros H. unfold gameLogic.ChangeSettings. by rewrite bool_decide_eq_false_2.
  - intros g' [(_ & ? & _) | [(_ & _ & ? & _) | (? & ? & _ & ?)]]%ChangeSettings_inv;
      done.
Qed.
End repo.

Section repo_claims.

(** C5.  Starting from the new repository, after every call of a
    sequence of calls of its mutating methods the game map and the age
    map have the same keys; and a [CreateGame] that fails leaves the
    repository as it was. *)
Theorem repo_maps_agree ops :
  Forall RepoInv (run_trace ops New) ∧
  ∀ hostId gameId now gs name gr e gr',
    CreateGame hostId gameId now gs name gr = (Err e, gr') → gr' = gr.
Proof.
  split; [apply run_trace_RepoInv, New_RepoInv |].
  intros *. apply CreateGame_Err.
Qed.

Lemma repo_maps_agree_witness :
  (CreateGame 1 100 0 (sample_settings [sample_pack 60 10]) "" New).2 = New ∧
  Forall RepoInv
    (run_trace [OpCreateGame 1 100 0 (sample_settings [sample_pack 60 10]) "Dave";
                OpCreateGame 5 101 7 (sample_settings []) "Eve";
                OpCreatePlayer 2 100 "Alice" "";
                OpPlayerLeaveGame 0 100 1;
                OpRemoveGame 55;
                OpPlayerLeaveGame 0 100 2] New).
Proof.
  destruct (repo_maps_agree
    [OpCreateGame 1 100 0 (sample_settings [sample_pack 60 10]) "Dave";
     OpCreateGame 5 101 7 (sample_settings []) "Eve";
     OpCreatePlayer 2 100 "Alice" "";
     OpPlayerLeaveGame 0 100 1;
     OpRemoveGame 55;
     OpPlayerLeaveGame 0 100 2]) as [Hinv Hfail].
  split; [| exact Hinv].
  destruct (CreateGame 1 100 0 (sample_settings [sample_pack 60 10]) "" New)
    as [[?|e] gr'] eqn:Hc; [by vm_compute in Hc |].
  simpl. by eapply Hfail.
Defined.

(** C2, where the code departs from it.  The started sample game is not
    in the lobby.  [Game.ChangeSettings] refuses to change its settings,
    but [GameRepo.ChangeSettings] succeeds on the repository that holds
    it and the game then has the new settings. *)
Theorem Repo_ChangeSettings_ignores_state :
  g_GameState started_game = GameStateWhiteCardsBeingSelected ∧
  gr_GameMap started_repo !! 100%N = Some started_game ∧
  g_Settings started_game ≠ other_settings ∧
  gameLogic.ChangeSettings other_settings started_game
    = (Err ErrSettingsNotInLobby, started_game) ∧
  gameRepo.ChangeSettings 100 other_settings started_repo
    = (Ok tt, mkGameRepo {[100%N := set_Settings other_settings started_game]}
                (gr_GameAgeMap started_repo)) ∧
  g_Settings <$> gr_GameMap (gameRepo.ChangeSettings 100 other_settings started_repo).2
                   !! 100%N = Some other_settings.
Proof.
  assert (g_GameState started_game = GameStateWhiteCardsBeingSelected) as Hst
    by (by vm_compute).
  assert (gr_GameMap started_repo !! 100%N = Some started_game) as Hg
    by apply lookup_singleton_eq.
  split; [done |]. split; [done |]. split; [by vm_compute |].
  split; [apply ChangeSettings_outcomes; by rewrite Hst |].
  rewrite (Repo_ChangeSettings_any_state 100 other_settings _ _ eq_refl Hg). simpl.
  rewrite insert_singleton_eq. split; [done |].
  by rewrite lookup_singleton_eq.
Qed.
End repo_claims.

(** * Further properties *)

(** ** Player: the hand *)

Section player_extra.
Implicit Types (p : Player) (cards : list WhiteCard) (card : WhiteCard).

Lemma hasCard_false_None p card :
  hasCard p card = false ↔ p_Hand p !! wc_Id card = None.
Proof.
  unfold hasCard. by rewrite bool_decide_eq_false, eq_None_not_Some.
Qed.

Lemma AddCardToHand_Ok_inv card p p' :
  AddCardToHand card p = (Ok tt, p') →
  p_Hand p !! wc_Id card = None ∧
  p' = set_Hand (<[wc_Id card := card]> (p_Hand p)) p.
Proof.
  unfold AddCardToHand, bind, get, fail, modify.
  destruct (hasCard p card) eqn:Hc; [done |].
  intros [= <-]. by apply hasCard_false_None in Hc.
Qed.

Lemma size_foldl_delete cards (h : gmap Z WhiteCard) :
  NoDup (wc_Id <$> cards) →
  (∀ card, card ∈ cards → is_Some (h !! wc_Id card)) →
  (size (foldl (λ h card, delete (wc_Id card) h) h cards) + length cards
   = size h)%nat.
Proof.
  revert h. induction cards as [|c cards IH]; intros h Hnd Hin; cbn [foldl length].
  - lia.
  - rewrite fmap_cons in Hnd. apply NoDup_cons in Hnd as [Hc Hnd].
    destruct (Hin c) as [x Hx]; [left |].
    assert (size h ≠ 0)%nat as Hsize.
    { intros ->%map_size_empty_inv. by rewrite lookup_empty in Hx. }
    pose proof (IH (delete (wc_Id c) h) Hnd) as IH'.
    rewrite map_size_delete_Some in IH' by by eexists.
    rewrite Nat.add_succ_r, IH'; [lia |].
    intros c' Hc'. rewrite lookup_delete_ne; [apply Hin; by right |].
    intros Heq. apply Hc. rewrite Heq. by apply list_elem_of_fmap_2.
Qed.



(** X2.  A card added to the hand of a player who has not played can be
    played at once, and playing it gives back the hand the player had
    before the card was added. *)
Theorem AddCardToHand_then_PlayCard card p p1 :
  p_CurrentPlay p = None →
  AddCardToHand card p = (Ok tt, p1) →
  PlayCard (Some [card]) p1 = (Ok tt, set_CurrentPlay (Some [card]) p).
Proof.
  intros Hplay [Hnone ->]%AddCardToHand_Ok_inv.
  rewrite PlayCard_Some. simpl. rewrite Hplay. simpl.
  rewrite lookup_empty. unfold hasCard. simpl.
  rewrite bool_decide_eq_true_2 by (rewrite lookup_insert_eq; by eexists).
  simpl. rewrite <- foldl_delete_hand_without. simpl.
  rewrite delete_insert_eq, delete_id by done. by destruct p.
Qed.

Lemma AddCardToHand_then_PlayCard_witness :
  ∃ p1, AddCardToHand (sample_white 8) dave = (Ok tt, p1) ∧
        PlayCard (Some [sample_white 8]) p1
          = (Ok tt, set_CurrentPlay (Some [sample_white 8]) dave).
Proof.
  destruct (AddCardToHand (sample_white 8) dave) as [r p1] eqn:H.
  assert (r = Ok tt) as -> by (by vm_compute in H; injection H as <- _).
  exists p1. split; [done |].
  by apply (AddCardToHand_then_PlayCard (sample_white 8) dave p1).
Defined.

Lemma PlayCard_played_gone cards p p1 :
  PlayCard (Some cards) p = (Ok tt, p1) →
  ∀ card, card ∈ cards → hasCard p1 card = false.
Proof.
  intros (_ & _ & ->)%PlayCard_Ok_inv c Hc. apply hasCard_false_None. simpl.
  unfold hand_without. apply map_lookup_filter_None. right.
  intros x _ Hx. apply Hx. simpl. by apply list_elem_of_fmap_2.
Qed.

(** X3.  A successful [PlayCard] takes exactly the played cards out of
    the hand: the hand shrinks by the number of cards played, and none of
    the played cards is held afterwards. *)
Theorem PlayCard_hand_count cards p p1 :
  PlayCard (Some cards) p = (Ok tt, p1) →
  (CardsInHand p1 + length cards = CardsInHand p)%nat ∧
  ∀ card, card ∈ cards → hasCard p1 card = false.
Proof.
  intros H. split; [| by apply (PlayCard_played_gone _ p)].
  apply PlayCard_Ok_inv in H as (_ & Hcheck & ->).
  apply PlayCard_check_None in Hcheck as [Hnd Hall].
  unfold CardsInHand. simpl. rewrite <- foldl_delete_hand_without.
  apply size_foldl_delete; [done |].
  intros c Hc. apply hasCard_true. by apply Hall.
Qed.

Lemma PlayCard_hand_count_witness :
  ∃ p1, PlayCard (Some [sample_white 1; sample_white 4; sample_white 6]) dave
          = (Ok tt, p1) ∧
        CardsInHand p1 = 4%nat ∧ hasCard p1 (sample_white 4) = false.
Proof.
  destruct (PlayCard (Some [sample_white 1; sample_white 4; sample_white 6]) dave)
    as [r p1] eqn:H.
  assert (r = Ok tt) as -> by (by vm_compute in H; injection H as <- _).
  exists p1. split; [done |].
  destruct (PlayCard_hand_count _ _ _ H) as [Hn Hout].
  split; [| apply Hout; set_solver].
  assert (CardsInHand dave = 7%nat) as Hd by (by vm_compute).
  rewrite Hd in Hn. simpl in Hn. lia.
Defined.

(** X4.  A player plays once per round.  After a successful [PlayCard]
    every further [PlayCard] with a slice that is not nil fails with
    "Cards have already been played" and changes nothing.  After
    [FinaliseRound] cards still in the hand can be played, and a card
    played in the round before cannot: it is no longer in the hand. *)
Theorem PlayCard_once_per_round cards p p1 :
  PlayCard (Some cards) p = (Ok tt, p1) →
  (∀ cards', PlayCard (Some cards') p1 = (Err ErrAlreadyPlayed, p1)) ∧
  (∀ cards', NoDup (wc_Id <$> cards') →
             (∀ card, card ∈ cards' → hasCard p1 card = true) →
             ∃ p2, PlayCard (Some cards') (FinaliseRound p1) = (Ok tt, p2) ∧
                   p_CurrentPlay p2 = Some cards') ∧
  (∀ card, card ∈ cards →
           PlayCard (Some [card]) (FinaliseRound p1)
             = (Err ErrCardNotInHand, FinaliseRound p1)).
Proof.
  intros H. pose proof (PlayCard_played_gone _ _ _ H) as Hout.
  apply PlayCard_Ok_inv in H as (_ & _ & ->).
  split; [| split].
  - intros cards'. by rewrite PlayCard_Some.
  - intros cards' Hnd Hall. rewrite PlayCard_Some. simpl.
    assert (PlayCard_check
              (FinaliseRound (set_Hand (hand_without cards (p_Hand p))
                                (set_CurrentPlay (Some cards) p))) ∅ cards' = None)
      as ->.
    { apply PlayCard_check_None. split; [done |]. intros c Hc.
      split; [apply lookup_empty |]. by apply Hall. }
    by eexists.
  - intros card Hc. rewrite PlayCard_Some. simpl. rewrite lookup_empty.
    specialize (Hout card Hc). unfold hasCard in *. simpl in *.
    by rewrite Hout.
Qed.

Lemma PlayCard_once_per_round_witness :
  ∃ p1, PlayCard (Some [sample_white 1; sample_white 4]) dave = (Ok tt, p1) ∧
        PlayCard (Some [sample_white 2]) p1 = (Err ErrAlreadyPlayed, p1) ∧
        PlayCard (Some [sample_white 4]) (FinaliseRound p1)
          = (Err ErrCardNotInHand, FinaliseRound p1).
Proof.
  destruct (PlayCard (Some [sample_white 1; sample_white 4]) dave) as [r p1] eqn:H.
  assert (r = Ok tt) as -> by (by vm_compute in H; injection H as <- _).
  exists p1. split; [done |].
  destruct (PlayCard_once_per_round _ _ _ H) as (H1 & _ & H3).
  split; [apply H1 | apply H3; set_solver].
Defined.
End player_extra.

(** ** Game: what every game built by the program satisfies *)

Section game_extra.
Implicit Types (g : Game) (p : Player) (name : string) (id pid : UUID).

(** What [StartGame] leaves of a player, whatever its outcome. *)
Lemma StartGame_lookup rnd prio g r g' k p' :
  StartGame rnd prio g = (r, g') →
  g_PlayersMap g' !! k = Some p' →
  ∃ p, g_PlayersMap g !! k = Some p ∧ p_Id p' = p_Id p ∧ p_Name p' = p_Name p ∧
       p_CurrentPlay p' = p_CurrentPlay p ∧ p_Connected p' = p_Connected p ∧
       p_Points p' = p_Points p.
Proof.
  intros (_ & _ & Hmap)%StartGame_players Hp'. specialize (Hmap k).
  rewrite Hp' in Hmap. destruct (g_PlayersMap g !! k) as [p|]; [| done].
  exists p. injection Hmap as ? ? ? ? ?. done.
Qed.

Lemma StartGame_frame rnd prio g r g' :
  StartGame rnd prio g = (r, g') →
  g_Id g' = g_Id g ∧ g_CreationTime g' = g_CreationTime g ∧
  g_GameOwnerId g' = g_GameOwnerId g ∧
  g_CurrentCardCzarId g' = g_CurrentCardCzarId g.
Proof.
  rewrite StartGame_unfold.
  case_decide; [| by intros [= <- <-]]. case_decide; [by intros [= <- <-] |].
  destruct (AccumalateCardPacks _) as [deck|]; [| by intros [= <- <-]].
  destruct (GetNewBlackCard (rand_head rnd) deck) as [[c|e] deck1];
    [| by intros [= <- <-]].
  cbv zeta. intros Hdeal.
  by destruct (StartGame_deal_frame _ _ _ _ _ _ _ Hdeal)
    as [(? & _ & ? & ? & _ & _ & _ & ? & _) _].
Qed.

Lemma AddPlayer_Err_inv id name g e g' :
  AddPlayer id name g = (Err e, g') → g' = g.
Proof.
  unfold AddPlayer.
  repeat match goal with
         | |- context [if ?b then _ else _] => destruct b
         | |- context [match ?x with _ => _ end] => destruct x
         end; by intros [= _ <-].
Qed.

Lemma RemovePlayer_inv rn id g r g' :
  RemovePlayer rn id g = (r, g') →
  (g_PlayersMap g !! id = None ∧ r = Err ErrPlayerNotInGame ∧ g' = g) ∨
  (is_Some (g_PlayersMap g !! id) ∧
   g_PlayersMap g' = delete id (g_PlayersMap g) ∧
   g_Players g' = filter (λ pid, pid ≠ id) (g_Players g) ∧
   g_Settings g' = g_Settings g ∧ g_Id g' = g_Id g ∧
   g_CreationTime g' = g_CreationTime g ∧ g_GameState g' = g_GameState g ∧
   g_CurrentRound g' = g_CurrentRound g ∧
   ∃ res, r = Ok res ∧ prr_PlayersLeft res = length (g_Players g') ∧
     ((id ≠ g_GameOwnerId g ∨ g_Players g' = []) ∧
      g_GameOwnerId g' = g_GameOwnerId g ∧ prr_NewGameOwner res = 0%N
      ∨
      id = g_GameOwnerId g ∧ g_Players g' ≠ [] ∧
      g_GameOwnerId g' ∈ g_Players g' ∧
      prr_NewGameOwner res = g_GameOwnerId g')).
Proof.
  unfold RemovePlayer.
  destruct (g_PlayersMap g !! id) as [p|] eqn:Hp; [| intros [= <- <-]; by left].
  simpl. set (players := filter (λ pid, pid ≠ id) (g_Players g)).
  intros H. right. split; [by eexists |].
  case_bool_decide as Howner; simpl in H.
  - destruct (Nat.ltb_spec 0 (length players)) as [Hlen | Hlen];
      injection H as <- <-; simpl; repeat (split; [done |]);
      eexists; (split; [done |]); (split; [done |]).
    + right. split; [done |]. split; [by destruct players; [simpl in Hlen; lia |] |].
      split; [| done].
      assert (Intn rn (length players) < length players)%nat as Hi
        by (apply Nat.mod_upper_bound; lia).
      destruct (lookup_lt_is_Some_2 _ _ Hi) as [o Ho]. rewrite Ho. simpl.
      by eapply list_elem_of_lookup_2.
    + left. split; [| done]. right. destruct players; [done | simpl in Hlen; lia].
  - injection H as <- <-. simpl. repeat (split; [done |]).
    eexists. split; [done |]. split; [done |]. left. by split; [left |].
Qed.

Lemma GameIds_step g op : GameWF g → GameIds g → GameIds (run_game_op g op).
Proof.
  intros Hwf Hids. unfold GameIds in *.
  destruct op as [id name | rn id | rnd prio | s]; simpl.
  - destruct (AddPlayer id name g) as [[pid|e] g'] eqn:H; simpl.
    + apply AddPlayer_Ok_inv in H as (-> & _ & _ & _ & ->). simpl.
      intros k p [[<- <-] | [_ Hp]]%lookup_insert_Some; [done | by apply Hids].
    + by apply AddPlayer_Err_inv in H as ->.
  - destruct (RemovePlayer rn id g) as [r g'] eqn:H; simpl.
    apply RemovePlayer_inv in H as [(_ & _ & ->) | (_ & Hmap & _)]; [done |].
    intros k p. rewrite Hmap. intros [_ Hp]%lookup_delete_Some. by apply Hids.
  - destruct (StartGame rnd prio g) as [r g'] eqn:H; simpl.
    intros k p' Hp'. destruct (StartGame_lookup _ _ _ _ _ _ _ H Hp') as (p & Hp & -> & _).
    by apply Hids.
  - destruct (gameLogic.ChangeSettings s g) as [r g'] eqn:H; simpl.
    by apply ChangeSettings_inv in H
      as [(_ & _ & ->) | [(_ & _ & _ & ->) | (_ & _ & _ & ->)]].
Qed.

Lemma names_unique_step g op :
  GameWF g → names_unique g → names_unique (run_game_op g op).
Proof.
  intros (Hv & Hwf & Hdom) Huniq. unfold names_unique in *.
  destruct op as [id name | rn id | rnd prio | s]; simpl.
  - destruct (AddPlayer id name g) as [[pid|e] g'] eqn:H; simpl.
    + apply AddPlayer_Ok_inv in H as (-> & _ & _ & Hcheck & ->). simpl.
      assert (∀ k p, g_PlayersMap g !! k = Some p → p_Name p ≠ name) as Hnew.
      { intros k p Hp. rewrite AddPlayer_check_None in Hcheck.
        destruct (Hcheck k) as (q & Hq & Hne); [apply Hdom; by eexists |].
        rewrite Hp in Hq. by injection Hq as <-. }
      intros k1 k2 p1 p2 [[<- <-] | [? H1]]%lookup_insert_Some
        [[<- <-] | [? H2]]%lookup_insert_Some Hn; simpl in *.
      * done.
      * by destruct (Hnew _ _ H2).
      * by destruct (Hnew _ _ H1).
      * by eapply Huniq.
    + by apply AddPlayer_Err_inv in H as ->.
  - destruct (RemovePlayer rn id g) as [r g'] eqn:H; simpl.
    apply RemovePlayer_inv in H as [(_ & _ & ->) | (_ & Hmap & _)]; [done |].
    intros k1 k2 p1 p2. rewrite Hmap.
    intros [_ H1]%lookup_delete_Some [_ H2]%lookup_delete_Some. by eapply Huniq.
  - destruct (StartGame rnd prio g) as [r g'] eqn:H; simpl.
    intros k1 k2 p1' p2' H1 H2.
    destruct (StartGame_lookup _ _ _ _ _ _ _ H H1) as (p1 & Hp1 & _ & -> & _).
    destruct (StartGame_lookup _ _ _ _ _ _ _ H H2) as (p2 & Hp2 & _ & -> & _).
    by eapply Huniq.
  - destruct (gameLogic.ChangeSettings s g) as [r g'] eqn:H; simpl.
    by apply ChangeSettings_inv in H
      as [(_ & _ & ->) | [(_ & _ & _ & ->) | (_ & _ & _ & ->)]].
Qed.

Lemma GameWF_step g op : GameWF g → GameWF (run_game_op g op).
Proof.
  intros Hwf. destruct op as [id name | rn id | rnd prio | s]; simpl.
  - eapply AddPlayer_WF; [done | apply surjective_pairing].
  - eapply RemovePlayer_WF; [done | apply surjective_pairing].
  - eapply StartGame_WF; [done | apply surjective_pairing].
  - eapply ChangeSettings_WF; [done | apply surjective_pairing].
Qed.

Lemma length_filter_le {A} (P : A → Prop) `{∀ x, Decision (P x)} (l : list A) :
  (length (filter P l) ≤ length l)%nat.
Proof.
  induction l as [|x l IH]; [done |]. rewrite filter_cons.
  destruct (decide (P x)); simpl; lia.
Qed.

(** The number of players after a step: a step other than a change of
    settings keeps it at or below [Settings.MaxPlayers]. *)
Lemma capacity_step g op :
  GameWF g →
  Z.of_nat (length (g_Players g)) ≤ gs_MaxPlayers (g_Settings g) →
  ¬ is_GChangeSettings op →
  Z.of_nat (length (g_Players (run_game_op g op)))
    ≤ gs_MaxPlayers (g_Settings (run_game_op g op)) ∧
  g_Settings (run_game_op g op) = g_Settings g.
Proof.
  intros (Hv & _) Hlen Hop. destruct op as [id name | rn id | rnd prio | s]; simpl.
  - destruct (AddPlayer id name g) as [[pid|e] g'] eqn:H; simpl.
    + apply AddPlayer_Ok_inv in H as (-> & Hroom & _ & _ & ->). simpl.
      rewrite (Validate_MaxPlayers _ Hv) in Hroom. rewrite length_app. simpl.
      split; [lia | done].
    + by apply AddPlayer_Err_inv in H as ->.
  - destruct (RemovePlayer rn id g) as [r g'] eqn:H; simpl.
    apply RemovePlayer_inv in H as [(_ & _ & ->) | (_ & _ & -> & -> & _)]; [done |].
    split; [| done].
    pose proof (length_filter_le (λ pid, pid ≠ id) (g_Players g)). lia.
  - destruct (StartGame rnd prio g) as [r g'] eqn:H; simpl.
    apply StartGame_players in H as (-> & -> & _). done.
  - by destruct Hop.
Qed.

(** X5.  Every game that [NewGame] makes and the methods [AddPlayer],
    [RemovePlayer], [StartGame] and [ChangeSettings] then work on, in
    any order and with any arguments, has valid settings, has the same
    players in the join order and in the player map, stores every player
    under the player's own identifier, has no two players of the same
    name, has at most 20 players, and keeps its identifier and creation
    time. *)
Theorem game_invariants hostId gameId now gs name g ops :
  NewGame hostId gameId now gs name = Ok g →
  GameWF (run_game_ops ops g) ∧ GameIds (run_game_ops ops g) ∧
  names_unique (run_game_ops ops g) ∧
  Z.of_nat (length (g_Players (run_game_ops ops g))) ≤ MaxPlayers ∧
  g_Id (run_game_ops ops g) = gameId ∧
  g_CreationTime (run_game_ops ops g) = now.
Proof.
  intros Hnew. pose proof (NewGame_WF _ _ _ _ _ _ Hnew) as Hwf.
  assert (GameIds g ∧ names_unique g ∧ Z.of_nat (length (g_Players g)) ≤ MaxPlayers ∧
          g_Id g = gameId ∧ g_CreationTime g = now) as Hrest.
  { revert Hnew. unfold NewGame. destruct (Validate gs); [simpl | done].
    destruct (NewPlayer hostId name) as [p|] eqn:Hp; [| done].
    apply NewPlayer_inv in Hp as [-> _]. intros [= <-].
    unfold GameIds, names_unique. simpl.
    split; [| split; [| done]].
    - intros k p [[<- <-] | [_ Hp]]%lookup_insert_Some; [done |].
      by rewrite lookup_empty in Hp.
    - intros k1 k2 p1 p2 [[<- <-] | [_ H1]]%lookup_insert_Some
        [[<- <-] | [_ H2]]%lookup_insert_Some;
        rewrite ?lookup_empty in *; done. }
  clear Hnew. unfold run_game_ops. revert g Hwf Hrest.
  induction ops as [|op ops IH]; intros g Hwf (Hids & Huniq & Hlen & Hid & Ht);
    [done |].
  simpl. apply IH; [by apply GameWF_step |].
  split; [by apply GameIds_step |]. split; [by apply names_unique_step |].
  destruct Hwf as (Hv & Hwf & Hdom).
  destruct op as [id n | rn id | rnd prio | s]; simpl.
  - destruct (AddPlayer id n g) as [[pid|e] g'] eqn:H; simpl.
    + apply AddPlayer_Ok_inv in H as (-> & Hroom & _ & _ & ->). simpl.
      rewrite (Validate_MaxPlayers _ Hv) in Hroom.
      apply Validate_true in Hv as (_ & _ & _ & [_ Hmax] & _).
      rewrite length_app. simpl. split; [lia | done].
    + by apply AddPlayer_Err_inv in H as ->.
  - destruct (RemovePlayer rn id g) as [r g'] eqn:H; simpl.
    apply RemovePlayer_inv in H
      as [(_ & _ & ->) | (_ & _ & -> & _ & -> & -> & _)]; [done |].
    split; [| done].
    pose proof (length_filter_le (λ pid, pid ≠ id) (g_Players g)). lia.
  - destruct (StartGame rnd prio g) as [r g'] eqn:H; simpl.
    pose proof (StartGame_frame _ _ _ _ _ H) as (-> & -> & _).
    apply StartGame_players in H as (-> & _). done.
  - destruct (gameLogic.ChangeSettings s g) as [r g'] eqn:H; simpl.
    by apply ChangeSettings_inv in H
      as [(_ & _ & ->) | [(_ & _ & _ & ->) | (_ & _ & _ & ->)]].
Qed.

Lemma game_invariants_witness :
  ∃ g, NewGame 1 100 0 (sample_settings [sample_pack 60 10]) "Dave" = Ok g ∧
       names_unique
         (run_game_ops [GAddPlayer 2 "Alice"; GAddPlayer 3 "Dave"; GAddPlayer 3 "Bob";
                        GRemovePlayer 0 1; GStartGame (λ i, i) N.to_nat;
                        GAddPlayer 4 "Carol"] g) ∧
       g_Id (run_game_ops [GAddPlayer 2 "Alice"; GAddPlayer 3 "Dave"; GAddPlayer 3 "Bob";
                           GRemovePlayer 0 1; GStartGame (λ i, i) N.to_nat;
                           GAddPlayer 4 "Carol"] g) = 100%N.
Proof.
  destruct (NewGame 1 100 0 (sample_settings [sample_pack 60 10]) "Dave")
    as [g|] eqn:H; [| by vm_compute in H].
  exists g. split; [done |].
  destruct (game_invariants _ _ _ _ _ _
    [GAddPlayer 2 "Alice"; GAddPlayer 3 "Dave"; GAddPlayer 3 "Bob";
     GRemovePlayer 0 1; GStartGame (λ i, i) N.to_nat; GAddPlayer 4 "Carol"] H)
    as (_ & _ & Hn & _ & Hid & _).
  by split.
Defined.

(** X6.  No overshoot: as long as the settings are not changed, a game
    never has more players than [Settings.MaxPlayers], however many
    [AddPlayer] calls are made; and an [AddPlayer] on a game that is at
    the limit fails and changes nothing. *)
Theorem players_never_exceed_MaxPlayers hostId gameId now gs name g ops :
  NewGame hostId gameId now gs name = Ok g →
  Forall (λ op, ¬ is_GChangeSettings op) ops →
  Z.of_nat (length (g_Players (run_game_ops ops g))) ≤ gs_MaxPlayers gs ∧
  ∀ id n, Z.of_nat (length (g_Players (run_game_ops ops g))) = gs_MaxPlayers gs →
          AddPlayer id n (run_game_ops ops g)
            = (Err ErrGameFull, run_game_ops ops g).
Proof.
  intros Hnew Hops. pose proof (NewGame_WF _ _ _ _ _ _ Hnew) as Hwf.
  assert (g_Settings g = gs ∧ Z.of_nat (length (g_Players g)) ≤ gs_MaxPlayers gs)
    as [Hs Hlen].
  { revert Hnew. unfold NewGame. destruct (Validate gs) eqn:Hv; [simpl | done].
    destruct (NewPlayer hostId name) as [p|]; [| done]. intros [= <-]. simpl.
    apply Validate_true in Hv as (_ & _ & _ & [Hmin _] & _).
    unfold MinPlayers in Hmin. split; [done | lia]. }
  clear Hnew.
  assert (g_Settings (run_game_ops ops g) = gs ∧
          Z.of_nat (length (g_Players (run_game_ops ops g))) ≤ gs_MaxPlayers gs ∧
          GameWF (run_game_ops ops g)) as (Hs' & Hlen' & Hwf').
  { unfold run_game_ops. revert g Hwf Hs Hlen.
    induction Hops as [|op ops Hop _ IH]; intros g Hwf Hs Hlen; [done |].
    simpl. rewrite <- Hs in Hlen.
    destruct (capacity_step g op Hwf Hlen Hop) as [Hlen1 Hs1].
    apply IH; [by apply GameWF_step | by rewrite Hs1 |].
    by rewrite Hs1, Hs in Hlen1. }
  split; [done |]. intros id n Hfull. unfold AddPlayer.
  pose proof (int_of_uint_le (gs_MaxPlayers (g_Settings (run_game_ops ops g)))).
  rewrite Hs' in *.
  destruct (Z.geb_spec (Z.of_nat (length (g_Players (run_game_ops ops g))))
              (int_of_uint (gs_MaxPlayers gs))); [done | lia].
Qed.

Lemma players_never_exceed_MaxPlayers_witness :
  ∃ g, NewGame 1 100 0 (mkGameSettings 10 10 "" 3 [sample_pack 60 10]) "Dave" = Ok g ∧
       length (g_Players (run_game_ops
         [GAddPlayer 2 "Alice"; GAddPlayer 3 "Bob"; GAddPlayer 4 "Carol";
          GAddPlayer 5 "Erin"] g)) = 3%nat.
Proof.
  destruct (NewGame 1 100 0 (mkGameSettings 10 10 "" 3 [sample_pack 60 10]) "Dave")
    as [g|] eqn:H; [| by vm_compute in H].
  exists g. split; [done |].
  destruct (players_never_exceed_MaxPlayers _ _ _ _ _ _
    [GAddPlayer 2 "Alice"; GAddPlayer 3 "Bob"; GAddPlayer 4 "Carol";
     GAddPlayer 5 "Erin"] H) as [Hle _].
  { repeat constructor; by intros []. }
  vm_compute in H. injection H as <-. vm_compute. reflexivity.
Defined.
End game_extra.

(** ** Game: leaving, the public view, the counters and the round view *)

Section range_map.
Context `{Countable K} {V : Type}.
Implicit Types (m : gmap K V) (prio : K → nat).

Lemma range_map_Permutation prio m : range_map prio m ≡ₚ map_to_list m.
Proof. apply merge_sort_Permutation. Qed.

Lemma elem_of_range_map prio m k v : (k, v) ∈ range_map prio m ↔ m !! k = Some v.
Proof. by rewrite range_map_Permutation, elem_of_map_to_list. Qed.

Lemma NoDup_range_map prio m : NoDup (range_map prio m).*1.
Proof. rewrite range_map_Permutation. apply NoDup_fst_map_to_list. Qed.

Lemma length_range_map prio m : length (range_map prio m) = size m.
Proof. by rewrite range_map_Permutation, length_map_to_list. Qed.

Lemma length_filter_map_to_list (P : K * V → Prop) `{∀ x, Decision (P x)} m :
  length (filter P (map_to_list m)) = size (filter P m).
Proof.
  induction m as [|i x m Hi IH] using map_ind.
  - by rewrite map_to_list_empty, map_filter_empty, map_size_empty.
  - rewrite map_to_list_insert, filter_cons, map_filter_insert by done.
    destruct (decide (P (i, x))); simpl.
    + rewrite map_size_insert_None, IH; [done |].
      apply map_lookup_filter_None. by left.
    + by rewrite delete_id.
Qed.
End range_map.

Section game_extra2.
Implicit Types (g : Game) (p : Player) (name : string) (id pid : UUID).

Lemma filter_ne_fresh id (l : list UUID) :
  id ∉ l → filter (λ pid, pid ≠ id) (l ++ [id]) = l.
Proof.
  intros Hid. rewrite filter_app, filter_cons_False, filter_nil, app_nil_r
    by (intros Hne; by apply Hne).
  induction l as [|x l IH]; [done |].
  apply not_elem_of_cons in Hid as [Hx Hl].
  rewrite filter_cons_True by done. by rewrite IH.
Qed.

(** X7.  [RemovePlayer] fails with "Player is not in the game" and
    changes nothing when the identifier is no key of the player map.
    Otherwise the player is gone from the player map and from the join
    order, the other players stay as they are and in the order they
    joined, the count returned is the number of players left, and the
    settings, the state and the round are as before. *)
Theorem RemovePlayer_outcomes rn id g :
  (g_PlayersMap g !! id = None →
   RemovePlayer rn id g = (Err ErrPlayerNotInGame, g)) ∧
  (is_Some (g_PlayersMap g !! id) →
   ∃ res g', RemovePlayer rn id g = (Ok res, g') ∧
     g_PlayersMap g' !! id = None ∧ (id ∉ g_Players g') ∧
     (∀ k, k ≠ id → g_PlayersMap g' !! k = g_PlayersMap g !! k) ∧
     g_Players g' = filter (λ pid, pid ≠ id) (g_Players g) ∧
     prr_PlayersLeft res = length (g_Players g') ∧
     g_Settings g' = g_Settings g ∧ g_GameState g' = g_GameState g ∧
     g_CurrentRound g' = g_CurrentRound g).
Proof.
  destruct (RemovePlayer rn id g) as [r g'] eqn:H.
  apply RemovePlayer_inv in H
    as [(Hnone & -> & ->) |
        (Hsome & Hmap & Hpl & Hs & _ & _ & Hst & Hr & res & -> & Hleft & _)].
  - split; [done |]. intros [? ?]. congruence.
  - split; [intros Hnone; destruct Hsome; congruence |]. intros _.
    exists res, g'. split; [done |]. rewrite Hmap, Hpl.
    split; [apply lookup_delete_eq |].
    split; [intros [? _]%list_elem_of_filter; done |].
    split; [intros k Hk; by apply lookup_delete_ne |].
    by rewrite <- Hpl.
Qed.

Lemma RemovePlayer_outcomes_witness :
  RemovePlayer 0 9 full_lobby = (Err ErrPlayerNotInGame, full_lobby) ∧
  ∃ res g', RemovePlayer 0 2 full_lobby = (Ok res, g') ∧
            g_Players g' = [1; 3]%N ∧ prr_PlayersLeft res = 2%nat.
Proof.
  split.
  - by apply (RemovePlayer_outcomes 0 9 full_lobby).
  - destruct (RemovePlayer_outcomes 0 2 full_lobby) as [_ H].
    destruct H as (res & g' & Hrun & _ & _ & _ & Hpl & Hleft & _); [by eexists |].
    exists res, g'. split; [done |]. rewrite Hleft, Hpl. by split.
Defined.

(** X8.  The owner of a game after [RemovePlayer].  When a player other
    than the owner leaves, the owner stays and no new owner is reported.
    When the owner leaves and players remain, the new owner is one of the
    remaining players, whatever [rand.Intn] returns, and is reported;
    when the owner leaves as the last player, no new owner is reported. *)
Theorem RemovePlayer_owner rn id g res g' :
  RemovePlayer rn id g = (Ok res, g') →
  (id ≠ g_GameOwnerId g →
   g_GameOwnerId g' = g_GameOwnerId g ∧ prr_NewGameOwner res = 0%N) ∧
  (id = g_GameOwnerId g → g_Players g' ≠ [] →
   g_GameOwnerId g' ∈ g_Players g' ∧ g_GameOwnerId g' ≠ id ∧
   prr_NewGameOwner res = g_GameOwnerId g') ∧
  (id = g_GameOwnerId g → g_Players g' = [] → prr_NewGameOwner res = 0%N).
Proof.
  intros H. apply RemovePlayer_inv in H
    as [(_ & [=] & _) | (_ & _ & Hpl & _ & _ & _ & _ & _ & res' & [= <-] & _ & Hown)].
  destruct Hown as [([Hne | Hnil] & Ho & Hn) | (Heq & Hnn & Hin & Hn)].
  - split; [done |]. split; [done | done].
  - split; [done |]. split; [done | done].
  - split; [done |]. split; [| done]. intros _ _. split; [done |]. split; [| done].
    rewrite Hpl in Hin. by apply list_elem_of_filter in Hin as [? _].
Qed.

Lemma RemovePlayer_owner_witness :
  ∃ res g', RemovePlayer 5 1 full_lobby = (Ok res, g') ∧
            g_GameOwnerId full_lobby = 1%N ∧
            g_GameOwnerId g' ∈ g_Players g' ∧ g_GameOwnerId g' ≠ 1%N.
Proof.
  destruct (RemovePlayer 5 1 full_lobby) as [r g'] eqn:H.
  assert (∃ res, r = Ok res) as [res ->]
    by (vm_compute in H; injection H as <- _; by eexists).
  exists res, g'. split; [done |]. split; [done |].
  destruct (RemovePlayer_owner _ _ _ _ _ H) as (_ & Hnew & _).
  destruct Hnew as (? & ? & _); [done | | done].
  vm_compute in H. injection H as _ <-. done.
Defined.

(** X9.  A player who joins and then leaves: when the identifier minted
    for the player is new to the game, [RemovePlayer] after a successful
    [AddPlayer] gives back the game as it was, and reports the number of
    players the game had. *)
Theorem AddPlayer_then_RemovePlayer rn id name g pid g1 :
  id ∉ g_Players g → g_PlayersMap g !! id = None → id ≠ g_GameOwnerId g →
  AddPlayer id name g = (Ok pid, g1) →
  RemovePlayer rn pid g1
    = (Ok (mkPlayerRemovalResult 0 (length (g_Players g))), g).
Proof.
  intros Hlist Hmap Howner (-> & _ & _ & _ & ->)%AddPlayer_Ok_inv.
  unfold RemovePlayer. simpl. rewrite lookup_insert_eq. simpl.
  rewrite bool_decide_eq_false_2 by done. simpl.
  rewrite filter_ne_fresh, delete_insert_eq, delete_id by done.
  by destruct g.
Qed.

Lemma AddPlayer_then_RemovePlayer_witness :
  ∃ g1, AddPlayer 4 "Carol" full_lobby = (Ok 4%N, g1) ∧
        RemovePlayer 0 4 g1 = (Ok (mkPlayerRemovalResult 0 3), full_lobby).
Proof.
  destruct (AddPlayer 4 "Carol" full_lobby) as [r g1] eqn:H.
  assert (r = Ok 4%N) as -> by (by vm_compute in H; injection H as <- _).
  exists g1. split; [done |].
  apply (AddPlayer_then_RemovePlayer 0 4 "Carol" full_lobby 4 g1);
    [set_solver | done | done | done].
Defined.

Lemma StateInfo_player_Some g id q :
  StateInfo_player g id = Some q ↔
  ∃ p, g_PlayersMap g !! id = Some p ∧
       q = mkPlayer id (p_Name p) ∅ None (p_Connected p) (p_Points p).
Proof.
  unfold StateInfo_player. destruct (g_PlayersMap g !! id) as [p|]; simpl.
  - split; [intros [= <-]; by exists p | by intros (? & [= <-] & ->)].
  - split; [done | by intros (? & [=] & _)].
Qed.

(** X10.  [StateInfo] panics exactly when an identifier of the join
    order is no key of the player map, which does not happen in a game as
    the program builds them.  Otherwise it lists the players in the order
    they joined, each with the identifier of the join order and the name,
    points and connectivity of the player stored under it, and it hands
    out the settings of the game whole, password included. *)
Theorem StateInfo_join_order g :
  (StateInfo g = None ↔ ∃ id, id ∈ g_Players g ∧ g_PlayersMap g !! id = None) ∧
  (∀ info, StateInfo g = Some info →
     p_Id <$> gsi_Players info = g_Players g ∧
     Forall2 (λ id q, ∃ p, g_PlayersMap g !! id = Some p ∧
                q = mkPlayer id (p_Name p) ∅ None (p_Connected p) (p_Points p))
       (g_Players g) (gsi_Players info) ∧
     gsi_Settings info = g_Settings g ∧ gsi_GameState info = g_GameState g ∧
     gsi_GameOwnerId info = g_GameOwnerId g ∧ gsi_Id info = g_Id g) ∧
  (GameWF g → is_Some (StateInfo g)).
Proof.
  assert (StateInfo g = None ↔ ∃ id, id ∈ g_Players g ∧ g_PlayersMap g !! id = None)
    as Hnone.
  { unfold StateInfo.
    destruct (mapM (StateInfo_player g) (g_Players g)) as [ps|] eqn:Hps; simpl.
    - split; [done |]. intros (id & Hid & Hmiss).
      apply mapM_Some_1 in Hps.
      apply list_elem_of_lookup in Hid as [i Hi].
      destruct (Forall2_lookup_l _ _ _ _ _ Hps Hi) as (q & _ & Hq).
      apply StateInfo_player_Some in Hq as (p & Hp & _). congruence.
    - split; [| done]. intros _. apply mapM_None_1 in Hps.
      apply Exists_exists in Hps as (id & Hid & Hq). exists id. split; [done |].
      destruct (g_PlayersMap g !! id) as [p|] eqn:Hp; [| done].
      unfold StateInfo_player in Hq. by rewrite Hp in Hq. }
  split; [done |]. split.
  - unfold StateInfo. intros info.
    destruct (mapM (StateInfo_player g) (g_Players g)) as [ps|] eqn:Hps; [| done].
    simpl. intros [= <-]. simpl. apply mapM_Some_1 in Hps.
    assert (Forall2 (λ id q, ∃ p, g_PlayersMap g !! id = Some p ∧
                       q = mkPlayer id (p_Name p) ∅ None (p_Connected p) (p_Points p))
              (g_Players g) ps) as Hall.
    { eapply Forall2_impl; [exact Hps |]. intros id q Hq.
      by apply StateInfo_player_Some. }
    split; [| by split]. clear Hps Hnone.
    induction Hall as [|id q ids qs (p & _ & ->) _ IH]; [done |].
    by rewrite fmap_cons, IH.
  - intros (_ & Hwf & _). apply not_eq_None_Some. rewrite Hnone.
    intros (id & Hid & Hmiss). destruct (Hwf id Hid) as (p & Hp & _). congruence.
Qed.

Lemma StateInfo_join_order_witness :
  ∃ info, StateInfo full_lobby_with_cards = Some info ∧
          p_Id <$> gsi_Players info = [1; 2; 3]%N ∧
          p_Name <$> gsi_Players info = ["Dave"; "Alice"; "Bob"].
Proof.
  destruct (StateInfo full_lobby_with_cards) as [info|] eqn:H;
    [| by vm_compute in H].
  exists info. split; [done |].
  destruct (StateInfo_join_order full_lobby_with_cards) as (_ & Hok & _).
  destruct (Hok info H) as (Hids & _). split; [done |].
  vm_compute in H. injection H as <-. reflexivity.
Defined.
(** What the loop of [Metrics] counts, from any starting values. *)
Lemma Metrics_fold (entries : list (UUID * Player)) (c n : Z) :
  foldl (λ metrics entry,
           let player : Player := entry.2 in
           let metrics := mkGameMetrics (gm_PlayersConnected metrics)
                            (gm_Players metrics + 1) in
           if p_Connected player
           then mkGameMetrics (gm_PlayersConnected metrics + 1) (gm_Players metrics)
           else metrics)
    (mkGameMetrics c n) entries
  = mkGameMetrics
      (c + Z.of_nat (length (filter (λ kv, p_Connected kv.2 = true) entries)))
      (n + Z.of_nat (length entries)).
Proof.
  revert c n. induction entries as [|[k p] entries IH]; intros c n.
  - simpl. by rewrite !Z.add_0_r.
  - cbn [foldl snd]. cbv zeta. rewrite filter_cons.
    destruct (decide (p_Connected (k, p).2 = true)) as [Hc | Hc]; cbn [snd] in Hc.
    + rewrite Hc. cbn [gm_PlayersConnected gm_Players]. rewrite IH.
      cbn [length]. f_equal; lia.
    + apply not_true_is_false in Hc. rewrite Hc.
      cbn [gm_PlayersConnected gm_Players]. rewrite IH. cbn [length]. f_equal; lia.
Qed.

(** X11.  [Metrics] counts the players of the player map and, among
    them, the connected ones, whatever the order in which the map is
    walked; the count of connected players is never above the count of
    players. *)
Theorem Metrics_counts prio g :
  gm_Players (Metrics prio g) = Z.of_nat (size (g_PlayersMap g)) ∧
  gm_PlayersConnected (Metrics prio g)
    = Z.of_nat (size (connected_players (g_PlayersMap g))) ∧
  0 ≤ gm_PlayersConnected (Metrics prio g) ≤ gm_Players (Metrics prio g).
Proof.
  unfold Metrics. rewrite Metrics_fold. simpl.
  rewrite length_range_map, range_map_Permutation, length_filter_map_to_list.
  fold (connected_players (g_PlayersMap g)).
  pose proof (map_size_filter (λ kv : UUID * Player, p_Connected kv.2 = true)
                (g_PlayersMap g)).
  unfold connected_players. split; [done |]. split; [done |]. lia.
Qed.

Lemma RoundInfo_fold (cprio : UUID → Z → nat) entries info :
  NoDup entries.*1 →
  (∀ k p, (k, p) ∈ entries → p_Id p = k) →
  let final :=
    foldl (λ info (entry : UUID * Player),
             let player := entry.2 in
             let cards := (range_map (cprio entry.1) (p_Hand player)).*2 in
             set_PlayerHands (<[p_Id player := cards]> (ri_PlayerHands info)) info)
      info entries in
  (∀ k p, (k, p) ∈ entries →
          ri_PlayerHands final !! k = Some (range_map (cprio k) (p_Hand p)).*2) ∧
  (∀ k, k ∉ entries.*1 → ri_PlayerHands final !! k = ri_PlayerHands info !! k) ∧
  ri_CurrentBlackCard final = ri_CurrentBlackCard info ∧
  ri_CurrentCardCzarId final = ri_CurrentCardCzarId info ∧
  ri_RoundNumber final = ri_RoundNumber info.
Proof.
  revert info. induction entries as [|[k0 p0] entries IH]; intros info Hnd Hids.
  - simpl. split; [by intros k p ?%elem_of_nil | done].
  - rewrite fmap_cons in Hnd. apply NoDup_cons in Hnd as [Hk0 Hnd].
    cbn [foldl]. cbv zeta. cbn [fst snd].
    set (info1 := set_PlayerHands _ info).
    destruct (IH info1 Hnd) as (Hin & Hout & Hb & Hc & Hr).
    { intros k p Hp. apply Hids. by right. }
    cbv zeta in Hin, Hout, Hb, Hc, Hr.
    assert (p_Id p0 = k0) as Hid0 by (apply Hids; left).
    split; [| split; [| by rewrite Hb, Hc, Hr]].
    + intros k p [[= -> ->] | Hp]%elem_of_cons; [| by apply Hin].
      rewrite Hout by done. unfold info1. simpl.
      by rewrite Hid0, lookup_insert_eq.
    + intros k [Hne Hk]%not_elem_of_cons. simpl in Hne.
      rewrite Hout by done. unfold info1. simpl.
      rewrite Hid0. by rewrite lookup_insert_ne.
Qed.

(** X12.  [Game.RoundInfo] fails with "The game is not in the white card
    selection phase" in every other state.  In that state, for a game
    whose players are stored under their own identifiers, it reports the
    current black card, czar and round, and for each player of the player
    map, and for nobody else, the cards of the player's hand, each once,
    in some order. *)
Theorem Game_RoundInfo_outcomes prio cprio g :
  (g_GameState g ≠ GameStateWhiteCardsBeingSelected →
   Game_RoundInfo prio cprio g = Err ErrNotSelecting) ∧
  (g_GameState g = GameStateWhiteCardsBeingSelected → GameIds g →
   ∃ info, Game_RoundInfo prio cprio g = Ok info ∧
     ri_CurrentBlackCard info = g_CurrentBlackCard g ∧
     ri_CurrentCardCzarId info = g_CurrentCardCzarId g ∧
     ri_RoundNumber info = g_CurrentRound g ∧
     dom (ri_PlayerHands info) = dom (g_PlayersMap g) ∧
     ∀ k p, g_PlayersMap g !! k = Some p →
            ∃ cards, ri_PlayerHands info !! k = Some cards ∧
                     cards ≡ₚ (map_to_list (p_Hand p)).*2 ∧
                     length cards = CardsInHand p).
Proof.
  unfold Game_RoundInfo. split.
  - intros Hs. by rewrite bool_decide_eq_false_2.
  - intros Hs Hids. rewrite bool_decide_eq_true_2 by done. cbn [negb]. cbv zeta.
    pose proof (RoundInfo_fold cprio (range_map prio (g_PlayersMap g))
                  (mkRoundInfo ∅ (g_CurrentBlackCard g) (g_CurrentCardCzarId g)
                     (g_CurrentRound g)) (NoDup_range_map _ _)) as Hfold.
    cbv zeta in Hfold. destruct Hfold as (Hin & Hout & Hb & Hc & Hr).
    { intros k p Hp%elem_of_range_map. by apply Hids. }
    eexists. split; [reflexivity |].
    split; [exact Hb |]. split; [exact Hc |]. split; [exact Hr |]. split.
    + apply set_eq. intros k. rewrite !elem_of_dom.
      destruct (g_PlayersMap g !! k) as [p|] eqn:Hp.
      * rewrite (Hin k p) by by apply elem_of_range_map. split; by eexists.
      * rewrite Hout; [simpl; by rewrite lookup_empty |].
        intros [[k' p] [-> Hkp%elem_of_range_map]]%list_elem_of_fmap.
        simpl in Hp. congruence.
    + intros k p Hp. eexists. split; [apply Hin; by apply elem_of_range_map |].
      split; [by rewrite range_map_Permutation |].
      by rewrite length_fmap, length_range_map.
Qed.

Lemma sample_lobby_Ids packs : GameIds (sample_lobby packs).
Proof.
  intros k p Hp. simpl in Hp.
  repeat (apply lookup_insert_Some in Hp as [[<- <-] | [_ Hp]]; [done |]).
  by rewrite lookup_empty in Hp.
Qed.

Lemma started_game_Ids : GameIds started_game.
Proof.
  apply (GameIds_step full_lobby (GStartGame (λ i, i) N.to_nat)).
  - by apply sample_lobby_WF.
  - apply sample_lobby_Ids.
Qed.

Lemma Game_RoundInfo_outcomes_witness :
  Game_RoundInfo N.to_nat (λ _, Z.to_nat) full_lobby = Err ErrNotSelecting ∧
  ∃ info, Game_RoundInfo N.to_nat (λ _, Z.to_nat) started_game = Ok info ∧
          dom (ri_PlayerHands info) = dom (g_PlayersMap started_game).
Proof.
  split.
  - by apply (Game_RoundInfo_outcomes N.to_nat (λ _, Z.to_nat) full_lobby).
  - destruct (Game_RoundInfo_outcomes N.to_nat (λ _, Z.to_nat) started_game) as [_ H].
    destruct H as (info & Hinfo & _ & _ & _ & Hdom & _).
    + by vm_compute.
    + apply started_game_Ids.
    + exists info. split; [exact Hinfo | exact Hdom].
Defined.
End game_extra2.

(** ** Game: what [StartGame] deals and reports *)

Section start_extra.
Implicit Types (g : Game) (p : Player) (deck : CardDeck)
  (cards : list WhiteCard) (entries : list (UUID * Player)).

Lemma cardIndexSlice_dom cards :
  dom (cardIndexSlice cards) = list_to_set (wc_Id <$> cards).
Proof.
  unfold cardIndexSlice. rewrite foldl_insert_dom, dom_empty_L. set_solver.
Qed.

Lemma cardIndexSlice_snoc cards card :
  cardIndexSlice (cards ++ [card]) = <[wc_Id card := card]> (cardIndexSlice cards).
Proof. unfold cardIndexSlice. by rewrite foldl_snoc. Qed.

(** With different identifiers, the cards stored in [cardIndexSlice] are
    the cards it was built from. *)
Lemma cardIndexSlice_cards cards :
  NoDup (wc_Id <$> cards) → (map_to_list (cardIndexSlice cards)).*2 ≡ₚ cards.
Proof.
  induction cards as [|card cards IH] using rev_ind; intros Hnd.
  - unfold cardIndexSlice. simpl. by rewrite map_to_list_empty.
  - rewrite fmap_app in Hnd. apply NoDup_app in Hnd as (Hnd & Hnew & _).
    rewrite cardIndexSlice_snoc, map_to_list_insert.
    + rewrite fmap_cons, IH by done. simpl.
      by rewrite (Permutation_app_comm cards [card]).
    + apply not_elem_of_dom. rewrite cardIndexSlice_dom.
      rewrite elem_of_list_to_set. intros Hin. apply (Hnew _ Hin). set_solver.
Qed.

(** Along the dealing loop: the hands dealt are taken out of the deck,
    each from what the hands before left. *)
Lemma StartGame_deal_disjoint entries rnd deck info g info' g' :
  NoDup entries.*1 →
  NoDup (wc_Id <$> cd_WhiteCards deck) →
  g_CardDeck g = Some deck →
  StartGame_deal rnd deck entries info g = (Ok info', g') →
  ∃ deck',
    g_CardDeck g' = Some deck' ∧
    cd_BlackCards deck' = cd_BlackCards deck ∧
    white_ids deck' ⊆ white_ids deck ∧
    (∀ k p, k ∈ entries.*1 → g_PlayersMap g' !! k = Some p →
            dom (p_Hand p) ⊆ white_ids deck ∖ white_ids deck') ∧
    (∀ k1 k2 p1 p2, k1 ∈ entries.*1 → k2 ∈ entries.*1 → k1 ≠ k2 →
       g_PlayersMap g' !! k1 = Some p1 → g_PlayersMap g' !! k2 = Some p2 →
       dom (p_Hand p1) ## dom (p_Hand p2)).
Proof.
  revert rnd deck info g.
  induction entries as [|[k0 p0] entries IH]; intros rnd deck info g Hkeys Hnd Hdeck.
  - simpl. intros [= <- <-]. exists deck. split; [done |]. split; [done |].
    split; [done |]. split; [by intros ? ? ?%elem_of_nil |].
    by intros ? ? ? ? ?%elem_of_nil.
  - rewrite StartGame_deal_cons.
    destruct (GetNewWhiteCards rnd HandSize deck) as [res deck1] eqn:Hd.
    apply GetNewWhiteCards_inv in Hd as [(-> & _) | (cs & -> & Hlen & Hp & Hbl)];
      [done |].
    rewrite fmap_cons in Hkeys. apply NoDup_cons in Hkeys as [Hk0 Hkeys].
    pose proof Hnd as Hnd'. rewrite Hp, fmap_app in Hnd'.
    apply NoDup_app in Hnd' as (Hcs & Hsep & Hnd1).
    assert (white_ids deck = list_to_set (wc_Id <$> cs) ∪ white_ids deck1) as Hsplit.
    { rewrite Hp, fmap_app, list_to_set_app_L. done. }
    assert (list_to_set (wc_Id <$> cs) ## white_ids deck1) as Hdisj.
    { intros x Hx1%elem_of_list_to_set Hx2%elem_of_list_to_set. by eapply Hsep. }
    intros Hdeal.
    destruct (StartGame_deal_Ok _ _ _ _ _ _ _ Hnd1 Hdeal) as [_ Hout].
    apply IH in Hdeal as (deck' & Hd' & Hb' & Hsub & Hhands & Hpair);
      [| done | done | done].
    simpl in Hout.
    assert (∀ p, g_PlayersMap g' !! k0 = Some p →
                 dom (p_Hand p) = list_to_set (wc_Id <$> cs)) as Hhead.
    { intros p. rewrite Hout, lookup_insert_eq by done. intros [= <-]. simpl.
      apply cardIndexSlice_dom. }
    exists deck'. split; [done |]. split; [by rewrite Hb' |].
    split; [set_solver |]. split.
    + intros k p [-> | Hk]%elem_of_cons Hkp.
      * rewrite (Hhead _ Hkp). set_solver.
      * specialize (Hhands k p Hk Hkp). set_solver.
    + intros k1 k2 p1 p2 [-> | Hk1]%elem_of_cons [-> | Hk2]%elem_of_cons Hne H1 H2.
      * done.
      * rewrite (Hhead _ H1). specialize (Hhands k2 p2 Hk2 H2). set_solver.
      * rewrite (Hhead _ H2). specialize (Hhands k1 p1 Hk1 H1). set_solver.
      * by apply (Hpair k1 k2).
Qed.

Lemma NoDup_range_players_keys prio (m : gmap UUID Player) :
  NoDup (range_players prio m).*1.
Proof. rewrite range_players_Permutation. apply NoDup_fst_map_to_list. Qed.

Lemma StartGame_Ok_inv rnd prio g info g' :
  StartGame rnd prio g = (Ok info, g') →
  ∃ deck blackCard deck1,
    AccumalateCardPacks (gs_CardPacks (g_Settings g)) = Ok deck ∧
    GetNewBlackCard (rand_head rnd) deck = (Ok blackCard, deck1) ∧
    StartGame_deal (rand_tail rnd) deck1 (range_players prio (g_PlayersMap g))
      (mkRoundInfo ∅ (Some blackCard) (g_CurrentCardCzarId g)
         (uint_succ (g_CurrentRound g)))
      (set_CurrentRound (uint_succ (g_CurrentRound g))
         (set_GameState GameStateWhiteCardsBeingSelected
            (set_CurrentBlackCard (Some blackCard) (set_CardDeck (Some deck1) g))))
    = (Ok info, g').
Proof.
  rewrite StartGame_unfold.
  case_decide; [| done]. case_decide; [done |].
  destruct (AccumalateCardPacks _) as [deck|]; [| done].
  destruct (GetNewBlackCard (rand_head rnd) deck) as [[c|e] deck1] eqn:Hb; [| done].
  cbv zeta. intros Hdeal. by exists deck, c, deck1.
Qed.

Lemma StartGame_keys rnd prio g r g' k :
  StartGame rnd prio g = (r, g') →
  is_Some (g_PlayersMap g' !! k) ↔ k ∈ (range_players prio (g_PlayersMap g)).*1.
Proof.
  intros (_ & _ & Hmap)%StartGame_players. specialize (Hmap k).
  rewrite list_elem_of_fmap. split.
  - intros [p' Hp']. rewrite Hp' in Hmap.
    destruct (g_PlayersMap g !! k) as [p|] eqn:Hp; [| done].
    exists (k, p). split; [done |]. by apply elem_of_range_players.
  - intros ([k' p] & -> & Hp%elem_of_range_players). simpl in *.
    rewrite Hp in Hmap. destruct (g_PlayersMap g' !! k'); [by eexists | done].
Qed.

(** X13.  A successful [StartGame] deals no card twice: the hands of two
    different players have no card identifier in common, no dealt card is
    left in the deck of the game, and the black card of the round is no
    longer in the deck either. *)
Theorem StartGame_deals_without_collision rnd prio g info g' :
  StartGame rnd prio g = (Ok info, g') →
  ∃ deck' blackCard,
    g_CardDeck g' = Some deck' ∧ g_CurrentBlackCard g' = Some blackCard ∧
    (bc_Id blackCard ∉ bc_Id <$> cd_BlackCards deck') ∧
    (∀ k p card, g_PlayersMap g' !! k = Some p → card ∈ cd_WhiteCards deck' →
                 p_Hand p !! wc_Id card = None) ∧
    (∀ k1 k2 p1 p2, k1 ≠ k2 →
       g_PlayersMap g' !! k1 = Some p1 → g_PlayersMap g' !! k2 = Some p2 →
       dom (p_Hand p1) ## dom (p_Hand p2)).
Proof.
  intros H. pose proof (λ k, StartGame_keys _ _ _ _ _ k H) as Hkeys.
  apply StartGame_Ok_inv in H as (deck & c & deck1 & Hdeck & Hb & Hdeal).
  apply AccumalateCardPacks_inv in Hdeck as (_ & Hw & Hbl & _).
  apply GetNewBlackCard_inv in Hb as [([=] & _) | (c' & [= <-] & Hperm & Hsame)].
  rewrite <- Hsame in Hw.
  destruct (StartGame_deal_frame _ _ _ _ _ _ _ Hdeal)
    as [(_ & _ & _ & _ & _ & _ & Hbc & _) _]. simpl in Hbc.
  apply StartGame_deal_disjoint in Hdeal
    as (deck' & Hd' & Hb' & _ & Hhands & Hpair);
    [| apply NoDup_range_players_keys | done | done].
  exists deck', c. split; [done |]. split; [done |]. split; [| split].
  - rewrite Hb'. rewrite Hperm, fmap_cons in Hbl. by apply NoDup_cons in Hbl as [? _].
  - intros k p card Hp Hcard. apply not_elem_of_dom.
    assert (k ∈ (range_players prio (g_PlayersMap g)).*1) as Hk
      by (apply Hkeys; by eexists).
    specialize (Hhands k p Hk Hp).
    assert (wc_Id card ∈ white_ids deck') as Hin
      by (apply elem_of_list_to_set; by apply list_elem_of_fmap_2).
    set_solver.
  - intros k1 k2 p1 p2 Hne H1 H2.
    apply (Hpair k1 k2); [apply Hkeys; by eexists | apply Hkeys; by eexists | done ..].
Qed.

Lemma StartGame_deals_without_collision_witness :
  ∃ info g' p1 p2,
    StartGame (λ i, (7 * i + 2)%nat) N.to_nat full_lobby = (Ok info, g') ∧
    g_PlayersMap g' !! 1%N = Some p1 ∧ g_PlayersMap g' !! 3%N = Some p2 ∧
    dom (p_Hand p1) ## dom (p_Hand p2).
Proof.
  destruct (StartGame (λ i, (7 * i + 2)%nat) N.to_nat full_lobby) as [r g'] eqn:H.
  assert (∃ info, r = Ok info) as [info ->]
    by (vm_compute in H; injection H as <- _; by eexists).
  destruct (g_PlayersMap g' !! 1%N) as [p1|] eqn:H1;
    [| by vm_compute in H; injection H as _ <-].
  destruct (g_PlayersMap g' !! 3%N) as [p2|] eqn:H2;
    [| by vm_compute in H; injection H as _ <-].
  exists info, g', p1, p2. split; [done |]. split; [done |]. split; [done |].
  destruct (StartGame_deals_without_collision _ _ _ _ _ H)
    as (deck' & c & _ & _ & _ & _ & Hpair).
  by apply (Hpair 1%N 3%N).
Defined.
End start_extra.

Section start_info.
Implicit Types (g : Game) (p : Player) (deck : CardDeck)
  (cards : list WhiteCard) (entries : list (UUID * Player)).

(** Along the dealing loop: what is written into the [RoundInfo] is what
    is put into the hands. *)
Lemma StartGame_deal_info entries rnd deck info g info' g' :
  NoDup entries.*1 →
  (∀ k p, (k, p) ∈ entries → p_Id p = k) →
  NoDup (wc_Id <$> cd_WhiteCards deck) →
  StartGame_deal rnd deck entries info g = (Ok info', g') →
  (∀ k, k ∈ entries.*1 →
     ∃ cards p, ri_PlayerHands info' !! k = Some cards ∧
       g_PlayersMap g' !! k = Some p ∧ p_Hand p = cardIndexSlice cards ∧
       length cards = HandSize ∧ NoDup (wc_Id <$> cards)) ∧
  (∀ k, k ∉ entries.*1 → ri_PlayerHands info' !! k = ri_PlayerHands info !! k) ∧
  ri_CurrentBlackCard info' = ri_CurrentBlackCard info ∧
  ri_CurrentCardCzarId info' = ri_CurrentCardCzarId info ∧
  ri_RoundNumber info' = ri_RoundNumber info.
Proof.
  revert rnd deck info g.
  induction entries as [|[k0 p0] entries IH]; intros rnd deck info g Hkeys Hids Hnd.
  - simpl. intros [= <- <-]. split; [by intros k ?%elem_of_nil | done].
  - rewrite StartGame_deal_cons.
    destruct (GetNewWhiteCards rnd HandSize deck) as [res deck1] eqn:Hd.
    apply GetNewWhiteCards_inv in Hd as [(-> & _) | (cs & -> & Hlen & Hp & _)];
      [done |].
    rewrite fmap_cons in Hkeys. apply NoDup_cons in Hkeys as [Hk0 Hkeys].
    rewrite Hp, fmap_app in Hnd. apply NoDup_app in Hnd as (Hcs & _ & Hnd1).
    assert (p_Id p0 = k0) as Hid0 by (apply Hids; left).
    intros Hdeal.
    destruct (StartGame_deal_Ok _ _ _ _ _ _ _ Hnd1 Hdeal) as [_ Hout].
    apply IH in Hdeal as (Hin & Hinfo & Hb & Hc & Hr);
      [| done | intros k p Hkp; apply Hids; by right | done].
    simpl in Hout, Hinfo, Hb, Hc, Hr. rewrite Hid0 in Hinfo.
    split; [| split; [| done]].
    + intros k [-> | Hk]%elem_of_cons; [| by apply Hin].
      exists cs, (set_Hand (cardIndexSlice cs) p0).
      rewrite Hinfo, Hout, !lookup_insert_eq by done. done.
    + intros k Hk. rewrite fmap_cons, not_elem_of_cons in Hk.
      destruct Hk as [Hne Hk]. simpl in Hne.
      rewrite Hinfo, lookup_insert_ne by done. done.
Qed.

Lemma StartGame_info_hands rnd prio g info g' :
  GameIds g →
  StartGame rnd prio g = (Ok info, g') →
  g_GameState g' = GameStateWhiteCardsBeingSelected ∧
  g_CurrentRound g' = uint_succ (g_CurrentRound g) ∧
  ri_RoundNumber info = g_CurrentRound g' ∧
  ri_CurrentBlackCard info = g_CurrentBlackCard g' ∧
  ri_CurrentCardCzarId info = g_CurrentCardCzarId g' ∧
  (∀ k, is_Some (ri_PlayerHands info !! k) ↔ is_Some (g_PlayersMap g' !! k)) ∧
  ∀ k p, g_PlayersMap g' !! k = Some p →
         ∃ cards, ri_PlayerHands info !! k = Some cards ∧
                  p_Hand p = cardIndexSlice cards ∧
                  length cards = HandSize ∧ NoDup (wc_Id <$> cards).
Proof.
  intros Hids H. pose proof (λ k, StartGame_keys _ _ _ _ _ k H) as Hkeys.
  apply StartGame_Ok_inv in H as (deck & c & deck1 & Hdeck & Hb & Hdeal).
  apply AccumalateCardPacks_inv in Hdeck as (_ & Hw & _).
  apply GetNewBlackCard_inv in Hb as [([=] & _) | (c' & [= <-] & _ & Hsame)].
  rewrite <- Hsame in Hw.
  destruct (StartGame_deal_frame _ _ _ _ _ _ _ Hdeal)
    as [(_ & _ & Hcz & _ & Hrd & _ & Hbc & _ & Hst) _].
  simpl in Hcz, Hrd, Hbc, Hst.
  apply StartGame_deal_info in Hdeal as (Hin & Hout & Hb & Hc & Hr);
    [| apply NoDup_range_players_keys
     | intros k p Hkp%elem_of_range_players; by apply Hids | done].
  simpl in Hout, Hb, Hc, Hr.
  split; [done |]. split; [done |]. split; [by rewrite Hr, Hrd |].
  split; [by rewrite Hb, Hbc |]. split; [by rewrite Hc, Hcz |]. split.
  - intros k. rewrite Hkeys. split.
    + intros Hsome.
      destruct (decide (k ∈ (range_players prio (g_PlayersMap g)).*1)) as [|Hk];
        [done |].
      rewrite (Hout k Hk), lookup_empty in Hsome. by destruct Hsome.
    + intros (cards & p & -> & _)%Hin. by eexists.
  - intros k p Hp.
    assert (k ∈ (range_players prio (g_PlayersMap g)).*1) as Hk
      by (apply Hkeys; by eexists).
    destruct (Hin k Hk) as (cards & p' & Hi & Hp' & Hh & Hl & Hn).
    rewrite Hp in Hp'. injection Hp' as <-. by exists cards.
Qed.

(** X14.  The [RoundInfo] a successful [StartGame] returns describes the
    game it leaves, when the players are stored under their own
    identifiers: the game is in the white card selection state with its
    round counter one up; the information holds that round number, the
    black card and the czar of the game; it lists exactly the players of
    the player map, and for each the seven cards that are now the player's
    hand, with seven different identifiers. *)
Theorem StartGame_info_matches_game rnd prio g info g' :
  GameIds g →
  StartGame rnd prio g = (Ok info, g') →
  g_GameState g' = GameStateWhiteCardsBeingSelected ∧
  g_CurrentRound g' = uint_succ (g_CurrentRound g) ∧
  ri_RoundNumber info = g_CurrentRound g' ∧
  ri_CurrentBlackCard info = g_CurrentBlackCard g' ∧
  ri_CurrentCardCzarId info = g_CurrentCardCzarId g' ∧
  dom (ri_PlayerHands info) = dom (g_PlayersMap g') ∧
  ∀ k p, g_PlayersMap g' !! k = Some p →
         ∃ cards, ri_PlayerHands info !! k = Some cards ∧
                  length cards = 7%nat ∧ NoDup (wc_Id <$> cards) ∧
                  CardsInHand p = 7%nat ∧
                  ∀ card, card ∈ cards ↔ p_Hand p !! wc_Id card = Some card.
Proof.
  intros Hids H.
  destruct (StartGame_info_hands _ _ _ _ _ Hids H)
    as (Hst & Hrd & Hr & Hb & Hc & Hdom & Hhands).
  split; [done |]. split; [done |]. split; [done |]. split; [done |].
  split; [done |]. split.
  - apply set_eq. intros k. rewrite !elem_of_dom. apply Hdom.
  - intros k p Hp. destruct (Hhands k p Hp) as (cards & Hi & Hh & Hl & Hn).
    pose proof (cardIndexSlice_cards cards Hn) as Hperm.
    exists cards. split; [done |]. split; [done |]. split; [done |]. split.
    + unfold CardsInHand. rewrite Hh, <- length_map_to_list.
      rewrite <- (length_fmap snd), Hperm. done.
    + intros card. rewrite Hh.
      transitivity (card ∈ (map_to_list (cardIndexSlice cards)).*2);
        [by rewrite Hperm |].
      rewrite list_elem_of_fmap. split.
      * intros ([k' card'] & -> & Hin%elem_of_map_to_list). simpl.
        pose proof Hin as Hin'. unfold cardIndexSlice in Hin'.
        apply foldl_insert_lookup in Hin' as [[<- _] | Hin']; [done |].
        by rewrite lookup_empty in Hin'.
      * intros Hin. exists (wc_Id card, card). split; [done |].
        by apply elem_of_map_to_list.
Qed.

Lemma StartGame_info_matches_game_witness :
  ∃ info g', StartGame (λ i, i) N.to_nat full_lobby = (Ok info, g') ∧
    dom (ri_PlayerHands info) = dom (g_PlayersMap g') ∧
    ri_RoundNumber info = g_CurrentRound g'.
Proof.
  destruct (StartGame (λ i, i) N.to_nat full_lobby) as [r g'] eqn:H.
  assert (∃ info, r = Ok info) as [info ->]
    by (vm_compute in H; injection H as <- _; by eexists).
  exists info, g'. split; [done |].
  destruct (StartGame_info_matches_game _ _ _ _ _ (sample_lobby_Ids _) H)
    as (_ & _ & Hr & _ & _ & Hdom & _).
  split; [exact Hdom | exact Hr].
Defined.
End start_info.

Section start_more.
Implicit Types (g : Game) (p : Player) (cards : list WhiteCard).

Lemma StartGame_GameIds rnd prio g r g' :
  GameIds g → StartGame rnd prio g = (r, g') → GameIds g'.
Proof.
  intros Hids H k p' Hp'.
  destruct (StartGame_lookup _ _ _ _ _ _ _ H Hp') as (p & Hp & -> & _).
  by apply Hids.
Qed.

(** X15.  [RoundInfo], called on the game a successful [StartGame]
    leaves, succeeds and repeats what [StartGame] returned: the same round
    number, black card and czar, the same players, and for each player the
    same cards, in an order of its own. *)
Theorem RoundInfo_after_StartGame rnd prio prio' cprio g info g' :
  GameIds g →
  StartGame rnd prio g = (Ok info, g') →
  ∃ info', Game_RoundInfo prio' cprio g' = Ok info' ∧
    ri_RoundNumber info' = ri_RoundNumber info ∧
    ri_CurrentBlackCard info' = ri_CurrentBlackCard info ∧
    ri_CurrentCardCzarId info' = ri_CurrentCardCzarId info ∧
    dom (ri_PlayerHands info') = dom (ri_PlayerHands info) ∧
    ∀ k cards, ri_PlayerHands info !! k = Some cards →
               ∃ cards', ri_PlayerHands info' !! k = Some cards' ∧ cards' ≡ₚ cards.
Proof.
  intros Hids H. pose proof (StartGame_GameIds _ _ _ _ _ Hids H) as Hids'.
  destruct (StartGame_info_hands _ _ _ _ _ Hids H)
    as (Hst & _ & Hr & Hb & Hc & Hdom & Hhands).
  unfold Game_RoundInfo. rewrite bool_decide_eq_true_2 by done.
  cbn [negb]. cbv zeta.
  pose proof (RoundInfo_fold cprio (range_map prio' (g_PlayersMap g'))
                (mkRoundInfo ∅ (g_CurrentBlackCard g') (g_CurrentCardCzarId g')
                   (g_CurrentRound g')) (NoDup_range_map _ _)) as Hfold.
  cbv zeta in Hfold. destruct Hfold as (Hin & Hout & Hb' & Hc' & Hr').
  { intros k p Hp%elem_of_range_map. by apply Hids'. }
  eexists. split; [reflexivity |].
  split; [rewrite Hr; exact Hr' |]. split; [rewrite Hb; exact Hb' |].
  split; [rewrite Hc; exact Hc' |]. split.
  - apply set_eq. intros k. rewrite !elem_of_dom, Hdom.
    destruct (g_PlayersMap g' !! k) as [p|] eqn:Hp.
    + rewrite (Hin k p) by by apply elem_of_range_map. split; by eexists.
    + rewrite Hout; [simpl; by rewrite lookup_empty |].
      intros [[k' p] [-> Hkp%elem_of_range_map]]%list_elem_of_fmap.
      simpl in Hp. congruence.
  - intros k cards Hk.
    assert (is_Some (g_PlayersMap g' !! k)) as [p Hp] by (apply Hdom; by eexists).
    destruct (Hhands k p Hp) as (cards0 & Hk0 & Hh & _ & Hn).
    rewrite Hk in Hk0. injection Hk0 as <-.
    eexists. split; [apply Hin; by apply elem_of_range_map |].
    rewrite range_map_Permutation, Hh. by apply cardIndexSlice_cards.
Qed.

Lemma RoundInfo_after_StartGame_witness :
  ∃ info g' info',
    StartGame (λ i, i) N.to_nat full_lobby = (Ok info, g') ∧
    Game_RoundInfo N.to_nat (λ _, Z.to_nat) g' = Ok info' ∧
    ri_RoundNumber info' = ri_RoundNumber info.
Proof.
  destruct (StartGame (λ i, i) N.to_nat full_lobby) as [r g'] eqn:H.
  assert (∃ info, r = Ok info) as [info ->]
    by (vm_compute in H; injection H as <- _; by eexists).
  destruct (RoundInfo_after_StartGame _ _ N.to_nat (λ _, Z.to_nat) _ _ _
              (sample_lobby_Ids _) H) as (info' & Hinfo & Hr & _).
  exists info, g', info'. split; [reflexivity |]. split; [exact Hinfo | exact Hr].
Defined.

(** X16.  Whatever [StartGame] returns, it leaves the players as they
    were apart from their hands: the join order, the settings, the owner,
    the identifier and the creation time of the game are unchanged, and
    every player keeps its identifier, name, points, connection flag and
    current play.  The players [StateInfo] lists are therefore the same
    before and after. *)
Theorem StartGame_changes_only_hands rnd prio g r g' :
  StartGame rnd prio g = (r, g') →
  g_Id g' = g_Id g ∧ g_CreationTime g' = g_CreationTime g ∧
  g_GameOwnerId g' = g_GameOwnerId g ∧ g_Settings g' = g_Settings g ∧
  g_Players g' = g_Players g ∧
  dom (g_PlayersMap g') = dom (g_PlayersMap g) ∧
  (∀ k p', g_PlayersMap g' !! k = Some p' →
     ∃ p, g_PlayersMap g !! k = Some p ∧ p' = set_Hand (p_Hand p') p) ∧
  gsi_Players <$> StateInfo g' = gsi_Players <$> StateInfo g.
Proof.
  intros H. destruct (StartGame_frame _ _ _ _ _ H) as (Hid & Hct & Hown & _).
  destruct (StartGame_players _ _ _ _ _ H) as (Hpl & Hs & Hmap).
  split; [done |]. split; [done |]. split; [done |]. split; [done |].
  split; [done |]. split; [| split].
  - apply set_eq. intros k. rewrite !elem_of_dom. specialize (Hmap k).
    destruct (g_PlayersMap g' !! k), (g_PlayersMap g !! k); try done;
      split; intros [? ?]; done || by eexists.
  - intros k p' Hp'. specialize (Hmap k). rewrite Hp' in Hmap.
    destruct (g_PlayersMap g !! k) as [p|]; [| done].
    exists p. split; [done |]. simpl in Hmap. injection Hmap as Hmap.
    destruct p', p. unfold set_Hand in *. simpl in *. congruence.
  - unfold StateInfo. rewrite Hpl.
    assert (∀ id, StateInfo_player g' id = StateInfo_player g id) as Hsp.
    { intros id. unfold StateInfo_player. specialize (Hmap id).
      destruct (g_PlayersMap g' !! id) as [p'|], (g_PlayersMap g !! id) as [p|];
        try done.
      simpl in Hmap. injection Hmap as Hmap. simpl.
      destruct p', p. unfold set_Hand in *. simpl in *. congruence. }
    assert (mapM (StateInfo_player g') (g_Players g)
            = mapM (StateInfo_player g) (g_Players g)) as ->.
    { clear Hpl. induction (g_Players g) as [|id ids IH]; [done |].
      cbn [mapM]. rewrite Hsp, IH. reflexivity. }
    by destruct (mapM _ _).
Qed.

Lemma StartGame_changes_only_hands_witness :
  g_Players started_game = g_Players full_lobby ∧
  gsi_Players <$> StateInfo started_game = gsi_Players <$> StateInfo full_lobby.
Proof.
  destruct (StartGame_changes_only_hands (λ i, i) N.to_nat full_lobby
              (StartGame (λ i, i) N.to_nat full_lobby).1 started_game)
    as (_ & _ & _ & _ & Hpl & _ & _ & Hinfo).
  - unfold started_game. by destruct (StartGame _ _ _).
  - split; [exact Hpl | exact Hinfo].
Defined.
End start_more.

(** ** Repository: what its methods keep and answer *)

Section repo_extra.
Implicit Types (gr : GameRepo) (game : Game) (p : Player).

Lemma NewGame_Ok_inv hostId gameId now gs name game :
  NewGame hostId gameId now gs name = Ok game →
  Validate gs = true ∧
  (MinPlayerNameLength ≤ String.length name ≤ MaxPlayerNameLength)%nat ∧
  game = mkGame gameId [hostId] {[hostId := mkPlayer hostId name ∅ None true 0]}
           0%N hostId 0 gs None None now GameStateInLobby.
Proof.
  unfold NewGame. destruct (Validate gs); [simpl | done].
  destruct (NewPlayer hostId name) as [p|] eqn:Hp; [| done].
  apply NewPlayer_inv in Hp as [-> Hlen]. by intros [= <-].
Qed.

(** A method that leaves the game as it is leaves the repository as it
    is. *)
Lemma on_game_same {A} gameId game (m : M Game A) gr r :
  gr_GameMap gr !! gameId = Some game →
  m game = (r, game) → on_game gameId game m gr = (r, gr).
Proof.
  intros Hg Hm. unfold on_game. rewrite Hm, insert_id by done. by destruct gr.
Qed.

Lemma on_game_eq {A} gameId game (m : M Game A) gr r game' :
  m game = (r, game') →
  on_game gameId game m gr
  = (r, mkGameRepo (<[gameId := game']> (gr_GameMap gr)) (gr_GameAgeMap gr)).
Proof. intros Hm. unfold on_game. by rewrite Hm. Qed.

Lemma insert_keeps gr gameId game game' :
  RepoKeys gr → RepoOwners gr →
  gr_GameMap gr !! gameId = Some game →
  keeps_identity game game' →
  let gr' := mkGameRepo (<[gameId := game']> (gr_GameMap gr)) (gr_GameAgeMap gr) in
  RepoKeys gr' ∧ RepoOwners gr'.
Proof.
  intros Hk Ho Hg (Hid & Hct & Hwf & Hown). simpl. split.
  - intros gid g. simpl. intros [[<- <-] | [Hne Hl]]%lookup_insert_Some.
    + rewrite Hid, Hct. by apply Hk.
    + by apply Hk.
  - intros gid g. simpl. intros [[<- <-] | [Hne Hl]]%lookup_insert_Some.
    + done.
    + by apply (Ho gid).
Qed.

Lemma delete_keeps gr gameId (m : gmap UUID Game) :
  RepoKeys gr → RepoOwners gr →
  delete gameId m = delete gameId (gr_GameMap gr) →
  let gr' := mkGameRepo (delete gameId m) (delete gameId (gr_GameAgeMap gr)) in
  RepoKeys gr' ∧ RepoOwners gr'.
Proof.
  intros Hk Ho Hm. simpl. rewrite Hm. split.
  - intros gid g. simpl. intros [Hne Hl]%lookup_delete_Some.
    rewrite lookup_delete_ne by done. by apply Hk.
  - intros gid g. simpl. intros [Hne Hl]%lookup_delete_Some. by apply (Ho gid).
Qed.

Lemma AddPlayer_keeps id name game r game' :
  GameWF game → g_GameOwnerId game ∈ g_Players game →
  AddPlayer id name game = (r, game') → keeps_identity game game'.
Proof.
  intros Hwf Hown H. pose proof (AddPlayer_WF _ _ _ _ _ Hwf H) as Hwf'.
  destruct r as [pid|e].
  - apply AddPlayer_Ok_inv in H as (_ & _ & _ & _ & ->).
    split; [done |]. split; [done |]. split; [done |]. simpl. set_solver.
  - apply AddPlayer_Err_inv in H as ->. done.
Qed.

Lemma set_player_connected_keeps b pid game r game' :
  GameWF game → g_GameOwnerId game ∈ g_Players game →
  set_player_connected b pid game = (r, game') → keeps_identity game game'.
Proof.
  intros Hwf Hown. unfold set_player_connected.
  destruct (g_PlayersMap game !! pid) as [p|] eqn:Hp; intros [= <- <-]; [| done].
  split; [done |]. split; [done |]. split; [| done].
  destruct Hwf as (Hv & Hl & Hd). split; [done |]. simpl. split.
  - intros id Hid. destruct (decide (id = pid)) as [-> | Hne].
    + rewrite lookup_insert_eq. eexists. split; [done |].
      destruct (Hl pid Hid) as (p' & Hp' & Hn). rewrite Hp in Hp'.
      injection Hp' as <-. by destruct p.
    + rewrite lookup_insert_ne by done. by apply Hl.
  - intros id [p' [[<- <-] | [Hne Hp']]%lookup_insert_Some]; apply Hd; by eexists.
Qed.

Lemma run_op_keys_owners op gr :
  RepoKeys gr → RepoOwners gr →
  RepoKeys (run_op op gr) ∧ RepoOwners (run_op op gr).
Proof.
  intros Hk Ho. destruct op; simpl.
  - unfold CreateGame.
    destruct (NewGame hostId gameId now gameSettings playerName) as [game|]
      eqn:Hnew; [| done].
    pose proof (NewGame_WF _ _ _ _ _ _ Hnew) as Hwf.
    apply NewGame_Ok_inv in Hnew as (_ & _ & ->). simpl. split.
    + intros gid g. simpl. intros [[<- <-] | [Hne Hl]]%lookup_insert_Some.
      * simpl. by rewrite lookup_insert_eq.
      * rewrite lookup_insert_ne by done. by apply Hk.
    + intros gid g. simpl. intros [[<- <-] | [Hne Hl]]%lookup_insert_Some.
      * split; [done |]. simpl. set_solver.
      * by apply (Ho gid).
  - unfold RemoveGame. destruct (gr_GameMap gr !! gameID); [| done]. simpl.
    by apply delete_keeps.
  - unfold PlayerLeaveGame.
    destruct (gr_GameMap gr !! gameId) as [game|] eqn:Hg; [| done].
    destruct (RemovePlayer r playerId game) as [res game'] eqn:Hrm.
    rewrite (on_game_eq _ _ _ _ _ _ Hrm).
    destruct (Ho _ _ Hg) as [Hwf Hown].
    pose proof (RemovePlayer_WF _ _ _ _ _ Hwf Hrm) as Hwf'.
    apply RemovePlayer_inv in Hrm
      as [(_ & -> & ->) | (_ & _ & Hpl & _ & Hid & Hct & _ & _ & res' & -> & Hleft & Hcase)].
    + simpl. rewrite insert_id by done. by destruct gr.
    + destruct (Nat.eqb_spec (prr_PlayersLeft res') 0) as [H0 | H0]; simpl.
      * apply delete_keeps; [done | done |]. by rewrite delete_insert_eq.
      * apply (insert_keeps gr gameId game game'); [done | done | done |].
        split; [done |]. split; [done |]. split; [done |].
        destruct Hcase as [([Hne | Hnil] & Hsame & _) | (_ & _ & Hin & _)];
          [| | done].
        -- rewrite Hsame, Hpl. apply list_elem_of_filter. split; [| done].
           congruence.
        -- rewrite Hnil in Hleft. simpl in Hleft. lia.
  - unfold DisconnectPlayer.
    destruct (gr_GameMap gr !! gameId) as [game|] eqn:Hg; [| done].
    destruct (set_player_connected false playerId game) as [res game'] eqn:Hm.
    rewrite (on_game_eq _ _ _ _ _ _ Hm). destruct (Ho _ _ Hg) as [Hwf Hown].
    apply (insert_keeps gr gameId game game'); [done | done | done |].
    by eapply set_player_connected_keeps.
  - unfold ConnectPlayer.
    destruct (gr_GameMap gr !! gameId) as [game|] eqn:Hg; [| done].
    destruct (set_player_connected true playerId game) as [res game'] eqn:Hm.
    rewrite (on_game_eq _ _ _ _ _ _ Hm). destruct (Ho _ _ Hg) as [Hwf Hown].
    apply (insert_keeps gr gameId game game'); [done | done | done |].
    by eapply set_player_connected_keeps.
  - unfold CreatePlayer.
    destruct (gr_GameMap gr !! gameId) as [game|] eqn:Hg; [| done].
    destruct (negb _); [done |].
    destruct (AddPlayer id playerName game) as [res game'] eqn:Hm.
    rewrite (on_game_eq _ _ _ _ _ _ Hm). destruct (Ho _ _ Hg) as [Hwf Hown].
    apply (insert_keeps gr gameId game game'); [done | done | done |].
    by eapply AddPlayer_keeps.
  - unfold gameRepo.ChangeSettings.
    destruct (Validate settings) eqn:Hv; [simpl | done].
    destruct (gr_GameMap gr !! gameId) as [game|] eqn:Hg; [| done].
    unfold on_game, modify. destruct (Ho _ _ Hg) as [Hwf Hown].
    apply (insert_keeps gr gameId game (set_Settings settings game));
      [done | done | done |].
    split; [done |]. split; [done |]. split; [| done].
    destruct Hwf as (_ & Hl & Hd). by split.
Qed.

Lemma run_trace_keys_owners ops gr gr' :
  RepoKeys gr → RepoOwners gr → gr' ∈ run_trace ops gr →
  RepoKeys gr' ∧ RepoOwners gr'.
Proof.
  revert gr. induction ops as [|op ops IH]; intros gr Hk Ho; simpl.
  - by intros ->%list_elem_of_singleton.
  - intros [-> | Hin]%elem_of_cons; [done |].
    destruct (run_op_keys_owners op gr Hk Ho) as [Hk' Ho']. by apply (IH _ Hk' Ho').
Qed.

(** X17.  Whatever calls of [CreateGame], [RemoveGame],
    [PlayerLeaveGame], [DisconnectPlayer], [ConnectPlayer], [CreatePlayer]
    and [ChangeSettings] are made on a new repository, every game of the
    repository is stored under its own identifier with its creation time
    in the age map, has valid settings and a player map that agrees with
    its join order, and is owned by one of its players; so no game of the
    repository is without players. *)
Theorem repo_games_keyed_and_owned ops gr gid game :
  gr ∈ run_trace ops New →
  gr_GameMap gr !! gid = Some game →
  g_Id game = gid ∧
  gr_GameAgeMap gr !! gid = Some (g_CreationTime game) ∧
  GameWF game ∧
  g_GameOwnerId game ∈ g_Players game ∧
  is_Some (g_PlayersMap game !! g_GameOwnerId game).
Proof.
  intros Hin Hg.
  destruct (run_trace_keys_owners ops New gr) as [Hk Ho]; [done | done | done |].
  destruct (Hk _ _ Hg) as [Hid Hage]. destruct (Ho _ _ Hg) as [Hwf Hown].
  split; [done |]. split; [done |]. split; [done |]. split; [done |].
  destruct Hwf as (_ & Hl & _). destruct (Hl _ Hown) as (p & -> & _). by eexists.
Qed.

Lemma repo_games_keyed_and_owned_witness :
  ∃ game, gr_GameMap sample_repo_left !! 100%N = Some game ∧
          g_GameOwnerId game ∈ g_Players game.
Proof.
  destruct (gr_GameMap sample_repo_left !! 100%N) as [game|] eqn:Hg;
    [| by vm_compute in Hg].
  exists game. split; [done |].
  destruct (repo_games_keyed_and_owned
              [OpCreateGame 1 100 0 (sample_settings [sample_pack 60 10]) "Dave";
               OpCreatePlayer 2 100 "Alice" "";
               OpPlayerLeaveGame 0 100 1] sample_repo_left 100%N game)
    as (_ & _ & _ & Hown & _); [| exact Hg | exact Hown].
  cbn [run_trace]. right. right. right. left.
Defined.
End repo_extra.

Section repo_calls.
Implicit Types (gr : GameRepo) (game : Game) (p : Player).

Lemma lookup_None_game_unknown uuid_String gameId gr :
  gr_GameMap gr !! gameId = None → game_unknown uuid_String gameId gr.
Proof.
  intros Hg. unfold game_unknown, GetGame, GetPlayerName, JoinGame, RemoveGame,
    PlayerLeaveGame, DisconnectPlayer, ConnectPlayer, CreatePlayer,
    gameRepo.ChangeSettings.
  rewrite Hg. split; [done |]. split; [done |]. split; [done |]. split; [done |].
  split; [done |]. split; [done |]. split; [done |]. split; [done |].
  intros settings ->. done.
Qed.

(** X18.  A successful [CreateGame] returns the identifiers of the new
    game and of its owner, and the repository then answers for them:
    [GetGame] finds a game in the lobby with the given settings whose only
    player is the owner, the age map holds its creation time,
    [GetPlayerName] gives the owner's name and [JoinGame] accepts the
    owner with the password of the settings.  Every other game is left as
    it was. *)
Theorem CreateGame_then_read uuid_String hostId gameId now gs name gr gid pid gr' :
  CreateGame hostId gameId now gs name gr = (Ok (gid, pid), gr') →
  gid = gameId ∧ pid = hostId ∧
  (∃ game, GetGame gid gr' = Ok game ∧ g_Id game = gid ∧
           g_Settings game = gs ∧ g_Players game = [pid] ∧
           g_GameOwnerId game = pid ∧ g_GameState game = GameStateInLobby ∧
           g_CreationTime game = now) ∧
  gr_GameAgeMap gr' !! gid = Some now ∧
  GetPlayerName gid pid gr' = Ok name ∧
  JoinGame uuid_String gid pid (gs_Password gs) gr' = Ok tt ∧
  (∀ k, k ≠ gid → gr_GameMap gr' !! k = gr_GameMap gr !! k ∧
                  gr_GameAgeMap gr' !! k = gr_GameAgeMap gr !! k).
Proof.
  unfold CreateGame.
  destruct (NewGame hostId gameId now gs name) as [game|] eqn:Hnew; [| done].
  apply NewGame_Ok_inv in Hnew as (_ & _ & ->). simpl. intros [= <- <- <-].
  split; [done |]. split; [done |].
  unfold GetGame, GetPlayerName, JoinGame. simpl. rewrite !lookup_insert_eq. simpl.
  split; [by eexists |]. split; [done |].
  rewrite lookup_singleton_eq. simpl. split; [done |].
  rewrite bool_decide_eq_true_2 by done. simpl. split; [done |].
  intros k Hk. by rewrite !lookup_insert_ne.
Qed.

Lemma CreateGame_then_read_witness :
  ∃ gr', CreateGame 1 100 0 (sample_settings [sample_pack 60 10]) "Dave" New
         = (Ok (100%N, 1%N), gr') ∧
         GetPlayerName 100 1 gr' = Ok "Dave".
Proof.
  destruct (CreateGame 1 100 0 (sample_settings [sample_pack 60 10]) "Dave" New)
    as [r gr'] eqn:H.
  assert (r = Ok (100%N, 1%N)) as -> by (vm_compute in H; by injection H as <- _).
  exists gr'. split; [done |].
  by destruct (CreateGame_then_read sample_uuid_String _ _ _ _ _ _ _ _ _ H)
    as (_ & _ & _ & _ & Hn & _).
Defined.



(** X20.  A method of the repository that returns an error has changed
    nothing: neither the maps of the repository nor any game in them. *)
Theorem repo_errors_change_nothing op gr e :
  op_error op gr = Some e → run_op op gr = gr.
Proof.
  destruct op; simpl.
  - destruct (CreateGame _ _ _ _ _ gr) as [[?|e'] gr'] eqn:H; [done |].
    intros _. by apply CreateGame_Err in H.
  - unfold RemoveGame. by destruct (gr_GameMap gr !! gameID).
  - unfold PlayerLeaveGame.
    destruct (gr_GameMap gr !! gameId) as [game|] eqn:Hg; [| done].
    destruct (RemovePlayer r playerId game) as [res game'] eqn:Hrm.
    rewrite (on_game_eq _ _ _ _ _ _ Hrm).
    apply RemovePlayer_inv in Hrm as [(_ & -> & ->) | (_ & _ & _ & _ & _ & _ & _ & _ & res' & -> & _)].
    + intros _. simpl. rewrite insert_id by done. by destruct gr.
    + by destruct (prr_PlayersLeft res' =? 0)%nat.
  - unfold DisconnectPlayer.
    destruct (gr_GameMap gr !! gameId) as [game|] eqn:Hg; [| done].
    unfold on_game, set_player_connected.
    destruct (g_PlayersMap game !! playerId); [done |].
    intros _. simpl. rewrite insert_id by done. by destruct gr.
  - unfold ConnectPlayer.
    destruct (gr_GameMap gr !! gameId) as [game|] eqn:Hg; [| done].
    unfold on_game, set_player_connected.
    destruct (g_PlayersMap game !! playerId); [done |].
    intros _. simpl. rewrite insert_id by done. by destruct gr.
  - unfold CreatePlayer.
    destruct (gr_GameMap gr !! gameId) as [game|] eqn:Hg; [| done].
    destruct (negb _); [done |].
    destruct (AddPlayer id playerName game) as [[?|e'] game'] eqn:Hm;
      rewrite (on_game_eq _ _ _ _ _ _ Hm); [done |].
    apply AddPlayer_Err_inv in Hm as ->.
    intros _. simpl. rewrite insert_id by done. by destruct gr.
  - unfold gameRepo.ChangeSettings. destruct (negb _); [done |].
    by destruct (gr_GameMap gr !! gameId).
Qed.

Lemma repo_errors_change_nothing_witness :
  run_op (OpCreatePlayer 3 100 "Alice" "") sample_repo_joined = sample_repo_joined.
Proof.
  apply (repo_errors_change_nothing _ _ ErrDuplicateName). by vm_compute.
Defined.

(** X21.  A call about one game leaves every other game of the
    repository, and its entry in the age map, as it was. *)
Theorem repo_other_games_untouched op gr k :
  k ≠ op_target op →
  gr_GameMap (run_op op gr) !! k = gr_GameMap gr !! k ∧
  gr_GameAgeMap (run_op op gr) !! k = gr_GameAgeMap gr !! k.
Proof.
  intros Hk. destruct op; simpl in *.
  - unfold CreateGame.
    destruct (NewGame hostId gameId now gameSettings playerName) as [game|]
      eqn:Hnew; [| done].
    apply NewGame_Ok_inv in Hnew as (_ & _ & ->). simpl.
    by rewrite !lookup_insert_ne.
  - unfold RemoveGame. destruct (gr_GameMap gr !! gameID); [| done]. simpl.
    by rewrite !lookup_delete_ne.
  - unfold PlayerLeaveGame, on_game.
    destruct (gr_GameMap gr !! gameId) as [game|]; [| done].
    destruct (RemovePlayer r playerId game) as [[res|e] game']; simpl.
    + destruct (prr_PlayersLeft res =? 0)%nat; simpl.
      * by rewrite !lookup_delete_ne, lookup_insert_ne.
      * by rewrite lookup_insert_ne.
    + by rewrite lookup_insert_ne.
  - unfold DisconnectPlayer, on_game.
    destruct (gr_GameMap gr !! gameId) as [game|]; [| done].
    destruct (set_player_connected false playerId game). simpl.
    by rewrite lookup_insert_ne.
  - unfold ConnectPlayer, on_game.
    destruct (gr_GameMap gr !! gameId) as [game|]; [| done].
    destruct (set_player_connected true playerId game). simpl.
    by rewrite lookup_insert_ne.
  - unfold CreatePlayer, on_game.
    destruct (gr_GameMap gr !! gameId) as [game|]; [| done].
    destruct (negb _); [done |].
    destruct (AddPlayer id playerName game). simpl. by rewrite lookup_insert_ne.
  - unfold gameRepo.ChangeSettings, on_game, modify. destruct (negb _); [done |].
    destruct (gr_GameMap gr !! gameId) as [game|]; [| done]. simpl.
    by rewrite lookup_insert_ne.
Qed.

Lemma repo_other_games_untouched_witness :
  gr_GameMap (run_op (OpRemoveGame 7) sample_repo_joined) !! 100%N
  = gr_GameMap sample_repo_joined !! 100%N.
Proof.
  by destruct (repo_other_games_untouched (OpRemoveGame 7) sample_repo_joined 100%N).
Defined.
End repo_calls.

Section repo_players.
Implicit Types (gr : GameRepo) (game : Game) (p : Player).

Lemma GetGame_insert gameId game gr ages :
  GetGame gameId (mkGameRepo (<[gameId := game]> (gr_GameMap gr)) ages) = Ok game.
Proof. unfold GetGame. simpl. by rewrite lookup_insert_eq. Qed.

(** X22.  [PlayerLeaveGame] on a game of the repository: for somebody who
    is not a player it fails with "Player is not in the game" and changes
    nothing.  For a player it returns what [RemovePlayer] returns; when
    nobody is left the game is deleted from both maps and can no longer be
    found, and otherwise the game stays, without the player, who can no
    longer join it. *)
Theorem PlayerLeaveGame_outcomes uuid_String r gameId playerId gr game :
  gr_GameMap gr !! gameId = Some game →
  (g_PlayersMap game !! playerId = None →
   PlayerLeaveGame r gameId playerId gr = (Err ErrPlayerNotInGame, gr)) ∧
  (is_Some (g_PlayersMap game !! playerId) →
   ∃ res game' gr',
     RemovePlayer r playerId game = (Ok res, game') ∧
     PlayerLeaveGame r gameId playerId gr = (Ok res, gr') ∧
     prr_PlayersLeft res
       = length (filter (λ pid, pid ≠ playerId) (g_Players game)) ∧
     (prr_PlayersLeft res = 0%nat →
      game_unknown uuid_String gameId gr' ∧ gr_GameAgeMap gr' !! gameId = None) ∧
     (prr_PlayersLeft res ≠ 0%nat →
      GetGame gameId gr' = Ok game' ∧ gr_GameAgeMap gr' = gr_GameAgeMap gr ∧
      GetPlayerName gameId playerId gr' = Err ErrPlayerNotFound ∧
      JoinGame uuid_String gameId playerId (gs_Password (g_Settings game)) gr'
      = Err ("Cannot find player with id " +:+ uuid_String playerId
             +:+ " in game with id " +:+ uuid_String gameId))).
Proof.
  intros Hg. unfold PlayerLeaveGame. rewrite Hg.
  destruct (RemovePlayer r playerId game) as [res game'] eqn:Hrm.
  rewrite (on_game_eq _ _ _ _ _ _ Hrm).
  apply RemovePlayer_inv in Hrm
    as [(Hnone & -> & ->) | (Hsome & Hmap & Hpl & Hset & _ & _ & _ & _ & res' & -> & Hleft & _)].
  - split; [| intros [? ?]; congruence].
    intros _. rewrite insert_id by done. by destruct gr.
  - split; [intros Hnone; destruct Hsome; congruence |]. intros _.
    exists res', game'. rewrite Hpl in Hleft.
    destruct (Nat.eqb_spec (prr_PlayersLeft res') 0) as [H0 | H0].
    + eexists. split; [done |]. split; [reflexivity |]. split; [done |].
      split; [| done]. intros _. simpl. rewrite lookup_delete_eq. split; [| done].
      apply lookup_None_game_unknown. simpl. by rewrite lookup_delete_eq.
    + eexists. split; [done |]. split; [reflexivity |]. split; [done |].
      split; [done |]. intros _. split; [apply GetGame_insert |].
      split; [done |]. unfold GetPlayerName, JoinGame. simpl.
      rewrite lookup_insert_eq, Hmap, lookup_delete_eq, Hset. split; [done |].
      by rewrite bool_decide_eq_true_2.
Qed.

Lemma PlayerLeaveGame_outcomes_witness :
  ∃ res gr', PlayerLeaveGame 0 100 1 sample_repo = (Ok res, gr') ∧
             prr_PlayersLeft res = 0%nat ∧
             GetGame 100 gr' = Err ErrGameNotFound.
Proof.
  destruct (gr_GameMap sample_repo !! 100%N) as [game|] eqn:Hg;
    [| by vm_compute in Hg].
  destruct (PlayerLeaveGame_outcomes sample_uuid_String 0 100 1 sample_repo game Hg)
    as [_ H].
  destruct H as (res & game' & gr' & _ & Hplg & Hleft & Hzero & _).
  - vm_compute in Hg. injection Hg as <-. vm_compute. by eexists.
  - assert (prr_PlayersLeft res = 0%nat) as H0.
    { rewrite Hleft. vm_compute in Hg. injection Hg as <-. by vm_compute. }
    exists res, gr'. split; [exact Hplg |]. split; [exact H0 |].
    destruct (Hzero H0) as [[Hget _] _]. exact Hget.
Defined.

Lemma set_Connected_same p : p_Connected p = true → set_Connected true p = p.
Proof. destruct p. simpl. by intros ->. Qed.

(** X23.  [DisconnectPlayer] and [ConnectPlayer] fail with "Cannot find
    player" for somebody who is not a player of the game.  For a player,
    [DisconnectPlayer] clears the connection flag of that player and
    changes nothing else of the game: hand, current play, points and name
    stay, as do the other players.  [ConnectPlayer] afterwards sets the
    flag again, so a connected player who disconnects and connects again
    leaves the repository exactly as it was. *)
Theorem Disconnect_then_Connect gameId playerId gr game :
  gr_GameMap gr !! gameId = Some game →
  (g_PlayersMap game !! playerId = None →
   DisconnectPlayer gameId playerId gr = (Err ErrPlayerNotFound, gr) ∧
   ConnectPlayer gameId playerId gr = (Err ErrPlayerNotFound, gr)) ∧
  (∀ p, g_PlayersMap game !! playerId = Some p →
   ∃ gr1 gr2,
     DisconnectPlayer gameId playerId gr = (Ok tt, gr1) ∧
     GetGame gameId gr1
     = Ok (set_PlayersMap (<[playerId := set_Connected false p]> (g_PlayersMap game))
             game) ∧
     gr_GameAgeMap gr1 = gr_GameAgeMap gr ∧
     ConnectPlayer gameId playerId gr1 = (Ok tt, gr2) ∧
     GetGame gameId gr2
     = Ok (set_PlayersMap (<[playerId := set_Connected true p]> (g_PlayersMap game))
             game) ∧
     (p_Connected p = true → gr2 = gr)).
Proof.
  intros Hg. unfold DisconnectPlayer, ConnectPlayer. rewrite Hg. split.
  - intros Hnone. unfold on_game, set_player_connected. rewrite Hnone.
    rewrite insert_id by done. by destruct gr.
  - intros p Hp. unfold on_game at 1. unfold set_player_connected at 1.
    rewrite Hp. eexists. eexists. split; [reflexivity |].
    split; [apply GetGame_insert |]. split; [done |].
    cbn [gr_GameMap]. rewrite lookup_insert_eq.
    unfold on_game, set_player_connected. cbn [g_PlayersMap set_PlayersMap].
    rewrite lookup_insert_eq. cbn [gr_GameMap gr_GameAgeMap].
    rewrite insert_insert_eq.
    assert (set_PlayersMap
              (<[playerId := set_Connected true (set_Connected false p)]>
                 (<[playerId := set_Connected false p]> (g_PlayersMap game)))
              (set_PlayersMap
                 (<[playerId := set_Connected false p]> (g_PlayersMap game)) game)
            = set_PlayersMap (<[playerId := set_Connected true p]> (g_PlayersMap game))
                game) as ->.
    { unfold set_PlayersMap. simpl. rewrite insert_insert_eq. by destruct p. }
    split; [reflexivity |]. split; [apply GetGame_insert |].
    intros Hc. rewrite (set_Connected_same p Hc).
    rewrite (insert_id (g_PlayersMap game)) by done.
    assert (set_PlayersMap (g_PlayersMap game) game = game) as -> by by destruct game.
    rewrite insert_id by done. by destruct gr.
Qed.

Lemma Disconnect_then_Connect_witness :
  ∃ gr1, DisconnectPlayer 100 2 sample_repo_joined = (Ok tt, gr1) ∧
         ConnectPlayer 100 2 gr1 = (Ok tt, sample_repo_joined).
Proof.
  destruct (gr_GameMap sample_repo_joined !! 100%N) as [game|] eqn:Hg;
    [| by vm_compute in Hg].
  destruct (g_PlayersMap game !! 2%N) as [p|] eqn:Hp;
    [| by vm_compute in Hg; injection Hg as <-].
  destruct (Disconnect_then_Connect 100 2 sample_repo_joined game Hg) as [_ H].
  destruct (H p Hp) as (gr1 & gr2 & Hd & _ & _ & Hc & _ & Hback).
  exists gr1. split; [exact Hd |]. rewrite Hc, Hback; [reflexivity |].
  vm_compute in Hg. injection Hg as <-. vm_compute in Hp. by injection Hp as <-.
Defined.

(** X24.  [CreatePlayer] on a game of the repository checks the password
    before anything else: with a wrong password it fails with "Incorrect
    password" and adds nobody, whatever the name.  With the right password
    it returns what [AddPlayer] returns; on success the new player is in
    the game under the returned identifier, [GetPlayerName] gives the name
    and [JoinGame] with the same password accepts the player. *)
Theorem CreatePlayer_outcomes uuid_String id gameId name password gr game :
  gr_GameMap gr !! gameId = Some game →
  (gs_Password (g_Settings game) ≠ password →
   CreatePlayer id gameId name password gr = (Err ErrIncorrectPassword, gr)) ∧
  (gs_Password (g_Settings game) = password →
   (∀ e, AddPlayer id name game = (Err e, game) →
         CreatePlayer id gameId name password gr = (Err e, gr)) ∧
   (∀ pid game', AddPlayer id name game = (Ok pid, game') →
      ∃ gr', CreatePlayer id gameId name password gr = (Ok pid, gr') ∧
        pid = id ∧ GetGame gameId gr' = Ok game' ∧
        gr_GameAgeMap gr' = gr_GameAgeMap gr ∧
        GetPlayerName gameId pid gr' = Ok name ∧
        JoinGame uuid_String gameId pid password gr' = Ok tt)).
Proof.
  intros Hg. unfold CreatePlayer. rewrite Hg. split.
  - intros Hpw. by rewrite bool_decide_eq_false_2.
  - intros Hpw. rewrite bool_decide_eq_true_2 by done. cbn [negb]. split.
    + intros e Hadd. by apply on_game_same.
    + intros pid game' Hadd. rewrite (on_game_eq _ _ _ _ _ _ Hadd).
      eexists. split; [reflexivity |].
      apply AddPlayer_Ok_inv in Hadd as (-> & _ & _ & _ & ->).
      split; [done |]. split; [apply GetGame_insert |]. split; [done |].
      unfold GetPlayerName, JoinGame. simpl. rewrite !lookup_insert_eq. simpl.
      rewrite lookup_insert_eq. split; [done |].
      by rewrite bool_decide_eq_true_2.
Qed.

Lemma CreatePlayer_outcomes_witness :
  CreatePlayer 2 100 "Alice" "wrong" sample_repo = (Err ErrIncorrectPassword, sample_repo) ∧
  ∃ gr', CreatePlayer 2 100 "Alice" "" sample_repo = (Ok 2%N, gr') ∧
         GetPlayerName 100 2 gr' = Ok "Alice".
Proof.
  destruct (gr_GameMap sample_repo !! 100%N) as [game|] eqn:Hg;
    [| by vm_compute in Hg].
  assert (gs_Password (g_Settings game) = "") as Hpw
    by (vm_compute in Hg; by injection Hg as <-).
  split.
  - destruct (CreatePlayer_outcomes sample_uuid_String 2 100 "Alice" "wrong"
                sample_repo game Hg) as [H _].
    apply H. by rewrite Hpw.
  - destruct (CreatePlayer_outcomes sample_uuid_String 2 100 "Alice" ""
                sample_repo game Hg) as [_ H].
    destruct (H Hpw) as [_ Hok].
    destruct (AddPlayer 2 "Alice" game) as [r game'] eqn:Hadd.
    assert (r = Ok 2%N) as ->.
    { vm_compute in Hg. injection Hg as <-. vm_compute in Hadd.
      by injection Hadd as <- _. }
    destruct (Hok 2%N game' eq_refl) as (gr' & Hcp & _ & _ & _ & Hname & _).
    exists gr'. split; [exact Hcp | exact Hname].
Defined.

Lemma GetGames_ids prio gr :
  RepoKeys gr → g_Id <$> GetGames prio gr = (range_map prio (gr_GameMap gr)).*1.
Proof.
  intros Hk. unfold GetGames. rewrite <- list_fmap_compose.
  apply Forall_fmap_ext_1, Forall_forall.
  intros [k game] Hin%elem_of_range_map. simpl. by apply Hk.
Qed.

(** X25.  On a repository built by its own methods, [GetGames] returns
    every game exactly once: as many games as the game map has entries,
    with different identifiers, and a game is returned just when [GetGame]
    finds it under its identifier. *)
Theorem GetGames_lists_every_game prio ops gr :
  gr ∈ run_trace ops New →
  length (GetGames prio gr) = size (gr_GameMap gr) ∧
  NoDup (g_Id <$> GetGames prio gr) ∧
  ∀ game, game ∈ GetGames prio gr ↔ GetGame (g_Id game) gr = Ok game.
Proof.
  intros Hin.
  destruct (run_trace_keys_owners ops New gr) as [Hk _]; [done | done | done |].
  split; [| split].
  - unfold GetGames. by rewrite length_fmap, length_range_map.
  - rewrite GetGames_ids by done. apply NoDup_range_map.
  - intros game. unfold GetGames, GetGame. rewrite list_elem_of_fmap. split.
    + intros ([k g] & -> & Hl%elem_of_range_map). simpl.
      destruct (Hk _ _ Hl) as [-> _]. by rewrite Hl.
    + destruct (gr_GameMap gr !! g_Id game) as [g|] eqn:Hl; [| done].
      intros [= ->]. exists (g_Id game, game). split; [done |].
      by apply elem_of_range_map.
Qed.

Lemma GetGames_lists_every_game_witness :
  length (GetGames N.to_nat sample_repo_joined) = size (gr_GameMap sample_repo_joined).
Proof.
  destruct (GetGames_lists_every_game N.to_nat
              [OpCreateGame 1 100 0 (sample_settings [sample_pack 60 10]) "Dave";
               OpCreatePlayer 2 100 "Alice" ""] sample_repo_joined) as [Hlen _].
  - cbn [run_trace]. right. right. left.
  - exact Hlen.
Defined.
End repo_players.

(** ** The card catalog *)

Section cards_extra.
Implicit Types (pack : CardPack) (AllPacks : gmap UUID CardPack).

(** X26.  [GetCardPacks] returns, for identifiers that are all known, the
    packs stored under them, one for each identifier and in the order of
    the identifiers.  Otherwise it fails, and the error names the first
    identifier that is not known. *)
Theorem GetCardPacks_outcomes uuid_String AllPacks ids :
  match GetCardPacks uuid_String AllPacks ids with
  | Ok packs => Forall2 (λ id pack, AllPacks !! id = Some pack) ids packs
  | Err e =>
      ∃ before id after,
        ids = before ++ id :: after ∧
        Forall (λ i, is_Some (AllPacks !! i)) before ∧
        AllPacks !! id = None ∧
        e = "Cannot find card pack with ID " +:+ uuid_String id
  end.
Proof.
  induction ids as [|id ids IH]; simpl; [constructor |].
  destruct (AllPacks !! id) as [pack|] eqn:Hid.
  - destruct (GetCardPacks uuid_String AllPacks ids) as [packs|e].
    + by constructor.
    + destruct IH as (before & i & after & -> & Hb & Hi & ->).
      exists (id :: before), i, after. split; [done |]. split; [| done].
      constructor; [by eexists | done].
  - exists [], id, ids. split; [done |]. split; [constructor | done].
Qed.

Lemma GetCardPacks_outcomes_witness :
  GetCardPacks sample_uuid_String {[77%N := sample_pack 60 10]} [77%N; 78%N]
  = Err "Cannot find card pack with ID uuid".
Proof.
  pose proof (GetCardPacks_outcomes sample_uuid_String
                {[77%N := sample_pack 60 10]} [77%N; 78%N]) as H.
  destruct (GetCardPacks sample_uuid_String _ _) as [packs|e].
  - apply Forall2_cons_inv_l in H as (? & ? & _ & H & _).
    apply Forall2_cons_inv_l in H as (? & ? & H & _). by vm_compute in H.
  - destruct H as (before & id & after & _ & _ & _ & ->). reflexivity.
Defined.

Lemma lookup_imap_Z {A B} (f : Z → A → B) (l : list A) (id : Z) :
  0 ≤ id →
  imap (λ i x, f (Z.of_nat i) x) l !! Z.to_nat id = f id <$> l !! Z.to_nat id.
Proof.
  intros Hid. rewrite list_lookup_imap.
  destruct (l !! Z.to_nat id); simpl; [| done]. by rewrite Z2Nat.id.
Qed.

Lemma GetWhiteCard_lookup (AllWhiteCards : list WhiteCard) id :
  GetWhiteCard AllWhiteCards id =
  match (if decide (0 ≤ id) then AllWhiteCards !! Z.to_nat id else None) with
  | Some card => Ok card
  | None => Err ErrWhiteCardNotExist
  end.
Proof.
  unfold GetWhiteCard.
  destruct (Z.ltb_spec id 0); simpl; [by rewrite decide_False by lia |].
  rewrite decide_True by lia.
  destruct (Z.geb_spec id (Z.of_nat (length AllWhiteCards))); [| done].
  rewrite lookup_ge_None_2; [done | lia].
Qed.

Lemma GetBlackCard_lookup (AllBlackCards : list BlackCard) id :
  GetBlackCard AllBlackCards id =
  match (if decide (0 ≤ id) then AllBlackCards !! Z.to_nat id else None) with
  | Some card => Ok card
  | None => Err ErrBlackCardNotExist
  end.
Proof.
  unfold GetBlackCard.
  destruct (Z.ltb_spec id 0); simpl; [by rewrite decide_False by lia |].
  rewrite decide_True by lia.
  destruct (Z.geb_spec id (Z.of_nat (length AllBlackCards))); [| done].
  rewrite lookup_ge_None_2; [done | lia].
Qed.

(** X27.  After [translateCahCards] the catalog holds one card for each
    card of the data, and a card is found under its position: for an
    index [id] of the white cards of the data [GetWhiteCard id] returns
    the card made from [id] and the text at that position, and likewise
    [GetBlackCard] with the text and the pick count; for every other
    [id], negative ones too, they fail with "White card does not exist"
    and "Black card does not exist". *)
Theorem catalog_lookup_after_translate NewWhiteCard NewBlackCard data id :
  let catalog := translateCahCards NewWhiteCard NewBlackCard data in
  length catalog.1 = length (cj_WhiteCards data) ∧
  length catalog.2 = length (cj_BlackCards data) ∧
  GetWhiteCard catalog.1 id =
    match (if decide (0 ≤ id) then cj_WhiteCards data !! Z.to_nat id else None) with
    | Some cardText => Ok (NewWhiteCard id cardText)
    | None => Err ErrWhiteCardNotExist
    end ∧
  GetBlackCard catalog.2 id =
    match (if decide (0 ≤ id) then cj_BlackCards data !! Z.to_nat id else None) with
    | Some blackCard =>
        Ok (NewBlackCard id (cbc_Text blackCard) (uint_of_int (cbc_Pick blackCard)))
    | None => Err ErrBlackCardNotExist
    end.
Proof.
  unfold translateCahCards. simpl. rewrite !length_imap.
  split; [done |]. split; [done |].
  rewrite GetWhiteCard_lookup, GetBlackCard_lookup.
  destruct (decide (0 ≤ id)) as [Hid | Hid]; [| done].
  rewrite (lookup_imap_Z (λ i x, NewWhiteCard i x)) by done.
  rewrite (lookup_imap_Z (λ i x, NewBlackCard i (cbc_Text x) (uint_of_int (cbc_Pick x))))
    by done.
  split.
  - by destruct (cj_WhiteCards data !! Z.to_nat id).
  - by destruct (cj_BlackCards data !! Z.to_nat id).
Qed.

Lemma catalog_lookup_after_translate_witness :
  GetWhiteCard
    (translateCahCards mkWhiteCard mkBlackCard
       (mkCahJson ["a"; "b"] [mkCahJsonBlackCard "q" 1] [])).1 1
  = Ok (mkWhiteCard 1 "b").
Proof.
  destruct (catalog_lookup_after_translate mkWhiteCard mkBlackCard
              (mkCahJson ["a"; "b"] [mkCahJsonBlackCard "q" 1] []) 1)
    as (_ & _ & Hw & _).
  exact Hw.
Defined.

Lemma DefaultCardPack_loop_Some entries pack :
  DefaultCardPack_loop entries = Some pack →
  5 < cp_BlackCards pack ∧ 50 < cp_WhiteCards pack ∧ pack ∈ entries.*2.
Proof.
  induction entries as [|[k q] entries IH]; simpl; [done |].
  destruct (Z.ltb_spec 5 (cp_BlackCards q)); simpl.
  - destruct (Z.ltb_spec 50 (cp_WhiteCards q)).
    + intros [= <-]. split; [done |]. split; [done | left].
    + intros (? & ? & ?)%IH. split; [done |]. split; [done | by right].
  - intros (? & ? & ?)%IH. split; [done |]. split; [done | by right].
Qed.

Lemma DefaultCardPack_loop_None entries :
  DefaultCardPack_loop entries = None →
  ∀ pack, pack ∈ entries.*2 → cp_BlackCards pack ≤ 5 ∨ cp_WhiteCards pack ≤ 50.
Proof.
  induction entries as [|[k q] entries IH]; simpl.
  - by intros _ pack ?%elem_of_nil.
  - destruct (Z.ltb_spec 5 (cp_BlackCards q)); simpl.
    + destruct (Z.ltb_spec 50 (cp_WhiteCards q)); [done |].
      intros Hrest pack [-> | Hin]%elem_of_cons; [by right | by apply IH].
    + intros Hrest pack [-> | Hin]%elem_of_cons; [by left | by apply IH].
Qed.

(** X28.  The pack [DefaultCardPack] returns is a pack of [AllPacks] with
    more than five black and more than fifty white cards, and it returns
    nil only when [AllPacks] has no such pack, in whatever order the loop
    runs.  With such a pack, [DefaultGameSettings] gives settings with
    this one pack that [Validate] accepts. *)
Theorem DefaultCardPack_outcomes prio AllPacks :
  match DefaultCardPack prio AllPacks with
  | Some pack =>
      5 < cp_BlackCards pack ∧ 50 < cp_WhiteCards pack ∧
      (∃ id, AllPacks !! id = Some pack) ∧
      ∃ gs, DefaultGameSettings prio AllPacks = Some gs ∧
            gs_CardPacks gs = [pack] ∧ gs_Password gs = "" ∧ Validate gs = true
  | None =>
      (∀ id pack, AllPacks !! id = Some pack →
                  cp_BlackCards pack ≤ 5 ∨ cp_WhiteCards pack ≤ 50) ∧
      DefaultGameSettings prio AllPacks = None
  end.
Proof.
  unfold DefaultGameSettings, DefaultCardPack.
  destruct (DefaultCardPack_loop (range_map prio AllPacks)) as [pack|] eqn:H.
  - apply DefaultCardPack_loop_Some in H as (Hb & Hw & Hin).
    split; [done |]. split; [done |]. split.
    + apply list_elem_of_fmap in Hin as ([k q] & -> & Hin%elem_of_range_map).
      by exists k.
    + simpl. eexists. split; [reflexivity |]. done.
  - split; [| done]. intros id pack Hl.
    apply (DefaultCardPack_loop_None _ H). apply list_elem_of_fmap.
    exists (id, pack). split; [done |]. by apply elem_of_range_map.
Qed.

Lemma DefaultCardPack_outcomes_witness :
  DefaultCardPack N.to_nat {[77%N := sample_pack 60 10]} = Some (sample_pack 60 10).
Proof.
  pose proof (DefaultCardPack_outcomes N.to_nat {[77%N := sample_pack 60 10]}) as H.
  destruct (DefaultCardPack N.to_nat _) as [pack|].
  - destruct H as (_ & _ & [id Hid] & _).
    by apply lookup_singleton_Some in Hid as [_ <-].
  - destruct H as [H _].
    destruct (H 77%N (sample_pack 60 10)) as [Hle | Hle];
      [apply lookup_singleton_eq | simpl in Hle; lia | simpl in Hle; lia].
Defined.
End cards_extra.

(** ** A new game *)

Section new_game.

(** X29.  [NewGame] checks the settings before the name: with settings
    [Validate] refuses it fails with "Cannot validate the game settings",
    with valid settings and a bad name it fails with the error of
    [NewPlayer], and otherwise it returns a game in the lobby, in round 0,
    without deck or black card, whose only player is the connected host
    with no cards and no points, who owns the game.  Such a game cannot be
    started: [StartGame] asks for three players. *)
Theorem NewGame_outcomes hostId gameId now gs name :
  (Validate gs = false → NewGame hostId gameId now gs name = Err ErrInvalidSettings) ∧
  (Validate gs = true →
   ∀ e, NewPlayer hostId name = Err e → NewGame hostId gameId now gs name = Err e) ∧
  (∀ g, NewGame hostId gameId now gs name = Ok g →
     g = mkGame gameId [hostId] {[hostId := mkPlayer hostId name ∅ None true 0]}
           0%N hostId 0 gs None None now GameStateInLobby ∧
     ∀ rnd prio, StartGame rnd prio g = (Err ErrNotEnoughPlayers, g)).
Proof.
  split; [| split].
  - intros Hv. unfold NewGame. by rewrite Hv.
  - intros Hv e He. unfold NewGame. by rewrite Hv, He.
  - intros g (_ & _ & ->)%NewGame_Ok_inv. split; [done |].
    intros rnd prio. by rewrite StartGame_unfold.
Qed.

Lemma NewGame_outcomes_witness :
  NewGame 1 100 0 (sample_settings []) "Dave" = Err ErrInvalidSettings ∧
  ∃ g, NewGame 1 100 0 (sample_settings [sample_pack 60 10]) "Dave" = Ok g ∧
       StartGame (λ i, i) N.to_nat g = (Err ErrNotEnoughPlayers, g).
Proof.
  split.
  - destruct (NewGame_outcomes 1 100 0 (sample_settings []) "Dave") as [H _].
    apply H. reflexivity.
  - destruct (NewGame_outcomes 1 100 0 (sample_settings [sample_pack 60 10]) "Dave")
      as (_ & _ & H).
    destruct (NewGame 1 100 0 (sample_settings [sample_pack 60 10]) "Dave")
      as [g|] eqn:Hg; [| by vm_compute in Hg].
    exists g. split; [reflexivity |]. by destruct (H g eq_refl) as [_ Hs].
Defined.
End new_game.
